(** * exo_changelog: a shallow embedding of the change (migration) engine

    The development follows the layout of the Python package:

    - [Py]          exceptions, the error monad and the state-and-error monad
                    that the embeddings of the Python methods are written in;
    - [Recorder]    recorder.py  (the [ChangeLog] table and [ChangeRecorder]);
    - [Operations]  operations.py ([RunSQL], [RunPython]);
    - [Graph]       the dependency graph used by loader.py and executor.py;
    - [Loader]      loader.py ([check_consistent_history], [detect_conflicts]);
    - [Executor]    executor.py and change.py ([change_plan], [change],
                    [apply_change], [unapply_change]).

    The properties follow in modules of the same names with the suffix
    [Facts], and [Examples] runs the embedding on an app with three
    changes.  After them come further parts of the package, each with its
    properties:

    - [RecorderRoundTrips], [OperationsBodies], [ChangeFacts],
      [LoaderLookup]: the recorder read back, [_run_sql] and
      [deconstruct], change.py, [get_change_by_prefix] and [check_key];
    - [PlanInvariants], [PlanShapes]: what [change_plan] returns;
    - [RunFacts], [UnapplyFacts], [ChangeNeverUnapplies]: the runs of
      the executor;
    - [Autodetector]: autodetector.py ([parse_number],
      [arrange_for_graph]);
    - [ApplyChange]: management/commands/applychange.py ([handle]). *)

From Stdlib Require Import String Ascii Decimal DecimalString DecimalNat.
From stdpp Require Import base gmap sets list strings sorting.

(** ** Python values shared by all modules *)

Module Py.

(** The exception classes of exceptions.py, together with the built-in
    classes that the embedded code can raise. *)
Inductive exn : Type :=
  | AmbiguityError
  | BadChangeError
  | CircularDependencyError
  | InconsistentChangeHistory
  | InvalidBasesError
  | IrreversibleError
  | NodeNotFoundError
  | ChangeSchemaMissing
  | InvalidChangePlan
  | DatabaseError
  | AttributeError
  | TypeError
  | KeyError
  | ValueError
  | LookupError
  | IndexError
  | RuntimeError
  | NotImplementedError
  | Exception.

Global Instance exn_eq_dec : EqDecision exn.
Proof. solve_decision. Defined.

(** The direct base class, as declared in exceptions.py (and by Python and
    Django for the built-in ones).  [Exception] is the root. *)
Definition base_class (e : exn) : option exn :=
  match e with
  | AmbiguityError | BadChangeError | CircularDependencyError
  | InconsistentChangeHistory => Some Exception
  | InvalidBasesError => Some ValueError
  | IrreversibleError => Some RuntimeError
  | NodeNotFoundError => Some LookupError
  | ChangeSchemaMissing => Some DatabaseError
  | InvalidChangePlan => Some ValueError
  | DatabaseError => Some Exception
  | AttributeError | TypeError | ValueError | LookupError | RuntimeError =>
      Some Exception
  | KeyError | IndexError => Some LookupError
  | NotImplementedError => Some RuntimeError
  | Exception => None
  end.

(** [issubclass e c]: [c] is [e] or one of its bases.  The hierarchy has
    depth three, so three steps up reach the root from every class. *)
Fixpoint issubclass_fuel (n : nat) (e c : exn) : bool :=
  if bool_decide (e = c) then true
  else match n with
       | O => false
       | S n' => match base_class e with
                 | Some b => issubclass_fuel n' b c
                 | None => false
                 end
       end.

Definition issubclass (e c : exn) : bool := issubclass_fuel 3 e c.

(** The outcome of a Python call: a value, or a raised exception. *)
Inductive result (A : Type) : Type :=
  | Ok (a : A)
  | Raise (e : exn).
Global Arguments Ok {A} a.
Global Arguments Raise {A} e.

Definition is_ok {A} (r : result A) : bool :=
  match r with Ok _ => true | Raise _ => false end.

Definition rbind {A B} (r : result A) (k : A → result B) : result B :=
  match r with
  | Ok a => k a
  | Raise e => Raise e
  end.

(** [mapM] for [result]: the first exception stops the iteration. *)
Fixpoint rmap {A B} (f : A → result B) (l : list A) : result (list B) :=
  match l with
  | [] => Ok []
  | x :: l' =>
      rbind (f x) (λ y, rbind (rmap f l') (λ ys, Ok (y :: ys)))
  end.

(** Code that reads and writes a store [S] and may raise: the store that
    is current when the exception leaves the call is kept. *)
Definition M (S A : Type) : Type := S → result A * S.

Definition ret {S A} (a : A) : M S A := λ s, (Ok a, s).
Definition raise {S A} (e : exn) : M S A := λ s, (Raise e, s).
Definition lift {S A} (r : result A) : M S A := λ s, (r, s).
Definition bind {S A B} (c : M S A) (k : A → M S B) : M S B :=
  λ s, match c s with
       | (Ok a, s') => k a s'
       | (Raise e, s') => (Raise e, s')
       end.
Definition get {S} : M S S := λ s, (Ok s, s).
Definition modify {S} (f : S → S) : M S unit := λ s, (Ok tt, f s).

(** [try: body except cls: handler] *)
Definition try_except {S A} (body : M S A) (cls : exn) (handler : exn → M S A)
    : M S A :=
  λ s, match body s with
       | (Ok a, s') => (Ok a, s')
       | (Raise e, s') =>
           if issubclass e cls then handler e s' else (Raise e, s')
       end.

(** Attribute lookup on an object whose attributes (instance attributes,
    properties and methods of its class and bases) are [attrs]. *)
Definition getattr (attrs : list string) (name : string) : result unit :=
  if bool_decide (name ∈ attrs) then Ok tt else Raise AttributeError.

End Py.

Export Py.

Declare Scope py_scope.
Delimit Scope py_scope with py.
Notation "x <- c ;; k" := (Py.bind c (λ x, k))
  (at level 20, c at level 99, k at level 200, only parsing) : py_scope.
Notation "c ;; k" := (Py.bind c (λ _, k))
  (at level 100, k at level 200, only parsing, right associativity) : py_scope.

(** A change is identified by the pair (app_label, name). *)
Abbreviation ChangeKey := (string * string)%type.

(** ** recorder.py *)

Module Recorder.

(** The database as the recorder sees it: the names of the tables that
    exist, the rows of the [ChangeLog] table as (app, name) pairs in
    insertion order (the model declares no uniqueness constraint, so a pair
    can occur more than once; the [applied] timestamp column is never read
    by this package and is left out), and whether the backend refuses the
    DDL statement that creates the table. *)
Record Store : Type := {
  table_names : list string;
  rows : list ChangeKey;
  ddl_refused : bool;
}.

(** [ChangeLog._meta.db_table]: Django's default, app label and lower-cased
    model name. *)
Definition db_table : string := "exo_changelog_changelog".

(** What an instance of [ChangeRecorder] answers to: the attribute set in
    [__init__], the property and the methods of the class. *)
Definition ChangeRecorder_attrs : list string :=
  ["connection"; "change_qs"; "ensure_schema"; "applied_changes";
   "record_applied"; "record_unapplied"; "flush"].

(** [editor.create_model(model)]: the backend creates the table or raises
    [DatabaseError]. *)
Definition create_model : M Store unit :=
  λ s, if ddl_refused s then (Raise DatabaseError, s)
       else (Ok tt, {| table_names := db_table :: table_names s;
                       rows := rows s;
                       ddl_refused := ddl_refused s |}).

(** [with self.connection.schema_editor() as editor: body]; an exception
    raised by the body leaves the block unchanged. *)
Definition with_schema_editor {A} (body : M Store A) : M Store A := body.

(** [ChangeRecorder.ensure_schema].  The argument [self.Migration] is
    evaluated before [create_model] is called. *)
Definition ensure_schema : M Store unit :=
  (s <- get ;;
   if bool_decide (db_table ∈ table_names s) then ret tt
   else
     try_except
       (with_schema_editor
          (lift (getattr ChangeRecorder_attrs "Migration") ;;
           create_model))
       DatabaseError
       (λ exc, raise ChangeSchemaMissing))%py.

(** [ChangeRecorder.applied_changes]: the set of (app, name) of the rows. *)
Definition applied_changes : M Store (gset ChangeKey) :=
  (ensure_schema ;;
   s <- get ;;
   ret (list_to_set (rows s)))%py.

(** [ChangeRecorder.record_applied]: [change_qs.create(app=app, name=name)]. *)
Definition record_applied (app name : string) : M Store unit :=
  (ensure_schema ;;
   modify (λ s, {| table_names := table_names s;
                   rows := rows s ++ [(app, name)];
                   ddl_refused := ddl_refused s |}))%py.

(** [ChangeRecorder.record_unapplied]:
    [change_qs.filter(app=app, name=name).delete()]. *)
Definition record_unapplied (app name : string) : M Store unit :=
  (ensure_schema ;;
   modify (λ s, {| table_names := table_names s;
                   rows := filter (λ r, r ≠ (app, name)) (rows s);
                   ddl_refused := ddl_refused s |}))%py.

(** The applied set that a store holds. *)
Definition applied_set (s : Store) : gset ChangeKey := list_to_set (rows s).

End Recorder.

(** ** operations.py *)

Module Operations.

(** The Python values that the SQL arguments of [RunSQL] range over: a
    string, or a list or tuple of values. *)
Inductive pyval : Type :=
  | PStr (s : string)
  | PSeq (elems : list pyval).

(** The live database behind [connections[DEFAULT_DB_ALIAS]], as far as the
    operations use it: [schema_editor.execute(sql, params)] and
    [connection.ops.prepare_sql_script(script)]. *)
Class Backend (DB : Type) : Type := {
  execute : pyval → option pyval → M DB unit;
  prepare_sql_script : string → list string;
}.

Section operations.
Context {DB PS : Type} `{!Backend DB}.

(** [for x in l: f x], stopping at the first exception. *)
Fixpoint for_each {A} (l : list A) (f : A → M DB unit) : M DB unit :=
  match l with
  | [] => ret tt
  | x :: l' => (f x ;; for_each l' f)%py
  end.

(** An operation of Django that only describes a change of the project
    state: [state_forwards(app_label, state)] mutates [state]. *)
Definition StateOperation : Type := string → PS → PS.

Record RunSQL : Type := {
  sql : pyval;
  reverse_sql : option pyval;
  state_operations : list StateOperation;
}.

(** A Python callable called without arguments, as [RunPython] does. *)
Definition Callable : Type := M DB unit.

Record RunPython : Type := {
  code : Callable;
  reverse_code : option Callable;
  atomic : option bool;
}.

Inductive Operation : Type :=
  | OpRunSQL (op : RunSQL)
  | OpRunPython (op : RunPython).

(** [RunSQL.noop] *)
Definition noop : string := "".

(** The body of the loop over a list of statements in [_run_sql]. *)
Definition run_statement (stmt : pyval) : M DB unit :=
  match stmt with
  | PSeq elems =>
      match elems with
      | [s; params] => execute s (Some params)
      | _ => raise ValueError
      end
  | PStr _ => execute stmt None
  end.

(** [RunSQL._run_sql(self, schema_editor, sqls)], called with the positional
    arguments [args]: the two parameters have no defaults, so a call with
    another number of arguments raises [TypeError] before the body runs. *)
Definition _run_sql (self : RunSQL) (args : list pyval) : M DB unit :=
  match args with
  | [schema_editor; sqls] =>
      match sqls with
      | PSeq stmts => for_each stmts run_statement
      | PStr script =>
          if bool_decide (script = noop) then ret tt
          else for_each (prepare_sql_script script)
                        (λ st, execute (PStr st) None)
      end
  | _ => raise TypeError
  end.

Definition RunSQL_reversible (self : RunSQL) : bool :=
  bool_decide (reverse_sql self ≠ None).

(** [RunSQL.state_forwards] *)
Definition RunSQL_state_forwards (self : RunSQL) (app_label : string)
    (state : PS) : PS :=
  foldl (λ st (op : StateOperation), op app_label st) state
        (state_operations self).

(** [RunSQL.database_forwards]: [self._run_sql(self.sql)] *)
Definition RunSQL_database_forwards (self : RunSQL) (app_label : string)
    : M DB unit :=
  _run_sql self [sql self].

(** [RunSQL.database_backwards] *)
Definition RunSQL_database_backwards (self : RunSQL) (app_label : string)
    : M DB unit :=
  match reverse_sql self with
  | None => raise NotImplementedError
  | Some rsql => _run_sql self [rsql]
  end.

Definition RunPython_reversible (self : RunPython) : bool :=
  bool_decide (reverse_code self ≠ None).

(** [RunPython.database_forwards]; the call
    [from_state.clear_delayed_apps_cache()] acts on the clone that
    [Change.apply] made for this operation only, and is left out. *)
Definition RunPython_database_forwards (self : RunPython) (app_label : string)
    : M DB unit :=
  code self.

(** [RunPython.database_backwards] *)
Definition RunPython_database_backwards (self : RunPython)
    (app_label : string) : M DB unit :=
  match reverse_code self with
  | None => raise NotImplementedError
  | Some rc => rc
  end.

(** Dispatch on the class of the operation. *)
Definition state_forwards (op : Operation) (app_label : string) (state : PS)
    : PS :=
  match op with
  | OpRunSQL o => RunSQL_state_forwards o app_label state
  | OpRunPython _ => state
  end.

Definition database_forwards (op : Operation) (app_label : string)
    : M DB unit :=
  match op with
  | OpRunSQL o => RunSQL_database_forwards o app_label
  | OpRunPython o => RunPython_database_forwards o app_label
  end.

Definition database_backwards (op : Operation) (app_label : string)
    : M DB unit :=
  match op with
  | OpRunSQL o => RunSQL_database_backwards o app_label
  | OpRunPython o => RunPython_database_backwards o app_label
  end.

End operations.

Global Arguments RunSQL : clear implicits.
Global Arguments RunPython : clear implicits.
Global Arguments Operation : clear implicits.
Global Arguments StateOperation : clear implicits.
Global Arguments Callable : clear implicits.

End Operations.

(** ** The dependency graph *)

Module Graph.

(** Python orders keys, which are pairs of strings, lexicographically. *)
Definition key_leb (a b : ChangeKey) : bool :=
  match String.compare a.1 b.1 with
  | Lt => true
  | Gt => false
  | Eq => String.leb a.2 b.2
  end.

Definition key_le (a b : ChangeKey) : Prop := key_leb a b = true.

Global Instance key_le_dec : RelDecision key_le.
Proof. intros a b. unfold key_le. apply _. Defined.

Global Instance key_le_total : Total key_le.
Proof.
  intros [a1 a2] [b1 b2]. unfold key_le, key_leb. simpl.
  rewrite (String.compare_antisym b1 a1).
  destruct (String.compare a1 b1) eqn:E; simpl; auto.
  apply String.leb_total.
Qed.

(** [sorted(keys)] *)
Definition sorted (l : list ChangeKey) : list ChangeKey := merge_sort key_le l.

(** [list(OrderedSet(l))]: the elements of [l] in the order of their first
    occurrence. *)
Fixpoint ordered_set (l : list ChangeKey) : list ChangeKey :=
  match l with
  | [] => []
  | x :: l' => x :: filter (λ y, y ≠ x) (ordered_set l')
  end.

Section graph.
Context {U : Type}.

(** Modelled from the spec: the node of a key, which is not under src/
    (graph.py).  The spec's data model has, for a key, the change unit and
    a parent-set and a child-set. *)
Record Node : Type := {
  change_unit : U;
  parents : gset ChangeKey;
  children : gset ChangeKey;
}.

(** Modelled from the spec: the graph (class [ChangeGraph] of graph.py, not
    under src/) is a mapping from keys to change units "plus for each key a
    parent-set and child-set".  [nodes] and [node_map] are the two views
    of it that loader.py and executor.py read. *)
Definition nodes (g : gmap ChangeKey Node) : gmap ChangeKey U :=
  change_unit <$> g.

(** Modelled from the spec: [node_map] of graph.py, the adjacency "for each
    key" of the mapping. *)
Definition node_map (g : gmap ChangeKey Node) : gmap ChangeKey Node := g.

(** [d[k]] on a dict *)
Definition getitem {V} (d : gmap ChangeKey V) (k : ChangeKey) : result V :=
  match d !! k with
  | Some v => Ok v
  | None => Raise KeyError
  end.

(** Modelled from the spec: the optional namespace filter of [leaf_nodes]
    and [root_nodes] of graph.py. *)
Definition in_app (app : option string) (k : ChangeKey) : bool :=
  match app with
  | Some a => bool_decide (k.1 = a)
  | None => true
  end.

(** Modelled from the spec: [leaf_nodes(namespace=None)] of graph.py, "all
    keys with empty child-set, optionally filtered by namespace; result
    order is deterministic (lexicographic by key)". *)
Definition leaf_nodes (g : gmap ChangeKey Node) (app : option string)
    : list ChangeKey :=
  sorted (filter (λ k, in_app app k = true)
            (elements (dom (filter (λ kn, children kn.2 = ∅) g)))).

(** Modelled from the spec: [root_nodes(namespace=None)] of graph.py, the
    same with the parent-set. *)
Definition root_nodes (g : gmap ChangeKey Node) (app : option string)
    : list ChangeKey :=
  sorted (filter (λ k, in_app app k = true)
            (elements (dom (filter (λ kn, parents kn.2 = ∅) g)))).

(** Modelled from the spec: the traversal behind [forwards_plan] and
    [backwards_plan] of graph.py, a "depth-first traversal ... with explicit
    cycle tracking; visiting a node already on the current path fails with
    CircularDependencyError", neighbours visited "in ascending key order",
    a key absent from the graph failing with NodeNotFoundError.  The plan
    of a key lists the plans of its neighbours before the key itself, each
    key once.  [fuel] bounds the depth; [plan_fuel] below is never used
    up (lemma [dfs_fuel_not_used_up]). *)
Fixpoint dfs (next : Node → gset ChangeKey) (g : gmap ChangeKey Node)
    (fuel : nat) (path : list ChangeKey) (k : ChangeKey)
    : result (list ChangeKey) :=
  match fuel with
  | O => Raise RuntimeError
  | S fuel' =>
      if bool_decide (k ∈ path) then Raise CircularDependencyError
      else match g !! k with
           | None => Raise NodeNotFoundError
           | Some n =>
               rbind (rmap (dfs next g fuel' (k :: path))
                           (sorted (elements (next n))))
                     (λ plans, Ok (ordered_set (concat plans ++ [k])))
           end
  end.

(** Modelled from the spec: the traversal is started with a depth that a
    path of distinct nodes cannot exceed. *)
Definition plan_fuel (g : gmap ChangeKey Node) : nat := S (size g).

(** Modelled from the spec: [forwards_plan(target_key)] of graph.py, "the
    ordered sequence of ChangeKeys that must be applied (in dependency
    order, parents before children) to reach target_key, including
    target_key itself". *)
Definition forwards_plan (g : gmap ChangeKey Node) (target : ChangeKey)
    : result (list ChangeKey) :=
  dfs parents g (plan_fuel g) [] target.

(** Modelled from the spec: [backwards_plan(target_key)] of graph.py,
    "symmetric", the target and all its descendants "in child-first order
    suitable for reverse execution (descendants must be undone before the
    target itself, since they depend on it)". *)
Definition backwards_plan (g : gmap ChangeKey Node) (target : ChangeKey)
    : result (list ChangeKey) :=
  dfs children g (plan_fuel g) [] target.

(** Modelled from the spec: [c] is in the child-set of the node [p]. *)
Definition has_child (g : gmap ChangeKey Node) (p c : ChangeKey) : Prop :=
  match g !! p with
  | Some n => c ∈ children n
  | None => False
  end.

(** Modelled from the spec: [p] is in the parent-set of the node [c]. *)
Definition has_parent (g : gmap ChangeKey Node) (c p : ChangeKey) : Prop :=
  match g !! c with
  | Some n => p ∈ parents n
  | None => False
  end.

Global Instance has_child_dec g p c : Decision (has_child g p c).
Proof. unfold has_child. destruct (g !! p); apply _. Defined.

Global Instance has_parent_dec g c p : Decision (has_parent g c p).
Proof. unfold has_parent. destruct (g !! c); apply _. Defined.

(** Modelled from the spec: the invariant of the graph after
    [validate_consistency()], "every referenced parent/child key must
    exist", an edge being recorded at both of its ends
    ([add_dependency] "records child depends on parent"). *)
Definition consistent (g : gmap ChangeKey Node) : Prop :=
  map_Forall (λ k n,
    set_Forall (λ p, has_child g p k) (parents n) ∧
    set_Forall (λ c, has_parent g c k) (children n)) g.

Global Instance consistent_dec g : Decision (consistent g).
Proof. unfold consistent. apply _. Defined.

(** Modelled from the spec: a dependency edge, from a parent [p] to its
    child [c]. *)
Definition edge (g : gmap ChangeKey Node) (p c : ChangeKey) : Prop :=
  has_child g p c.

(** Modelled from the spec: the invariant "the graph is acyclic": no key
    is reached from itself along edges. *)
Definition acyclic (g : gmap ChangeKey Node) : Prop :=
  ∀ k, ¬ tc (edge g) k k.

End graph.

Global Arguments Node : clear implicits.

End Graph.

(** ** loader.py *)

Module Loader.
Import Graph.

Section loader.
Context {U : Type}.

(** The inner loop of [check_consistent_history]. *)
Fixpoint check_parents (applied : gset ChangeKey) (ps : list ChangeKey)
    : result unit :=
  match ps with
  | [] => Ok tt
  | parent :: ps' =>
      if bool_decide (parent ∉ applied) then Raise InconsistentChangeHistory
      else check_parents applied ps'
  end.

(** The outer loop of [check_consistent_history], over the applied changes
    in the order in which the set yields them. *)
Fixpoint check_applied (g : gmap ChangeKey (Node U))
    (applied : gset ChangeKey) (todo : list ChangeKey) : result unit :=
  match todo with
  | [] => Ok tt
  | change :: todo' =>
      if bool_decide (change ∉ dom (nodes g)) then check_applied g applied todo'
      else
        rbind (getitem (node_map g) change) (λ n,
        rbind (check_parents applied (elements (parents n))) (λ _,
        check_applied g applied todo'))
  end.

(** [ChangeLoader.check_consistent_history(connection)] *)
Definition check_consistent_history (g : gmap ChangeKey (Node U))
    : M Recorder.Store unit :=
  (applied <- Recorder.applied_changes ;;
   lift (check_applied g applied (elements applied)))%py.

(** The loop of [detect_conflicts]: [seen_apps] and [conflicting_apps]. *)
Definition see_leaf (st : gmap string (gset string) * gset string)
    (leaf : ChangeKey) : gmap string (gset string) * gset string :=
  let '(seen_apps, conflicting_apps) := st in
  let '(app_label, change_name) := leaf in
  let conflicting_apps' :=
    if bool_decide (app_label ∈ dom seen_apps)
    then {[app_label]} ∪ conflicting_apps
    else conflicting_apps in
  (<[app_label := {[change_name]} ∪ default ∅ (seen_apps !! app_label)]>
     seen_apps,
   conflicting_apps').

(** The dict comprehension that [detect_conflicts] returns, filling the
    dict [d] in the order in which the set yields the labels. *)
Fixpoint conflicts_of (seen_apps : gmap string (gset string))
    (apps : list string) (d : gmap string (gset string))
    : result (gmap string (gset string)) :=
  match apps with
  | [] => Ok d
  | app_label :: apps' =>
      match seen_apps !! app_label with
      | None => Raise KeyError
      | Some names => conflicts_of seen_apps apps' (<[app_label := names]> d)
      end
  end.

(** [ChangeLoader.detect_conflicts()] *)
Definition detect_conflicts (g : gmap ChangeKey (Node U))
    : result (gmap string (gset string)) :=
  let '(seen_apps, conflicting_apps) :=
    foldl see_leaf (∅, ∅) (leaf_nodes g None) in
  conflicts_of seen_apps (elements conflicting_apps) ∅.

End loader.

End Loader.

(** ** change.py and executor.py *)

Module Executor.
Import Graph Operations.

(** The part of Django's [ProjectState] that the executor uses. *)
Class ProjectStateOps (PS : Type) : Type := {
  (** [ProjectState(real_apps=...)] *)
  new_project_state : list string → PS;
  (** [state.clone()] *)
  clone : PS → PS;
  (** ['apps' in state.__dict__] *)
  has_apps : PS → bool;
  (** evaluating [state.apps], which renders and caches the models *)
  render_apps : PS → PS;
}.

(** The calls of [progress_callback]. *)
Inductive Progress : Type :=
  | render_start
  | render_success
  | apply_start (c : ChangeKey) (fake : bool)
  | apply_success (c : ChangeKey) (fake : bool)
  | unapply_start (c : ChangeKey) (fake : bool)
  | unapply_success (c : ChangeKey) (fake : bool).

Section executor.
Context {DB PS : Type} `{!Backend DB} `{!ProjectStateOps PS}.

(** An instance of (a subclass of) [Change].  [atomic] and [unapply] are
    read by [unapply_change]; neither class [Change] nor the template of
    writer.py defines them, a change file can ([None]: not defined). *)
Record Change : Type := {
  name : string;
  app_label : string;
  description : string;
  operations : list (Operation DB PS);
  dependencies : list ChangeKey;
  run_before : list ChangeKey;
  initial : option bool;
  atomic : option bool;
  unapply : option (PS → M DB PS);
}.

(** [__eq__] and [__hash__] of [Change] identify a change with this pair. *)
Definition key_of (c : Change) : ChangeKey := (app_label c, name c).

(** [Change.mutate_state(project_state, preserve)] *)
Definition mutate_state (self : Change) (project_state : PS) (preserve : bool)
    : PS :=
  let new_state := if preserve then clone project_state else project_state in
  foldl (λ st op, state_forwards op (app_label self) st) new_state
        (operations self).

(** [Change.apply(project_state)]; the clone [old_state] made for each
    operation is passed to it and dropped. *)
Definition apply (self : Change) (project_state : PS) : M DB PS :=
  (for_each (operations self)
            (λ op, database_forwards op (app_label self)) ;;
   ret project_state)%py.

(** A plan: pairs (change instance, backwards?). *)
Definition Plan : Type := list (Change * bool).

(** A target: (app_label, name), the name being [None] to unapply the
    whole app. *)
Definition Target : Type := string * option string.

Definition target_of_key (k : ChangeKey) : Target := (k.1, Some k.2).

(** What the executor holds: the graph and the applied changes that its
    loader read when it was built, the labels of the apps without changes,
    and whether a progress callback was given. *)
Record ChangeExecutor : Type := {
  graph : gmap ChangeKey (Node Change);
  applied_changes : gset ChangeKey;
  unchanged_apps : list string;
  progress_callback : bool;
}.

(** The attributes of an instance of [ChangeExecutor]. *)
Definition ChangeExecutor_attrs : list string :=
  ["connection"; "loader"; "recorder"; "progress_callback"; "change_plan";
   "_create_project_state"; "change"; "_change_all_forwards";
   "_change_all_backwards"; "apply_change"; "unapply_change"].

(** The two inner loops of [change_plan]:
    [for change in ...: if change in applied: plan.append(...);
    applied.remove(change)] and its forwards counterpart. *)
Fixpoint plan_backwards (g : gmap ChangeKey (Node Change))
    (changes : list ChangeKey) (plan : Plan) (applied : gset ChangeKey)
    : result (Plan * gset ChangeKey) :=
  match changes with
  | [] => Ok (plan, applied)
  | c :: rest =>
      if bool_decide (c ∈ applied) then
        rbind (getitem (nodes g) c) (λ ch,
        plan_backwards g rest (plan ++ [(ch, true)]) (applied ∖ {[c]}))
      else plan_backwards g rest plan applied
  end.

Fixpoint plan_forwards (g : gmap ChangeKey (Node Change))
    (changes : list ChangeKey) (plan : Plan) (applied : gset ChangeKey)
    : result (Plan * gset ChangeKey) :=
  match changes with
  | [] => Ok (plan, applied)
  | c :: rest =>
      if bool_decide (c ∉ applied) then
        rbind (getitem (nodes g) c) (λ ch,
        plan_forwards g rest (plan ++ [(ch, false)]) ({[c]} ∪ applied))
      else plan_forwards g rest plan applied
  end.

(** [for node in starts: for change in backwards_plan(node): ...] *)
Fixpoint plan_backwards_from (g : gmap ChangeKey (Node Change))
    (starts : list ChangeKey) (plan : Plan) (applied : gset ChangeKey)
    : result (Plan * gset ChangeKey) :=
  match starts with
  | [] => Ok (plan, applied)
  | node :: rest =>
      rbind (backwards_plan g node) (λ changes,
      rbind (plan_backwards g changes plan applied) (λ st,
      plan_backwards_from g rest st.1 st.2))
  end.

(** [next_in_app] of [change_plan]: the children of the target in the
    same app, sorted. *)
Definition next_in_app (n : Node Change) (target_app : string)
    : list ChangeKey :=
  sorted (filter (λ c, c.1 = target_app) (elements (children n))).

(** One iteration of the loop over the targets in [change_plan]. *)
Definition plan_target (g : gmap ChangeKey (Node Change)) (target : Target)
    (plan : Plan) (applied : gset ChangeKey)
    : result (Plan * gset ChangeKey) :=
  match target.2 with
  | None =>
      plan_backwards_from g
        (filter (λ root, root.1 = target.1) (root_nodes g None)) plan applied
  | Some target_name =>
      let key := (target.1, target_name) in
      if bool_decide (key ∈ applied) then
        rbind (getitem (node_map g) key) (λ n,
        plan_backwards_from g (next_in_app n target.1) plan applied)
      else
        rbind (forwards_plan g key) (λ changes,
        plan_forwards g changes plan applied)
  end.

Fixpoint plan_targets (g : gmap ChangeKey (Node Change))
    (targets : list Target) (plan : Plan) (applied : gset ChangeKey)
    : result (Plan * gset ChangeKey) :=
  match targets with
  | [] => Ok (plan, applied)
  | target :: rest =>
      rbind (plan_target g target plan applied) (λ st,
      plan_targets g rest st.1 st.2)
  end.

(** [ChangeExecutor.change_plan(targets, clean_start)] *)
Definition change_plan (self : ChangeExecutor) (targets : list Target)
    (clean_start : bool) : result Plan :=
  let applied := if clean_start then ∅ else applied_changes self in
  rbind (plan_targets (graph self) targets [] applied) (λ st, Ok st.1).

(** [change_plan(self.loader.graph.leaf_nodes(), clean_start=True)] *)
Definition full_plan_of (self : ChangeExecutor) : result Plan :=
  change_plan self (target_of_key <$> leaf_nodes (graph self) None) true.

(** The set [{graph.nodes[key] for key in loader.applied_changes
    if key in graph.nodes}], its members named by their keys. *)
Definition applied_in_graph (self : ChangeExecutor) : gset ChangeKey :=
  list_to_set
    (omap (λ key, key_of <$> nodes (graph self) !! key)
          (elements (applied_changes self))).

(** [ChangeExecutor._create_project_state(with_applied_changes)] *)
Definition _create_project_state (self : ChangeExecutor)
    (with_applied_changes : bool) : result PS :=
  let state := new_project_state (unchanged_apps self) in
  if with_applied_changes then
    rbind (full_plan_of self) (λ full_plan,
    Ok (foldl (λ st (e : Change * bool),
                 if bool_decide (key_of e.1 ∈ applied_in_graph self)
                 then mutate_state e.1 st false else st)
              state full_plan))
  else Ok state.

(** What a run acts on: the recorder's tables, the rest of the database,
    and the calls that the progress callback has received. *)
Record World : Type := {
  store : Recorder.Store;
  db : DB;
  progress : list Progress;
}.

Definition on_store {A} (c : M Recorder.Store A) : M World A :=
  λ w, let r := c (store w) in
       (r.1, {| store := r.2; db := db w; progress := progress w |}).

Definition on_db {A} (c : M DB A) : M World A :=
  λ w, let r := c (db w) in
       (r.1, {| store := store w; db := r.2; progress := progress w |}).

(** [if self.progress_callback: self.progress_callback(...)] *)
Definition notify (self : ChangeExecutor) (ev : Progress) : M World unit :=
  if progress_callback self
  then modify (λ w, {| store := store w; db := db w;
                       progress := progress w ++ [ev] |})
  else ret tt.

(** [obj.attr] for an attribute that a change file may define. *)
Definition attr_of {A} (a : option A) : result A :=
  match a with
  | Some v => Ok v
  | None => Raise AttributeError
  end.

(** [ChangeExecutor.apply_change(state, change, fake)] *)
Definition apply_change (self : ChangeExecutor) (state : PS) (c : Change)
    (fake : bool) : M World PS :=
  (notify self (apply_start (key_of c) fake) ;;
   state' <- (if fake then ret state else on_db (apply c state)) ;;
   on_store (Recorder.record_applied (app_label c) (name c)) ;;
   notify self (apply_success (key_of c) fake) ;;
   ret state')%py.

(** [ChangeExecutor.unapply_change(state, change, fake)].  The schema
    editor is entered after [change.atomic] is read and left when the
    block ends, also by an exception. *)
Definition unapply_change (self : ChangeExecutor) (state : PS) (c : Change)
    (fake : bool) : M World PS :=
  (notify self (unapply_start (key_of c) fake) ;;
   state' <- (if fake then ret state
              else
                (_ <- lift (attr_of (atomic c)) ;;
                 unapply_method <- lift (attr_of (unapply c)) ;;
                 on_db (unapply_method state))) ;;
   on_store (Recorder.record_unapplied (app_label c) (name c)) ;;
   notify self (unapply_success (key_of c) fake) ;;
   ret state')%py.

(** The loop of [_change_all_forwards] over the full plan. *)
Fixpoint forwards_loop (self : ChangeExecutor) (full_plan : Plan)
    (fake : bool) (state : PS) (changes_to_run : gset ChangeKey)
    : M World PS :=
  match full_plan with
  | [] => ret state
  | (c, _) :: rest =>
      if bool_decide (changes_to_run = ∅) then ret state
      else if bool_decide (key_of c ∈ changes_to_run) then
        (state1 <- (if has_apps state then ret state
                    else
                      (notify self render_start ;;
                       notify self render_success ;;
                       ret (render_apps state))) ;;
         state2 <- apply_change self state1 c fake ;;
         forwards_loop self rest fake state2
                       (changes_to_run ∖ {[key_of c]}))%py
      else forwards_loop self rest fake state changes_to_run
  end.

(** [ChangeExecutor._change_all_forwards(state, plan, full_plan, fake)] *)
Definition _change_all_forwards (self : ChangeExecutor) (state : PS)
    (plan full_plan : Plan) (fake : bool) : M World PS :=
  forwards_loop self full_plan fake state
                (list_to_set ((λ m, key_of m.1) <$> plan)).

(** The first loop of [_change_all_backwards]: the states before the
    changes that are unapplied. *)
Fixpoint states_before (full_plan : Plan) (state : PS)
    (changes_to_run applied : gset ChangeKey) (states : gmap ChangeKey PS)
    : gmap ChangeKey PS :=
  match full_plan with
  | [] => states
  | (c, _) :: rest =>
      if bool_decide (changes_to_run = ∅) then states
      else if bool_decide (key_of c ∈ changes_to_run) then
        let state1 := if has_apps state then state else render_apps state in
        states_before rest (mutate_state c state1 true)
                      (changes_to_run ∖ {[key_of c]}) applied
                      (<[key_of c := state1]> states)
      else if bool_decide (key_of c ∈ applied) then
        states_before rest (mutate_state c state false)
                      changes_to_run applied states
      else states_before rest state changes_to_run applied states
  end.

(** The second loop of [_change_all_backwards]; it returns what is left of
    [applied_changes]. *)
Fixpoint unapply_loop (self : ChangeExecutor) (plan : Plan) (fake : bool)
    (states : gmap ChangeKey PS) (applied : gset ChangeKey)
    : M World (gset ChangeKey) :=
  match plan with
  | [] => ret applied
  | (c, _) :: rest =>
      (state <- lift (getitem states (key_of c)) ;;
       unapply_change self state c fake ;;
       (if bool_decide (key_of c ∈ applied)
        then unapply_loop self rest fake states (applied ∖ {[key_of c]})
        else raise KeyError))%py
  end.

(** The last loop of [_change_all_backwards]: from the last unapplied
    change on, the changes that are still applied mutate the state. *)
Fixpoint replay_from (last : ChangeKey) (full_plan : Plan)
    (applied : gset ChangeKey) (state : PS) : PS :=
  match full_plan with
  | [] => state
  | (c, b) :: rest =>
      if bool_decide (key_of c = last) then
        foldl (λ st (e : Change * bool),
                 if bool_decide (key_of e.1 ∈ applied)
                 then mutate_state e.1 st false else st)
              state ((c, b) :: rest)
      else replay_from last rest applied state
  end.

(** [ChangeExecutor._change_all_backwards(plan, full_plan, fake)] *)
Definition _change_all_backwards (self : ChangeExecutor)
    (plan full_plan : Plan) (fake : bool) : M World PS :=
  (state <- lift (_create_project_state self false) ;;
   notify self render_start ;;
   let states :=
     states_before full_plan state (list_to_set ((λ m, key_of m.1) <$> plan))
                   (applied_in_graph self) ∅ in
   notify self render_success ;;
   applied <- unapply_loop self plan fake states (applied_in_graph self) ;;
   match last plan with
   | None => raise IndexError
   | Some m =>
       state <- lift (getitem states (key_of m.1)) ;;
       ret (replay_from (key_of m.1) full_plan applied state)
   end)%py.

(** [all(not backwards for mig, backwards in plan)] and
    [all(backwards for mig, backwards in plan)] *)
Definition all_forwards (plan : Plan) : bool :=
  forallb (λ m : Change * bool, negb m.2) plan.

Definition all_backwards (plan : Plan) : bool :=
  forallb (λ m : Change * bool, m.2) plan.

(** [ChangeExecutor.change(targets, plan, state, fake)].  In the last
    branch the source looks up the attribute [_migrate_all_backwards] of
    the executor. *)
Definition change (self : ChangeExecutor) (targets : list Target)
    (plan : option Plan) (state : option PS) (fake : bool) : M World PS :=
  (plan <- lift (match plan with
                 | Some p => Ok p
                 | None => change_plan self targets false
                 end) ;;
   full_plan <- lift (full_plan_of self) ;;
   match plan with
   | [] =>
       match state with
       | Some st => ret st
       | None => lift (_create_project_state self true)
       end
   | _ :: _ =>
       if bool_decide (all_forwards plan = all_backwards plan) then
         raise InvalidChangePlan
       else if all_forwards plan then
         (state <- match state with
                   | Some st => ret st
                   | None => lift (_create_project_state self true)
                   end ;;
          _change_all_forwards self state plan full_plan fake)
       else
         (lift (getattr ChangeExecutor_attrs "_migrate_all_backwards") ;;
          _change_all_backwards self plan full_plan fake)
   end)%py.

End executor.

Global Arguments World : clear implicits.
Global Arguments Change : clear implicits.
Global Arguments Plan : clear implicits.
Global Arguments ChangeExecutor : clear implicits.

End Executor.

(** * Properties *)

(** ** The monads *)

Module PyFacts.

Lemma rbind_ok {A B} (r : result A) (k : A → result B) (b : B) :
  rbind r k = Ok b ↔ ∃ a, r = Ok a ∧ k a = Ok b.
Proof.
  destruct r as [a|e]; simpl; split.
  - intros Hk. by exists a.
  - by intros (a' & [= <-] & Hk).
  - discriminate.
  - by intros (a' & [=] & _).
Qed.

Lemma rmap_ok {A B} (f : A → result B) (l : list A) :
  (∀ x, x ∈ l → ∃ y, f x = Ok y) → ∃ ys, rmap f l = Ok ys.
Proof.
  induction l as [|x l IH]; intros Hall; simpl.
  - by eexists.
  - destruct (Hall x) as [y Hy]; [by left|].
    destruct IH as [ys Hys]; [intros z Hz; apply Hall; by right|].
    rewrite Hy, Hys. by eexists.
Qed.

Lemma rmap_ok_inv {A B} (f : A → result B) (l : list A) (ys : list B) :
  rmap f l = Ok ys → Forall2 (λ x y, f x = Ok y) l ys.
Proof.
  revert ys. induction l as [|x l IH]; intros ys; simpl.
  - intros [= <-]. constructor.
  - destruct (f x) as [y|] eqn:Hy; simpl; [|discriminate].
    destruct (rmap f l) as [ys'|] eqn:Hys; simpl; [|discriminate].
    intros [= <-]. constructor; auto.
Qed.

Lemma rmap_raise_inv {A B} (f : A → result B) (l : list A) (e : exn) :
  rmap f l = Raise e → ∃ x, x ∈ l ∧ f x = Raise e.
Proof.
  induction l as [|x l IH]; simpl; [discriminate|].
  destruct (f x) as [y|e'] eqn:Hx; simpl.
  - destruct (rmap f l) as [ys|e'] eqn:Hl; simpl; [discriminate|].
    intros [= ->]. destruct IH as (z & Hz & Hfz); [done|].
    exists z. split; [by right|done].
  - intros [= ->]. exists x. split; [by left|done].
Qed.

Lemma issubclass_AttributeError_DatabaseError :
  issubclass AttributeError DatabaseError = false.
Proof. reflexivity. Qed.

End PyFacts.

(** ** recorder.py *)

Module RecorderFacts.
Import Recorder PyFacts.

Lemma ensure_schema_present (s : Store) :
  db_table ∈ table_names s → ensure_schema s = (Ok tt, s).
Proof.
  intros Hin. unfold ensure_schema, bind, get. simpl.
  by rewrite bool_decide_eq_true_2.
Qed.

Lemma ensure_schema_absent (s : Store) :
  db_table ∉ table_names s → ensure_schema s = (Raise AttributeError, s).
Proof.
  intros Hin. unfold ensure_schema, bind, get. simpl.
  rewrite bool_decide_eq_false_2 by done. reflexivity.
Qed.

Lemma ensure_schema_cases (s : Store) :
  ensure_schema s = (Ok tt, s) ∨ ensure_schema s = (Raise AttributeError, s).
Proof.
  destruct (decide (db_table ∈ table_names s)).
  - left. by apply ensure_schema_present.
  - right. by apply ensure_schema_absent.
Qed.

Lemma record_applied_present (s : Store) app name :
  db_table ∈ table_names s →
  record_applied app name s =
    (Ok tt, {| table_names := table_names s;
               rows := rows s ++ [(app, name)];
               ddl_refused := ddl_refused s |}).
Proof.
  intros Hin. unfold record_applied, bind.
  by rewrite ensure_schema_present.
Qed.

Lemma record_unapplied_present (s : Store) app name :
  db_table ∈ table_names s →
  record_unapplied app name s =
    (Ok tt, {| table_names := table_names s;
               rows := filter (λ r, r ≠ (app, name)) (rows s);
               ddl_refused := ddl_refused s |}).
Proof.
  intros Hin. unfold record_unapplied, bind.
  by rewrite ensure_schema_present.
Qed.

Lemma record_applied_raise (s s' : Store) app name e :
  record_applied app name s = (Raise e, s') → s' = s.
Proof.
  unfold record_applied, bind, modify.
  destruct (ensure_schema_cases s) as [-> | ->]; congruence.
Qed.

Lemma record_unapplied_raise (s s' : Store) app name e :
  record_unapplied app name s = (Raise e, s') → s' = s.
Proof.
  unfold record_unapplied, bind, modify.
  destruct (ensure_schema_cases s) as [-> | ->]; congruence.
Qed.

Lemma record_applied_ok (s s' : Store) app name :
  record_applied app name s = (Ok tt, s') →
  db_table ∈ table_names s ∧ rows s' = rows s ++ [(app, name)] ∧
  table_names s' = table_names s.
Proof.
  destruct (decide (db_table ∈ table_names s)) as [Hin|Hin].
  - rewrite record_applied_present by done. intros [= <-]. done.
  - unfold record_applied, bind. by rewrite ensure_schema_absent.
Qed.

Lemma record_unapplied_ok (s s' : Store) app name :
  record_unapplied app name s = (Ok tt, s') →
  db_table ∈ table_names s ∧
  rows s' = filter (λ r, r ≠ (app, name)) (rows s) ∧
  table_names s' = table_names s.
Proof.
  destruct (decide (db_table ∈ table_names s)) as [Hin|Hin].
  - rewrite record_unapplied_present by done. intros [= <-]. done.
  - unfold record_unapplied, bind. by rewrite ensure_schema_absent.
Qed.




End RecorderFacts.

(** ** operations.py *)

Module OperationsFacts.
Import Operations.

Section run_sql.
Context {DB PS : Type} `{!Backend DB}.

(** A call of [_run_sql] with one positional argument does not reach the
    body. *)
Lemma _run_sql_one_argument (self : RunSQL PS) (arg : pyval) (d : DB) :
  _run_sql self [arg] d = (Raise TypeError, d).
Proof. reflexivity. Qed.

(** With the two arguments that its signature asks for, [_run_sql] does
    run the statements: the failure below comes from the call, not from
    the body. *)
Lemma _run_sql_two_arguments (self : RunSQL PS) (editor : pyval)
    (stmts : list pyval) (d : DB) :
  _run_sql self [editor; PSeq stmts] d = for_each stmts run_statement d.
Proof. reflexivity. Qed.

Lemma RunSQL_backwards_irreversible (op : RunSQL PS) (app : string)
    (d : DB) :
  reverse_sql op = None →
  RunSQL_database_backwards op app d = (Raise NotImplementedError, d).
Proof. intros Hr. unfold RunSQL_database_backwards. by rewrite Hr. Qed.

(** C9: [database_forwards] of a [RunSQL] operation, and
    [database_backwards] of one that has a [reverse_sql], call [_run_sql]
    with a single argument and so raise [TypeError]; the database is the
    one before the call, whatever the backend's [execute] does, so no
    statement was executed.  (Without a [reverse_sql] the backwards call
    raises before it reaches [_run_sql]; no application of the operation
    returns.) *)
Theorem RunSQL_database_application_fails (op : RunSQL PS) (app : string)
    (d : DB) :
  RunSQL_database_forwards op app d = (Raise TypeError, d) ∧
  database_forwards (OpRunSQL op) app d = (Raise TypeError, d) ∧
  (∀ rsql, reverse_sql op = Some rsql →
     RunSQL_database_backwards op app d = (Raise TypeError, d) ∧
     database_backwards (OpRunSQL op) app d = (Raise TypeError, d)) ∧
  (∃ e, database_backwards (OpRunSQL op) app d = (Raise e, d)).
Proof.
  split; [reflexivity|]. split; [reflexivity|]. split.
  - intros rsql Hr. simpl. unfold RunSQL_database_backwards. rewrite Hr.
    split; reflexivity.
  - simpl. unfold RunSQL_database_backwards.
    destruct (reverse_sql op); by eexists.
Qed.

End run_sql.

(** A backend that logs the statements it is asked to execute. *)
Definition LogDB : Type := list (pyval * option pyval).

Global Instance log_backend : Backend LogDB := {|
  execute := λ stmt params, modify (λ log, log ++ [(stmt, params)]);
  prepare_sql_script := λ script, [script];
|}.

Definition create_index : RunSQL unit := {|
  sql := PStr "CREATE INDEX i ON t (c)";
  reverse_sql := Some (PStr "DROP INDEX i");
  state_operations := [];
|}.

Lemma RunSQL_database_application_fails_witness :
  reverse_sql create_index = Some (PStr "DROP INDEX i") ∧
  RunSQL_database_forwards create_index "blog" [] = (Raise TypeError, []) ∧
  RunSQL_database_backwards create_index "blog" [] = (Raise TypeError, []).
Proof.
  split; [reflexivity|].
  destruct (RunSQL_database_application_fails create_index "blog" [])
    as (Hf & _ & Hb & _).
  split; [exact Hf|].
  exact (proj1 (Hb (PStr "DROP INDEX i") eq_refl)).
Defined.

(** The body of [_run_sql] does execute on this backend. *)
Example _run_sql_executes :
  _run_sql create_index [PStr "editor"; sql create_index] []
  = (Ok tt, [(PStr "CREATE INDEX i ON t (c)", None)]).
Proof. reflexivity. Qed.

End OperationsFacts.

(** ** The dependency graph *)

Module GraphFacts.
Import Graph PyFacts.

Lemma sorted_perm (l : list ChangeKey) : sorted l ≡ₚ l.
Proof. apply merge_sort_Permutation. Qed.

Lemma elem_of_sorted (x : ChangeKey) (l : list ChangeKey) :
  x ∈ sorted l ↔ x ∈ l.
Proof. by rewrite sorted_perm. Qed.

Lemma sorted_ascending (l : list ChangeKey) : Sorted key_le (sorted l).
Proof. apply (Sorted_merge_sort key_le). Qed.

Lemma NoDup_sorted (l : list ChangeKey) : NoDup l → NoDup (sorted l).
Proof. by rewrite sorted_perm. Qed.

Lemma elem_of_ordered_set (x : ChangeKey) (l : list ChangeKey) :
  x ∈ ordered_set l ↔ x ∈ l.
Proof.
  induction l as [|y l IH]; simpl; [done|].
  rewrite !elem_of_cons, list_elem_of_filter, IH.
  destruct (decide (x = y)); naive_solver.
Qed.

Lemma NoDup_ordered_set (l : list ChangeKey) : NoDup (ordered_set l).
Proof.
  induction l as [|y l IH]; simpl; [constructor|].
  constructor.
  - rewrite list_elem_of_filter. naive_solver.
  - by apply NoDup_filter.
Qed.

Lemma elem_of_concat {A} (x : A) (ls : list (list A)) :
  x ∈ concat ls ↔ ∃ l, x ∈ l ∧ l ∈ ls.
Proof.
  induction ls as [|l ls IH]; simpl.
  - split; [by intros ?%elem_of_nil|]. by intros (l & _ & ?%elem_of_nil).
  - rewrite elem_of_app, IH. split.
    + intros [Hx|(l' & Hx & Hl')].
      * exists l. split; [done|by left].
      * exists l'. split; [done|by right].
    + intros (l' & Hx & [->|Hl']%elem_of_cons); [by left|].
      right. by exists l'.
Qed.

Lemma Forall2_elem_of_l {A B} (P : A → B → Prop) (l : list A) (k : list B) x :
  Forall2 P l k → x ∈ l → ∃ y, y ∈ k ∧ P x y.
Proof.
  induction 1 as [|a b l k Hab _ IH]; [by intros ?%elem_of_nil|].
  intros [->|Hx]%elem_of_cons.
  - exists b. split; [by left|done].
  - destruct (IH Hx) as (y & ? & ?). exists y. split; [by right|done].
Qed.

Lemma Forall2_elem_of_r {A B} (P : A → B → Prop) (l : list A) (k : list B) y :
  Forall2 P l k → y ∈ k → ∃ x, x ∈ l ∧ P x y.
Proof.
  induction 1 as [|a b l k Hab _ IH]; [by intros ?%elem_of_nil|].
  intros [->|Hy]%elem_of_cons.
  - exists a. split; [by left|done].
  - destruct (IH Hy) as (x & ? & ?). exists x. split; [by right|done].
Qed.

Section traversal.
Context {U : Type}.
Variable next : Node U → gset ChangeKey.
Variable g : gmap ChangeKey (Node U).

(** One step of the traversal: from a key to one of its neighbours. *)
Definition step (k c : ChangeKey) : Prop :=
  ∃ n, g !! k = Some n ∧ c ∈ next n.

Lemma dfs_unfold fuel path k n :
  k ∉ path → g !! k = Some n →
  dfs next g (S fuel) path k =
    rbind (rmap (dfs next g fuel (k :: path)) (sorted (elements (next n))))
          (λ plans, Ok (ordered_set (concat plans ++ [k]))).
Proof.
  intros Hk Hn. simpl. rewrite bool_decide_eq_false_2 by done.
  by rewrite Hn.
Qed.

Lemma dfs_ok_inv fuel path k l :
  dfs next g fuel path k = Ok l →
  ∃ fuel' n plans,
    fuel = S fuel' ∧ (k ∉ path) ∧ g !! k = Some n ∧
    rmap (dfs next g fuel' (k :: path)) (sorted (elements (next n)))
      = Ok plans ∧
    l = ordered_set (concat plans ++ [k]).
Proof.
  destruct fuel as [|fuel']; simpl; [discriminate|].
  case_bool_decide as Hk; [discriminate|].
  destruct (g !! k) as [n|] eqn:Hn; [|discriminate].
  intros (plans & Hplans & [= <-])%rbind_ok.
  by exists fuel', n, plans.
Qed.

(** A plan holds its target and only keys that the target reaches. *)
Lemma dfs_sound fuel path k l :
  dfs next g fuel path k = Ok l →
  k ∈ l ∧ ∀ x, x ∈ l → rtc step k x.
Proof.
  revert path k l. induction fuel as [|fuel IH]; intros path k l Hdfs.
  { discriminate. }
  apply dfs_ok_inv in Hdfs
    as (fuel' & n & plans & [= <-] & Hk & Hn & Hplans & ->).
  split.
  { apply elem_of_ordered_set, elem_of_app. right. by left. }
  intros x [Hx|Hx%list_elem_of_singleton]%elem_of_ordered_set%elem_of_app;
    [|subst; apply rtc_refl].
  apply elem_of_concat in Hx as (p & Hxp & Hp).
  apply rmap_ok_inv in Hplans.
  destruct (Forall2_elem_of_r _ _ _ _ Hplans Hp) as (c & Hc & Hcp).
  apply elem_of_sorted, elem_of_elements in Hc.
  apply rtc_l with c; [by exists n|].
  by apply (IH _ _ _ Hcp).
Qed.

(** A plan holds every key that its target reaches. *)
Lemma dfs_complete fuel path k l x :
  dfs next g fuel path k = Ok l → rtc step k x → x ∈ l.
Proof.
  revert path k l. induction fuel as [|fuel IH]; intros path k l Hdfs Hreach.
  { discriminate. }
  apply dfs_ok_inv in Hdfs
    as (fuel' & n & plans & [= <-] & Hk & Hn & Hplans & ->).
  apply elem_of_ordered_set, elem_of_app.
  apply rtc_inv in Hreach as [->|(c & (n' & Hn' & Hc) & Hcx)]; [right; by left|].
  left. assert (n' = n) as -> by congruence.
  apply rmap_ok_inv in Hplans.
  destruct (Forall2_elem_of_l _ _ _ c Hplans) as (p & Hp & Hcp).
  { by apply elem_of_sorted, elem_of_elements. }
  apply elem_of_concat. exists p. split; [|done].
  by apply (IH _ _ _ Hcp).
Qed.

Lemma NoDup_dfs fuel path k l : dfs next g fuel path k = Ok l → NoDup l.
Proof.
  intros (? & ? & ? & _ & _ & _ & _ & ->)%dfs_ok_inv.
  apply NoDup_ordered_set.
Qed.

(** The fuel is never used up: the keys on the path are distinct nodes
    of the graph, and the fuel exceeds the number of nodes off the path. *)
Lemma dfs_fuel_not_used_up fuel path k :
  size (dom g ∖ list_to_set path) < fuel →
  dfs next g fuel path k ≠ Raise RuntimeError.
Proof.
  revert path k. induction fuel as [|fuel IH]; intros path k Hsize; [lia|].
  simpl. case_bool_decide as Hk; [done|].
  destruct (g !! k) as [n|] eqn:Hn; [|done].
  destruct (rmap (dfs next g fuel (k :: path)) (sorted (elements (next n))))
    as [plans|e] eqn:Hplans; simpl; [done|].
  intros [= ->]. apply rmap_raise_inv in Hplans as (c & _ & Hc).
  revert Hc. apply IH.
  assert (dom g ∖ list_to_set (k :: path) ⊂ dom g ∖ list_to_set path) as Hsub.
  { assert (k ∈ dom g) by (apply elem_of_dom; eauto). set_solver. }
  apply subset_size in Hsub. lia.
Qed.

(** The traversal returns a plan when every neighbour is a node and no key
    reaches itself. *)
Lemma dfs_fuel_enough fuel path k :
  (∀ a b, step a b → is_Some (g !! b)) →
  (∀ a, ¬ tc step a a) →
  is_Some (g !! k) →
  (∀ x, x ∈ path → tc step x k) →
  size (dom g ∖ list_to_set path) < fuel →
  ∃ l, dfs next g fuel path k = Ok l.
Proof.
  intros Hclosed Hacyc. revert path k.
  induction fuel as [|fuel IH]; intros path k [n Hn] Hpath Hsize; [lia|].
  assert (k ∉ path) as Hk by (intros Hin; by apply (Hacyc k), Hpath).
  rewrite (dfs_unfold _ _ _ n) by done.
  destruct (rmap_ok (dfs next g fuel (k :: path))
              (sorted (elements (next n)))) as [plans ->]; [|by eexists].
  intros c Hc%elem_of_sorted%elem_of_elements.
  assert (step k c) as Hstep by (by exists n).
  apply IH.
  - by apply (Hclosed k).
  - intros x [->|Hx]%elem_of_cons; [by apply tc_once|].
    eapply tc_r; [by apply Hpath|done].
  - assert (dom g ∖ list_to_set (k :: path) ⊂ dom g ∖ list_to_set path)
      as Hsub.
    { assert (k ∈ dom g) by (apply elem_of_dom; eauto). set_solver. }
    apply subset_size in Hsub. lia.
Qed.

End traversal.

Section plans.
Context {U : Type}.
Implicit Types g : gmap ChangeKey (Node U).

Lemma step_children g k c : step children g k c ↔ edge g k c.
Proof.
  unfold step, edge, has_child. destruct (g !! k) as [n|]; naive_solver.
Qed.

Lemma step_parents_edge g k p :
  consistent g → step parents g k p → edge g p k.
Proof.
  intros Hg (n & Hn & Hp). by apply (Hg k n Hn).
Qed.

Lemma edge_is_Some g p c : consistent g → edge g p c → is_Some (g !! c).
Proof.
  intros Hg Hpc. unfold edge, has_child in Hpc.
  destruct (g !! p) as [n|] eqn:Hn; [|done].
  destruct (Hg p n Hn) as [_ Hch]. specialize (Hch c Hpc).
  unfold has_parent in Hch. destruct (g !! c); [eauto|done].
Qed.

Lemma edge_is_Some_l g p c : edge g p c → is_Some (g !! p).
Proof. unfold edge, has_child. destruct (g !! p); [eauto|done]. Qed.

Lemma rtc_edge_is_Some g k x :
  consistent g → is_Some (g !! k) → rtc (edge g) k x → is_Some (g !! x).
Proof.
  intros Hg Hk Hreach. induction Hreach as [|a b c Hab _ IH]; [done|].
  apply IH. by apply (edge_is_Some g a).
Qed.

Lemma tc_step_parents g a b :
  consistent g → tc (step parents g) a b → tc (edge g) b a.
Proof.
  intros Hg. induction 1 as [a b Hab|a b c Hab _ IH].
  - apply tc_once. by apply step_parents_edge.
  - eapply tc_r; [exact IH|]. by apply step_parents_edge.
Qed.

Lemma rtc_step_children g a b : rtc (step children g) a b ↔ rtc (edge g) a b.
Proof.
  split; induction 1 as [|x y z Hxy _ IH]; try apply rtc_refl;
    (eapply rtc_l; [|exact IH]); by apply step_children.
Qed.

Lemma tc_step_children g a b : tc (step children g) a b → tc (edge g) a b.
Proof.
  induction 1 as [x y Hxy|x y z Hxy _ IH].
  - apply tc_once. by apply step_children.
  - eapply tc_l; [|exact IH]. by apply step_children.
Qed.

Lemma plan_fuel_enough g : size (dom g ∖ list_to_set []) < plan_fuel g.
Proof.
  unfold plan_fuel. rewrite <- size_dom.
  apply Nat.lt_succ_r, subseteq_size. set_solver.
Qed.

(** Neither plan fails for lack of fuel, on any graph. *)
Lemma plans_fuel_not_used_up g k :
  forwards_plan g k ≠ Raise RuntimeError ∧
  backwards_plan g k ≠ Raise RuntimeError.
Proof. split; apply dfs_fuel_not_used_up, plan_fuel_enough. Qed.

(** On a consistent acyclic graph both plans of a node exist. *)
Lemma backwards_plan_total g k :
  consistent g → acyclic g → is_Some (g !! k) →
  ∃ l, backwards_plan g k = Ok l.
Proof.
  intros Hg Hacyc Hk. apply dfs_fuel_enough; try done.
  - intros a b Hab%step_children. by apply (edge_is_Some g a).
  - intros a Ha%tc_step_children. by apply (Hacyc a).
  - by intros x ?%elem_of_nil.
  - apply plan_fuel_enough.
Qed.

Lemma forwards_plan_total g k :
  consistent g → acyclic g → is_Some (g !! k) →
  ∃ l, forwards_plan g k = Ok l.
Proof.
  intros Hg Hacyc Hk. apply dfs_fuel_enough; try done.
  - intros a b Hab%step_parents_edge; [|done]. by apply (edge_is_Some_l g b a).
  - intros a Ha%tc_step_parents; [|done]. by apply (Hacyc a).
  - by intros x ?%elem_of_nil.
  - apply plan_fuel_enough.
Qed.

(** The backwards plan of a node is the node and its descendants. *)
Lemma elem_of_backwards_plan g k l x :
  backwards_plan g k = Ok l → x ∈ l ↔ rtc (edge g) k x.
Proof.
  intros Hl. rewrite <- rtc_step_children. split.
  - by apply (dfs_sound _ _ _ _ _ _ Hl).
  - by apply (dfs_complete _ _ _ _ _ _ _ Hl).
Qed.

Lemma backwards_plan_is_Some g k l x :
  consistent g → backwards_plan g k = Ok l → x ∈ l → is_Some (g !! x).
Proof.
  intros Hg Hl Hx. pose proof Hl as Hinv.
  apply dfs_ok_inv in Hinv as (_ & n & _ & _ & _ & Hn & _ & _).
  apply (rtc_edge_is_Some g k); [done|eauto|].
  by apply (elem_of_backwards_plan g k l).
Qed.

Lemma forwards_plan_is_Some g k l x :
  consistent g → forwards_plan g k = Ok l → x ∈ l → is_Some (g !! x).
Proof.
  intros Hg Hl Hx. pose proof Hl as Hinv.
  apply dfs_ok_inv in Hinv as (_ & n & _ & _ & _ & Hn & _ & _).
  apply (dfs_sound _ _ _ _ _ _ Hl) in Hx.
  assert (is_Some (g !! k)) as Hk by eauto. clear Hl Hn.
  induction Hx as [|a b c Hab _ IH]; [done|].
  apply IH. apply step_parents_edge in Hab; [|done].
  by apply (edge_is_Some_l g b a).
Qed.

Lemma elem_of_leaf_nodes g app k :
  k ∈ leaf_nodes g app ↔
  ∃ n, g !! k = Some n ∧ children n = ∅ ∧ in_app app k = true.
Proof.
  unfold leaf_nodes.
  rewrite elem_of_sorted, list_elem_of_filter, elem_of_elements, elem_of_dom.
  split.
  - intros (Happ & n & (Hn & Hleaf)%map_lookup_filter_Some). by exists n.
  - intros (n & Hn & Hleaf & Happ). split; [done|].
    exists n. by apply map_lookup_filter_Some.
Qed.

Lemma NoDup_leaf_nodes g app : NoDup (leaf_nodes g app).
Proof. apply NoDup_sorted, NoDup_filter, NoDup_elements. Qed.

Lemma elem_of_root_nodes g app k :
  k ∈ root_nodes g app ↔
  ∃ n, g !! k = Some n ∧ parents n = ∅ ∧ in_app app k = true.
Proof.
  unfold root_nodes.
  rewrite elem_of_sorted, list_elem_of_filter, elem_of_elements, elem_of_dom.
  split.
  - intros (Happ & n & (Hn & Hroot)%map_lookup_filter_Some). by exists n.
  - intros (n & Hn & Hroot & Happ). split; [done|].
    exists n. by apply map_lookup_filter_Some.
Qed.

(** A numbering of the keys that grows along every edge shows that the
    graph is acyclic; the premise can be decided on a given graph. *)
Definition ranked g (rank : ChangeKey → nat) : Prop :=
  map_Forall (λ k n, set_Forall (λ c, rank k < rank c) (children n)) g.

Global Instance ranked_dec g rank : Decision (ranked g rank).
Proof. unfold ranked. apply _. Defined.

Lemma ranked_acyclic g rank : ranked g rank → acyclic g.
Proof.
  intros Hrank k Hk.
  assert (∀ a b, tc (edge g) a b → rank a < rank b) as Hlt.
  { assert (∀ a b, edge g a b → rank a < rank b) as Hedge.
    { intros a b Hab. unfold edge, has_child in Hab.
      destruct (g !! a) as [n|] eqn:Hn; [|done]. by apply (Hrank a n Hn). }
    induction 1 as [a b Hab|a b c Hab _ IH]; [by apply Hedge|].
    apply Hedge in Hab. lia. }
  specialize (Hlt k k Hk). lia.
Qed.

End plans.

End GraphFacts.

(** ** loader.py *)

Module LoaderFacts.
Import Graph Loader PyFacts GraphFacts.

Section history.
Context {U : Type}.
Implicit Types g : gmap ChangeKey (Node U).

Lemma check_parents_ok applied ps :
  (∀ p, p ∈ ps → p ∈ applied) → check_parents applied ps = Ok tt.
Proof.
  induction ps as [|p ps IH]; intros Hall; simpl; [done|].
  rewrite bool_decide_eq_false_2.
  - apply IH. intros q Hq. apply Hall. by right.
  - intros Hp. apply Hp, Hall. by left.
Qed.

Lemma check_parents_raise applied ps p :
  p ∈ ps → p ∉ applied →
  check_parents applied ps = Raise InconsistentChangeHistory.
Proof.
  induction ps as [|q ps IH]; [by intros ?%elem_of_nil|].
  intros Hp Hnot. simpl. case_bool_decide as Hq; [done|].
  apply IH; [|done]. by apply elem_of_cons in Hp as [->|Hp].
Qed.

(** A pair that makes the history inconsistent: an applied change that is
    a node of the graph, and a parent of it that is not applied. *)
Definition unapplied_parent g (applied : gset ChangeKey)
    (c p : ChangeKey) : Prop :=
  c ∈ applied ∧ ∃ n, g !! c = Some n ∧ p ∈ parents n ∧ p ∉ applied.

Lemma check_applied_ok g applied todo :
  (∀ c n p, c ∈ todo → g !! c = Some n → p ∈ parents n → p ∈ applied) →
  check_applied g applied todo = Ok tt.
Proof.
  induction todo as [|c todo IH]; intros Hall; simpl; [done|].
  assert (check_applied g applied todo = Ok tt) as Hrest.
  { apply IH. intros c' n p Hc'. apply Hall. by right. }
  case_bool_decide as Hc; [done|].
  unfold node_map, getitem. destruct (g !! c) as [n|] eqn:Hn; simpl.
  - rewrite check_parents_ok; [done|].
    intros p Hp%elem_of_elements. apply (Hall c n p); [by left|done..].
  - unfold nodes in Hc. rewrite dom_fmap_L in Hc.
    by apply not_elem_of_dom in Hn.
Qed.

Lemma check_applied_raise g applied todo c n p :
  c ∈ todo → g !! c = Some n → p ∈ parents n → p ∉ applied →
  check_applied g applied todo = Raise InconsistentChangeHistory.
Proof.
  intros Hc Hn Hp Hnot.
  induction todo as [|c' todo IH]; [by apply elem_of_nil in Hc|].
  simpl. case_bool_decide as Hc'.
  - apply IH. apply elem_of_cons in Hc as [->|Hc]; [|done].
    destruct Hc'. unfold nodes. rewrite dom_fmap_L. apply elem_of_dom. eauto.
  - unfold nodes in Hc'. rewrite dom_fmap_L in Hc'. unfold node_map, getitem. destruct (g !! c') as [n'|] eqn:Hn'; simpl.
    + destruct (decide (∀ q, q ∈ parents n' → q ∈ applied)) as [Hall|Hex].
      * rewrite check_parents_ok by (intros q ?%elem_of_elements; auto).
        simpl. apply IH. apply elem_of_cons in Hc as [->|Hc]; [|done].
        assert (n' = n) as -> by congruence. by destruct Hnot; apply Hall.
      * apply not_set_Forall_Exists in Hex as (q & Hq & Hqn); [|apply _].
        by rewrite (check_parents_raise applied _ q)
          by (by try apply elem_of_elements).
    + by apply not_elem_of_dom in Hn'.
Qed.



End history.

Section conflicts.
Context {U : Type}.
Implicit Types g : gmap ChangeKey (Node U).

(** A leaf: a node whose child-set is empty. *)
Definition is_leaf g (k : ChangeKey) : Prop :=
  ∃ n, g !! k = Some n ∧ children n = ∅.

Lemma elem_of_leaf_nodes_None g k : k ∈ leaf_nodes g None ↔ is_leaf g k.
Proof.
  rewrite elem_of_leaf_nodes. unfold is_leaf. simpl. naive_solver.
Qed.

(** The leaves of an app among [l], and their names. *)
Definition in_label (app : string) (l : list ChangeKey) : list ChangeKey :=
  filter (λ k, k.1 = app) l.

Definition names_in (app : string) (l : list ChangeKey) : gset string :=
  list_to_set (snd <$> in_label app l).

Lemma in_label_snoc app l a nm :
  in_label app (l ++ [(a, nm)]) =
  in_label app l ++ (if decide (a = app) then [(a, nm)] else []).
Proof.
  unfold in_label. rewrite filter_app. f_equal.
Qed.

Lemma names_in_snoc app l a nm :
  names_in app (l ++ [(a, nm)]) =
  names_in app l ∪ (if decide (a = app) then {[nm]} else ∅).
Proof.
  unfold names_in. rewrite in_label_snoc, fmap_app, list_to_set_app_L.
  f_equal. destruct (decide (a = app)); simpl; set_solver.
Qed.

Lemma elem_of_names_in app l nm : nm ∈ names_in app l ↔ (app, nm) ∈ l.
Proof.
  unfold names_in, in_label.
  rewrite elem_of_list_to_set, list_elem_of_fmap. split.
  - intros ([a nm'] & -> & [Ha Hin]%list_elem_of_filter). simpl in *. by subst.
  - intros Hin. exists (app, nm). split; [done|].
    by apply list_elem_of_filter.
Qed.

(** What the loop of [detect_conflicts] has computed after the leaves
    [l]. *)
Lemma foldl_see_leaf (l : list ChangeKey) :
  ∀ app,
    (foldl see_leaf (∅, ∅) l).1 !! app
      = (if decide (in_label app l = []) then None
         else Some (names_in app l)) ∧
    (app ∈ (foldl see_leaf (∅, ∅) l).2 ↔ 2 ≤ length (in_label app l)).
Proof.
  induction l as [|[a nm] l IH] using rev_ind; intros app.
  { simpl. split; [done|]. rewrite elem_of_empty. lia. }
  rewrite foldl_app. simpl. destruct (IH app) as [IHseen IHconf].
  destruct (IH a) as [IHseen_a _].
  destruct (foldl see_leaf (∅, ∅) l) as [seen conf]. simpl in *.
  rewrite in_label_snoc, names_in_snoc.
  destruct (decide (a = app)) as [->|Hne].
  - rewrite lookup_insert_eq. split.
    + rewrite decide_False by (by destruct (in_label app l)).
      f_equal. rewrite IHseen.
      destruct (decide (in_label app l = [])) as [Hnil|]; simpl; [|set_solver].
      unfold names_in. rewrite Hnil. set_solver.
    + rewrite length_app. simpl.
      case_bool_decide as Hdom.
      * apply elem_of_dom in Hdom as [names Hnames].
        rewrite Hnames in IHseen.
        destruct (in_label app l) as [|k rest]; [done|]. simpl.
        split; [lia|]. intros _. set_solver.
      * apply not_elem_of_dom in Hdom. rewrite Hdom in IHseen.
        destruct (in_label app l) as [|k rest]; [|done]. simpl in *.
        rewrite IHconf. lia.
  - rewrite lookup_insert_ne by done. rewrite app_nil_r, union_empty_r_L.
    split; [done|].
    case_bool_decide; [|done]. rewrite elem_of_union, IHconf. set_solver.
Qed.

Lemma conflicts_of_spec (seen : gmap string (gset string))
    (apps : list string) (d : gmap string (gset string)) :
  (∀ a, a ∈ apps → is_Some (seen !! a)) →
  ∃ d', conflicts_of seen apps d = Ok d' ∧
        ∀ a, d' !! a = if decide (a ∈ apps) then seen !! a else d !! a.
Proof.
  revert d. induction apps as [|b apps IH]; intros d Hall; cbn [conflicts_of].
  - exists d. split; [done|]. intros a.
    by rewrite decide_False by apply not_elem_of_nil.
  - destruct (Hall b) as [names Hb]; [by left|]. rewrite Hb.
    destruct (IH (<[b := names]> d)) as (d' & -> & Hd').
    { intros a Ha. apply Hall. by right. }
    exists d'. split; [done|]. intros a. rewrite Hd'.
    destruct (decide (a ∈ apps)) as [Hin|Hin].
    + by rewrite decide_True by (by right).
    + destruct (decide (a = b)) as [->|Hne].
      * rewrite lookup_insert_eq. by rewrite decide_True by (by left).
      * rewrite lookup_insert_ne by done.
        rewrite decide_False; [done|]. by intros [?|?]%elem_of_cons.
Qed.

Lemma NoDup_length_two {A} (l : list A) :
  NoDup l → 2 ≤ length l ↔ ∃ x y, x ≠ y ∧ x ∈ l ∧ y ∈ l.
Proof.
  intros Hnd. split.
  - destruct l as [|x [|y l]]; simpl; [lia..|]. intros _.
    exists x, y. apply NoDup_cons in Hnd as [Hx _].
    split; [|split; [by left|by right; left]].
    intros ->. apply Hx. by left.
  - intros (x & y & Hne & Hx & Hy).
    destruct l as [|a [|b l]]; simpl; [|exfalso|lia].
    + by apply elem_of_nil in Hx.
    + apply list_elem_of_singleton in Hx, Hy. congruence.
Qed.

(** An app conflicts when it has two different leaves. *)
Definition conflicting g (app : string) : Prop :=
  ∃ k1 k2, k1 ≠ k2 ∧ k1.1 = app ∧ k2.1 = app ∧ is_leaf g k1 ∧ is_leaf g k2.

Lemma conflicting_length g app :
  2 ≤ length (in_label app (leaf_nodes g None)) ↔ conflicting g app.
Proof.
  unfold in_label. rewrite NoDup_length_two
    by apply NoDup_filter, NoDup_leaf_nodes.
  split.
  - intros (k1 & k2 & Hne & [H1 L1]%list_elem_of_filter
              & [H2 L2]%list_elem_of_filter).
    exists k1, k2. by rewrite <- !elem_of_leaf_nodes_None.
  - intros (k1 & k2 & Hne & H1 & H2 & L1 & L2).
    exists k1, k2. rewrite !list_elem_of_filter, !elem_of_leaf_nodes_None.
    done.
Qed.

Lemma detect_conflicts_lookup g :
  ∃ d, detect_conflicts g = Ok d ∧
       ∀ app, d !! app =
              if decide (2 ≤ length (in_label app (leaf_nodes g None)))
              then Some (names_in app (leaf_nodes g None)) else None.
Proof.
  unfold detect_conflicts.
  pose proof (foldl_see_leaf (leaf_nodes g None)) as Hfold.
  destruct (foldl see_leaf (∅, ∅) (leaf_nodes g None)) as [seen conf].
  simpl in Hfold.
  destruct (conflicts_of_spec seen (elements conf) ∅) as (d & Hd & Hlook).
  { intros a Ha%elem_of_elements. destruct (Hfold a) as [-> Hconf].
    apply Hconf in Ha.
    destruct (decide (in_label a (leaf_nodes g None) = [])) as [Hnil|];
      [|eauto].
    rewrite Hnil in Ha. simpl in Ha. lia. }
  exists d. split; [done|]. intros app. rewrite Hlook, lookup_empty.
  destruct (Hfold app) as [Hseen Hconf].
  destruct (decide (app ∈ elements conf)) as [Hin|Hin];
    rewrite elem_of_elements, Hconf in Hin.
  - rewrite decide_True by done. rewrite Hseen.
    destruct (decide (in_label app (leaf_nodes g None) = [])) as [Hnil|];
      [|done].
    rewrite Hnil in Hin. simpl in Hin. lia.
  - by rewrite decide_False by done.
Qed.


(** The graph of two units of one app and no edge, whatever their names
    and contents: the app conflicts, with both names. *)
Lemma detect_conflicts_two_units (app n1 n2 : string) (u1 u2 : U) :
  n1 ≠ n2 →
  detect_conflicts
    (<[(app, n1) := {| change_unit := u1; parents := ∅; children := ∅ |}]>
       {[(app, n2) := {| change_unit := u2; parents := ∅; children := ∅ |}]})
  = Ok {[ app := {[ n1; n2 ]} ]}.
Proof.
  intros Hne.
  set (g := <[(app, n1) := _]> _).
  assert (∀ k, is_leaf g k ↔ k = (app, n1) ∨ k = (app, n2)) as Hleaf.
  { intros k. unfold is_leaf, g. split.
    - intros (n & Hn & _). apply lookup_insert_Some in Hn as [[<- _]|[_ Hn]];
        [by left|]. apply lookup_singleton_Some in Hn as [<- _]. by right.
    - intros [->| ->].
      + eexists. by rewrite lookup_insert_eq.
      + eexists. rewrite lookup_insert_ne by congruence.
        by rewrite lookup_singleton_eq. }
  destruct (detect_conflicts_lookup g) as (d & -> & Hd).
  f_equal. apply map_eq. intros a. rewrite Hd.
  destruct (decide (2 ≤ length (in_label a (leaf_nodes g None))))
    as [Hlen|Hlen].
  - apply conflicting_length in Hlen as (k1 & k2 & Hk & H1 & H2 & L1 & L2).
    assert (a = app) as ->.
    { apply Hleaf in L1 as [->| ->]; by simpl in H1. }
    rewrite lookup_singleton_eq. f_equal. apply set_eq. intros nm.
    rewrite elem_of_names_in, elem_of_leaf_nodes_None, Hleaf.
    set_solver.
  - destruct (decide (a = app)) as [->|Ha];
      [|by rewrite lookup_singleton_ne by done].
    destruct Hlen. apply conflicting_length.
    exists (app, n1), (app, n2). rewrite !Hleaf.
    split; [congruence|]. naive_solver.
Qed.

End conflicts.

(** Two units of one app and no edge: both are leaves, the app conflicts. *)
Definition two_heads : gmap ChangeKey (Node unit) :=
  {[ ("x", "0001_a") := {| change_unit := tt; parents := ∅; children := ∅ |};
     ("x", "0001_b") := {| change_unit := tt; parents := ∅; children := ∅ |} ]}.

Example detect_conflicts_two_heads :
  detect_conflicts two_heads = Ok {[ "x" := {[ "0001_a"; "0001_b" ]} ]}.
Proof. by vm_compute. Qed.

End LoaderFacts.

(** ** executor.py: planning *)

Module PlanFacts.
Import Graph Operations Executor PyFacts GraphFacts.

Section plan.
Context {DB PS : Type}.
Implicit Types g : gmap ChangeKey (Node (Change DB PS)).
Implicit Types self : ChangeExecutor DB PS.
Implicit Types plan : Plan DB PS.
Implicit Types applied : gset ChangeKey.

Lemma getitem_nodes g k n :
  g !! k = Some n → getitem (nodes g) k = Ok (change_unit n).
Proof. intros Hn. unfold getitem, nodes. by rewrite lookup_fmap, Hn. Qed.

Lemma plan_backwards_total g changes plan applied :
  (∀ c, c ∈ changes → is_Some (g !! c)) →
  ∃ st, plan_backwards g changes plan applied = Ok st.
Proof.
  revert plan applied.
  induction changes as [|c rest IH]; intros plan applied Hall; simpl.
  { by eexists. }
  assert (∀ c', c' ∈ rest → is_Some (g !! c')) as Hrest.
  { intros c' Hc'. apply Hall. by right. }
  case_bool_decide; [|by apply IH].
  destruct (Hall c) as [n Hn]; [by left|].
  rewrite (getitem_nodes g c n Hn). simpl. by apply IH.
Qed.

Lemma plan_forwards_total g changes plan applied :
  (∀ c, c ∈ changes → is_Some (g !! c)) →
  ∃ st, plan_forwards g changes plan applied = Ok st.
Proof.
  revert plan applied.
  induction changes as [|c rest IH]; intros plan applied Hall; simpl.
  { by eexists. }
  assert (∀ c', c' ∈ rest → is_Some (g !! c')) as Hrest.
  { intros c' Hc'. apply Hall. by right. }
  case_bool_decide; [|by apply IH].
  destruct (Hall c) as [n Hn]; [by left|].
  rewrite (getitem_nodes g c n Hn). simpl. by apply IH.
Qed.

Lemma plan_backwards_from_total g starts plan applied :
  consistent g → acyclic g →
  (∀ k, k ∈ starts → is_Some (g !! k)) →
  ∃ st, plan_backwards_from g starts plan applied = Ok st.
Proof.
  intros Hg Hacyc. revert plan applied.
  induction starts as [|k rest IH]; intros plan applied Hall; simpl.
  { by eexists. }
  destruct (backwards_plan_total g k Hg Hacyc) as [l Hl]; [apply Hall; by left|].
  rewrite Hl. simpl.
  destruct (plan_backwards_total g l plan applied) as [st ->].
  { intros c Hc. by apply (backwards_plan_is_Some g k l). }
  simpl. apply IH. intros k' Hk'. apply Hall. by right.
Qed.

Lemma next_in_app_children (n : Node (Change DB PS)) app c :
  c ∈ next_in_app n app ↔ c ∈ children n ∧ c.1 = app.
Proof.
  unfold next_in_app.
  rewrite elem_of_sorted, list_elem_of_filter, elem_of_elements. naive_solver.
Qed.

Lemma plan_target_total g (target : Target) plan applied :
  consistent g → acyclic g →
  (∀ nm, target.2 = Some nm → is_Some (g !! (target.1, nm))) →
  ∃ st, plan_target g target plan applied = Ok st.
Proof.
  intros Hg Hacyc Htarget. unfold plan_target.
  destruct target as [app [nm|]]; simpl in *.
  - destruct (Htarget nm eq_refl) as [n Hn].
    case_bool_decide.
    + unfold node_map, getitem. rewrite Hn. simpl.
      apply plan_backwards_from_total; [done..|].
      intros c [Hc _]%next_in_app_children.
      apply (edge_is_Some g (app, nm)); [done|].
      unfold edge, has_child. by rewrite Hn.
    + destruct (forwards_plan_total g (app, nm) Hg Hacyc) as [l Hl]; [eauto|].
      rewrite Hl. simpl. apply plan_forwards_total.
      intros c Hc. by apply (forwards_plan_is_Some g (app, nm) l).
  - apply plan_backwards_from_total; [done..|].
    intros k [_ (n & Hn & _)%elem_of_root_nodes]%list_elem_of_filter. eauto.
Qed.

Lemma plan_targets_total g (targets : list Target) plan applied :
  consistent g → acyclic g →
  (∀ app nm, (app, Some nm) ∈ targets → is_Some (g !! (app, nm))) →
  ∃ st, plan_targets g targets plan applied = Ok st.
Proof.
  intros Hg Hacyc. revert plan applied.
  induction targets as [|t rest IH]; intros plan applied Hall; simpl.
  { by eexists. }
  destruct (plan_target_total g t plan applied Hg Hacyc) as [st ->].
  { intros nm Hnm. apply Hall. destruct t as [app o]. simpl in *. subst.
    by left. }
  simpl. apply IH. intros app nm Hin. apply Hall. by right.
Qed.

(** On a consistent acyclic graph [change_plan] returns a plan for targets
    that are nodes (or whole apps). *)
Lemma change_plan_total self (targets : list Target) clean_start :
  consistent (graph self) → acyclic (graph self) →
  (∀ app nm, (app, Some nm) ∈ targets → is_Some (graph self !! (app, nm))) →
  ∃ plan, change_plan self targets clean_start = Ok plan.
Proof.
  intros Hg Hacyc Hall. unfold change_plan.
  destruct (plan_targets_total (graph self) targets []
              (if clean_start then ∅ else applied_changes self) Hg Hacyc Hall)
    as [st ->].
  by eexists.
Qed.

Lemma full_plan_of_total self :
  consistent (graph self) → acyclic (graph self) →
  ∃ full_plan, full_plan_of self = Ok full_plan.
Proof.
  intros Hg Hacyc. apply change_plan_total; [done..|].
  intros app nm ([a b] & [= -> ->] & Hleaf)%list_elem_of_fmap.
  apply elem_of_leaf_nodes in Hleaf as (n & Hn & _). eauto.
Qed.

End plan.

End PlanFacts.

(** ** executor.py: running *)

Module ExecutorFacts.
Import Graph Operations Executor PyFacts GraphFacts PlanFacts.

Section run.
Context {DB PS : Type} `{!Backend DB} `{!ProjectStateOps PS}.
Implicit Types self : ChangeExecutor DB PS.
Implicit Types c : Change DB PS.
Implicit Types w : World DB.
Implicit Types plan : Plan DB PS.

(** The events that a callback receives, none without a callback. *)
Definition heard self (evs : list Progress) : list Progress :=
  if progress_callback self then evs else [].

Lemma notify_eq self ev w :
  notify self ev w =
  (Ok tt, {| store := store w; db := db w;
             progress := progress w ++ heard self [ev] |}).
Proof.
  unfold notify, heard, modify, ret. destruct (progress_callback self).
  - done.
  - rewrite app_nil_r. by destruct w.
Qed.

Ltac unfold_run :=
  unfold apply_change, unapply_change, bind, on_store, on_db, ret, lift,
    attr_of;
  rewrite ?notify_eq; simpl.

(** C3: the row of a change is written after its database action and only
    if that action returned.  When [apply_change] raises, the recorder's
    store is the one before the call, and when it returns, the row was
    appended and (unless faked) [Change.apply] had returned on the
    database before; the same for [unapply_change] with the row removed;
    in particular an exception of the forward or of the backward call
    leaves [apply_change] or [unapply_change] with that exception and with
    the store unchanged. *)
Theorem applied_record_follows_backend self (state : PS) c (fake : bool)
    w w' (r : result PS) :
  (apply_change self state c fake w = (r, w') →
     match r with
     | Raise _ => store w' = store w
     | Ok st =>
         Recorder.rows (store w') = Recorder.rows (store w) ++ [key_of c] ∧
         (fake = false → apply c state (db w) = (Ok st, db w'))
     end) ∧
  (unapply_change self state c fake w = (r, w') →
     match r with
     | Raise _ => store w' = store w
     | Ok st =>
         Recorder.rows (store w')
           = filter (λ k, k ≠ key_of c) (Recorder.rows (store w)) ∧
         (fake = false →
            ∃ a u, atomic c = Some a ∧ unapply c = Some u ∧
                   u state (db w) = (Ok st, db w'))
     end) ∧
  (∀ e d, apply c state (db w) = (Raise e, d) →
     ∃ w1, apply_change self state c false w = (Raise e, w1) ∧
           store w1 = store w ∧ db w1 = d) ∧
  (∀ a u e d, atomic c = Some a → unapply c = Some u →
     u state (db w) = (Raise e, d) →
     ∃ w1, unapply_change self state c false w = (Raise e, w1) ∧
           store w1 = store w ∧ db w1 = d).
Proof.
  split; [|split; [|split]].
  - unfold_run. destruct fake; simpl.
    + destruct (Recorder.record_applied (app_label c) (name c) (store w))
        as [[[]|e] s'] eqn:Hrec; simpl; rewrite ?notify_eq; simpl;
        intros [= <- <-]; simpl.
      * apply RecorderFacts.record_applied_ok in Hrec as (_ & -> & _).
        split; [done|]. discriminate.
      * by apply RecorderFacts.record_applied_raise in Hrec.
    + destruct (apply c state (db w)) as [[st|e] d] eqn:Happ; simpl;
        [|by intros [= <- <-]].
      destruct (Recorder.record_applied (app_label c) (name c) (store w))
        as [[[]|e] s'] eqn:Hrec; simpl; rewrite ?notify_eq; simpl;
        intros [= <- <-]; simpl.
      * apply RecorderFacts.record_applied_ok in Hrec as (_ & -> & _). done.
      * by apply RecorderFacts.record_applied_raise in Hrec.
  - unfold_run. destruct fake; simpl.
    + destruct (Recorder.record_unapplied (app_label c) (name c) (store w))
        as [[[]|e] s'] eqn:Hrec; simpl; rewrite ?notify_eq; simpl;
        intros [= <- <-]; simpl.
      * apply RecorderFacts.record_unapplied_ok in Hrec as (_ & -> & _).
        split; [done|]. discriminate.
      * by apply RecorderFacts.record_unapplied_raise in Hrec.
    + destruct (atomic c) as [a|]; simpl; [|by intros [= <- <-]].
      destruct (unapply c) as [u|]; simpl; [|by intros [= <- <-]].
      destruct (u state (db w)) as [[st|e] d] eqn:Hun; simpl;
        [|by intros [= <- <-]].
      destruct (Recorder.record_unapplied (app_label c) (name c) (store w))
        as [[[]|e] s'] eqn:Hrec; simpl; rewrite ?notify_eq; simpl;
        intros [= <- <-]; simpl.
      * apply RecorderFacts.record_unapplied_ok in Hrec as (_ & -> & _).
        split; [done|]. intros _. by exists a, u.
      * by apply RecorderFacts.record_unapplied_raise in Hrec.
  - intros e d Happ. unfold_run. rewrite Happ. simpl. by eexists.
  - intros a u e d Ha Hu Hun. unfold_run. rewrite Ha, Hu. simpl.
    rewrite Hun. simpl. by eexists.
Qed.

(** C8: with [fake] set (and the changelog table in place),
    [apply_change] adds the change to the applied set and
    [unapply_change] removes it, the callback, if there is one, hears the
    start and the success notification, and the database behind the
    operations is the one before the call: neither [Change.apply] nor
    [unapply] nor any operation ran. *)
Theorem fake_records_without_backend self (state : PS) c w :
  Recorder.db_table ∈ Recorder.table_names (store w) →
  ∃ w1 w2,
    apply_change self state c true w = (Ok state, w1) ∧
    db w1 = db w ∧
    Recorder.applied_set (store w1)
      = {[key_of c]} ∪ Recorder.applied_set (store w) ∧
    progress w1 = progress w ++
      heard self [apply_start (key_of c) true; apply_success (key_of c) true] ∧
    unapply_change self state c true w = (Ok state, w2) ∧
    db w2 = db w ∧
    Recorder.applied_set (store w2)
      = Recorder.applied_set (store w) ∖ {[key_of c]} ∧
    progress w2 = progress w ++
      heard self [unapply_start (key_of c) true;
                  unapply_success (key_of c) true].
Proof.
  intros Htable. unfold_run.
  rewrite RecorderFacts.record_applied_present,
    RecorderFacts.record_unapplied_present by done.
  simpl. rewrite ?notify_eq. simpl.
  eexists _, _. repeat split; simpl.
  - unfold Recorder.applied_set. simpl. rewrite list_to_set_app_L.
    unfold key_of. set_solver.
  - rewrite <- app_assoc. f_equal. unfold heard.
    by destruct (progress_callback self).
  - unfold Recorder.applied_set. simpl. apply set_eq. intros k.
    rewrite elem_of_list_to_set, list_elem_of_filter, elem_of_difference,
      elem_of_list_to_set, elem_of_singleton. unfold key_of. naive_solver.
  - rewrite <- app_assoc. f_equal. unfold heard.
    by destruct (progress_callback self).
Qed.

(** The plan that [change] works on: the one it is given, or the one it
    computes from the targets. *)
Definition plan_in_effect self (targets : list Target)
    (plan_arg : option (Plan DB PS)) : result (Plan DB PS) :=
  match plan_arg with
  | Some p => Ok p
  | None => change_plan self targets false
  end.

Lemma all_forwards_true plan :
  all_forwards plan = true ↔ ∀ m, m ∈ plan → m.2 = false.
Proof.
  unfold all_forwards. induction plan as [|[ch b] plan IH]; simpl.
  - split; [|done]. by intros _ m ?%elem_of_nil.
  - rewrite andb_true_iff, IH, negb_true_iff. split.
    + intros [-> Hall] m [->|Hm]%elem_of_cons; [done|by apply Hall].
    + intros Hall. split; [apply (Hall (ch, b)); by left|].
      intros m Hm. apply Hall. by right.
Qed.

Lemma all_backwards_true plan :
  all_backwards plan = true ↔ ∀ m, m ∈ plan → m.2 = true.
Proof.
  unfold all_backwards. induction plan as [|[ch b] plan IH]; simpl.
  - split; [|done]. by intros _ m ?%elem_of_nil.
  - rewrite andb_true_iff, IH. split.
    + intros [-> Hall] m [->|Hm]%elem_of_cons; [done|by apply Hall].
    + intros Hall. split; [apply (Hall (ch, b)); by left|].
      intros m Hm. apply Hall. by right.
Qed.

Lemma mixed_plan_flags plan :
  (∃ m, m ∈ plan ∧ m.2 = false) → (∃ m, m ∈ plan ∧ m.2 = true) →
  all_forwards plan = false ∧ all_backwards plan = false.
Proof.
  intros (mf & Hmf & Hf) (mb & Hmb & Hb). split.
  - destruct (all_forwards plan) eqn:Hall; [|done].
    rewrite all_forwards_true in Hall. specialize (Hall mb Hmb). congruence.
  - destruct (all_backwards plan) eqn:Hall; [|done].
    rewrite all_backwards_true in Hall. specialize (Hall mf Hmf). congruence.
Qed.

Lemma forwards_plan_flags plan :
  plan ≠ [] → (∀ m, m ∈ plan → m.2 = false) →
  all_forwards plan = true ∧ all_backwards plan = false.
Proof.
  intros Hne Hall. split; [by apply all_forwards_true|].
  destruct (all_backwards plan) eqn:Hb; [|done].
  rewrite all_backwards_true in Hb. destruct plan as [|m plan]; [done|].
  specialize (Hall m ltac:(by left)). specialize (Hb m ltac:(by left)).
  congruence.
Qed.

Lemma backwards_plan_flags plan :
  plan ≠ [] → (∀ m, m ∈ plan → m.2 = true) →
  all_forwards plan = false ∧ all_backwards plan = true.
Proof.
  intros Hne Hall. split; [|by apply all_backwards_true].
  destruct (all_forwards plan) eqn:Hf; [|done].
  rewrite all_forwards_true in Hf. destruct plan as [|m plan]; [done|].
  specialize (Hall m ltac:(by left)). specialize (Hf m ltac:(by left)).
  congruence.
Qed.

(** [change] up to the test of the two flags. *)
Lemma change_unfold self targets plan_arg plan full_plan state fake w :
  plan_in_effect self targets plan_arg = Ok plan →
  full_plan_of self = Ok full_plan →
  plan ≠ [] →
  change self targets plan_arg state fake w =
    if bool_decide (all_forwards plan = all_backwards plan) then
      (Raise InvalidChangePlan, w)
    else if all_forwards plan then
      bind (match state with
            | Some st => ret st
            | None => lift (_create_project_state self true)
            end)
           (λ st, _change_all_forwards self st plan full_plan fake) w
    else
      bind (lift (getattr ChangeExecutor_attrs "_migrate_all_backwards"))
           (λ _, _change_all_backwards self plan full_plan fake) w.
Proof.
  unfold plan_in_effect, change. intros Hplan Hfull Hne.
  unfold bind at 1. unfold lift at 1. rewrite Hplan.
  unfold bind at 1. unfold lift at 1. rewrite Hfull.
  destruct plan as [|m plan]; [done|].
  case_bool_decide; [done|]. by destruct (all_forwards (m :: plan)).
Qed.

Lemma change_full_plan_raise self targets plan_arg plan e state fake w :
  plan_in_effect self targets plan_arg = Ok plan →
  full_plan_of self = Raise e →
  change self targets plan_arg state fake w = (Raise e, w).
Proof.
  unfold plan_in_effect, change. intros Hplan Hfull.
  unfold bind at 1. unfold lift at 1. rewrite Hplan.
  unfold bind at 1. unfold lift at 1. by rewrite Hfull.
Qed.

(** C4: [change] on a plan with a forwards and a backwards entry raises
    and leaves the world as it was, so nothing was applied, unapplied or
    recorded; the exception is [InvalidChangePlan] whenever the full plan
    of the graph can be computed, as on every consistent acyclic graph.
    A non-empty plan with entries of one direction only makes the test
    false, and [change] goes on to [_change_all_forwards], or to the
    lookup of the backwards method. *)
Theorem change_rejects_mixed_plan self (targets : list Target)
    (plan_arg : option (Plan DB PS)) plan (state : option PS) (fake : bool) w :
  plan_in_effect self targets plan_arg = Ok plan →
  plan ≠ [] →
  ((∃ m, m ∈ plan ∧ m.2 = false) → (∃ m, m ∈ plan ∧ m.2 = true) →
     (∃ e, change self targets plan_arg state fake w = (Raise e, w)) ∧
     (is_ok (full_plan_of self) = true →
        change self targets plan_arg state fake w
          = (Raise InvalidChangePlan, w)) ∧
     (consistent (graph self) → acyclic (graph self) →
        change self targets plan_arg state fake w
          = (Raise InvalidChangePlan, w))) ∧
  ((∀ m, m ∈ plan → m.2 = false) →
     all_forwards plan ≠ all_backwards plan ∧
     ∀ full_plan, full_plan_of self = Ok full_plan →
       change self targets plan_arg state fake w =
         bind (match state with
               | Some st => ret st
               | None => lift (_create_project_state self true)
               end)
              (λ st, _change_all_forwards self st plan full_plan fake) w) ∧
  ((∀ m, m ∈ plan → m.2 = true) →
     all_forwards plan ≠ all_backwards plan ∧
     ∀ full_plan, full_plan_of self = Ok full_plan →
       change self targets plan_arg state fake w =
         bind (lift (getattr ChangeExecutor_attrs "_migrate_all_backwards"))
              (λ _, _change_all_backwards self plan full_plan fake) w).
Proof.
  intros Hplan Hne. split; [|split].
  - intros Hf Hb. destruct (mixed_plan_flags plan Hf Hb) as [Hallf Hallb].
    assert (∀ full_plan, full_plan_of self = Ok full_plan →
              change self targets plan_arg state fake w
              = (Raise InvalidChangePlan, w)) as Hreject.
    { intros full_plan Hfull.
      rewrite (change_unfold _ _ _ plan full_plan) by done.
      by rewrite Hallf, Hallb. }
    split; [|split].
    + destruct (full_plan_of self) as [full_plan|e] eqn:Hfull.
      * exists InvalidChangePlan. by apply (Hreject full_plan).
      * exists e. by apply (change_full_plan_raise _ _ _ plan).
    + destruct (full_plan_of self) as [full_plan|e] eqn:Hfull; [|done].
      intros _. by apply (Hreject full_plan).
    + intros Hg Hacyc.
      destruct (full_plan_of_total self Hg Hacyc) as [full_plan Hfull].
      by apply (Hreject full_plan).
  - intros Hall. destruct (forwards_plan_flags plan Hne Hall) as [Hallf Hallb].
    split; [congruence|]. intros full_plan Hfull.
    rewrite (change_unfold _ _ _ plan full_plan) by done.
    by rewrite Hallf, Hallb.
  - intros Hall. destruct (backwards_plan_flags plan Hne Hall) as [Hallf Hallb].
    split; [congruence|]. intros full_plan Hfull.
    rewrite (change_unfold _ _ _ plan full_plan) by done.
    by rewrite Hallf, Hallb.
Qed.

(** C1 (the source departs from it): on a non-empty plan of backwards
    entries [change] raises and leaves the world as it was; once the full
    plan is computed the exception is the [AttributeError] of the lookup
    of [_migrate_all_backwards], so [_change_all_backwards] is not run
    and no change is unapplied. *)
Theorem change_backwards_plan_raises self (targets : list Target)
    (plan_arg : option (Plan DB PS)) plan (state : option PS) (fake : bool) w :
  plan_in_effect self targets plan_arg = Ok plan →
  plan ≠ [] →
  (∀ m, m ∈ plan → m.2 = true) →
  (∃ e, change self targets plan_arg state fake w = (Raise e, w)) ∧
  (is_ok (full_plan_of self) = true →
     change self targets plan_arg state fake w = (Raise AttributeError, w)) ∧
  (consistent (graph self) → acyclic (graph self) →
     change self targets plan_arg state fake w = (Raise AttributeError, w)).
Proof.
  intros Hplan Hne Hall.
  destruct (backwards_plan_flags plan Hne Hall) as [Hallf Hallb].
  assert (∀ full_plan, full_plan_of self = Ok full_plan →
            change self targets plan_arg state fake w
            = (Raise AttributeError, w)) as Hchange.
  { intros full_plan Hfull.
    rewrite (change_unfold _ _ _ plan full_plan) by done.
    by rewrite Hallf, Hallb. }
  split; [|split].
  - destruct (full_plan_of self) as [full_plan|e] eqn:Hfull.
    + exists AttributeError. by apply (Hchange full_plan).
    + exists e. by apply (change_full_plan_raise _ _ _ plan).
  - destruct (full_plan_of self) as [full_plan|e] eqn:Hfull; [|done].
    intros _. by apply (Hchange full_plan).
  - intros Hg Hacyc.
    destruct (full_plan_of_total self Hg Hacyc) as [full_plan Hfull].
    by apply (Hchange full_plan).
Qed.

End run.

End ExecutorFacts.

(** ** executor.py: the plan towards applied targets *)

Module ChangePlanFacts.
Import Graph Operations Executor PyFacts GraphFacts PlanFacts.

Lemma filter_ordered_set (P : ChangeKey → Prop) `{!∀ x, Decision (P x)}
    (l : list ChangeKey) :
  filter P (ordered_set l) = ordered_set (filter P l).
Proof.
  induction l as [|x l IH]; simpl; [done|].
  rewrite !filter_cons. destruct (decide (P x)) as [Hx|Hx]; simpl.
  - f_equal. rewrite <- IH, !list_filter_filter.
    apply list_filter_iff. naive_solver.
  - rewrite <- IH, list_filter_filter. apply list_filter_iff.
    intros y. split; [naive_solver|]. intros Hy. split; [done|].
    by intros ->.
Qed.

Lemma filter_all {A} (P : A → Prop) `{!∀ x, Decision (P x)} (l : list A) :
  (∀ x, P x) → filter P l = l.
Proof.
  intros HP. induction l as [|x l IH]; [done|].
  by rewrite filter_cons_True, IH by done.
Qed.

Lemma ordered_set_app (l1 l2 : list ChangeKey) :
  ordered_set (l1 ++ l2)
  = ordered_set l1 ++ filter (λ x, x ∉ l1) (ordered_set l2).
Proof.
  induction l1 as [|x l1 IH]; simpl.
  - symmetry. apply filter_all. intros y. apply not_elem_of_nil.
  - f_equal. rewrite IH, filter_app, list_filter_filter. f_equal.
    apply list_filter_iff. intros y. rewrite not_elem_of_cons. naive_solver.
Qed.

(** The keys that the backwards loops of [change_plan] take from a list
    of changes: those that are applied, each at its first occurrence. *)
Definition taken (applied : gset ChangeKey) (changes : list ChangeKey)
    : list ChangeKey :=
  ordered_set (filter (λ c, c ∈ applied) changes).

Lemma taken_cons_in applied c rest :
  c ∈ applied → taken applied (c :: rest) = c :: taken (applied ∖ {[c]}) rest.
Proof.
  intros Hc. unfold taken. rewrite filter_cons, decide_True by done.
  simpl. f_equal. rewrite filter_ordered_set, list_filter_filter.
  f_equal. apply list_filter_iff. intros y.
  rewrite elem_of_difference, elem_of_singleton. naive_solver.
Qed.

Lemma taken_cons_out applied c rest :
  c ∉ applied → taken applied (c :: rest) = taken applied rest.
Proof.
  intros Hc. unfold taken. by rewrite filter_cons, decide_False by done.
Qed.

Lemma taken_app applied l1 l2 :
  taken applied (l1 ++ l2)
  = taken applied l1 ++ taken (applied ∖ list_to_set l1) l2.
Proof.
  unfold taken. rewrite filter_app, ordered_set_app. f_equal.
  rewrite filter_ordered_set, list_filter_filter. f_equal.
  apply list_filter_iff. intros y.
  rewrite list_elem_of_filter, elem_of_difference, elem_of_list_to_set.
  naive_solver.
Qed.

Lemma elem_of_taken applied changes k :
  k ∈ taken applied changes ↔ k ∈ applied ∧ k ∈ changes.
Proof. unfold taken. by rewrite elem_of_ordered_set, list_elem_of_filter. Qed.

Lemma NoDup_taken applied changes : NoDup (taken applied changes).
Proof. apply NoDup_ordered_set. Qed.

Section applied_targets.
Context {DB PS : Type}.
Implicit Types g : gmap ChangeKey (Node (Change DB PS)).
Implicit Types self : ChangeExecutor DB PS.
Implicit Types plan : Plan DB PS.
Implicit Types applied : gset ChangeKey.

(** What [load_disk] and [build_graph] of loader.py establish: the change
    stored under a key was built with that label and name. *)
Definition well_keyed g : Prop :=
  ∀ k n, g !! k = Some n → key_of (change_unit n) = k.

(** The plan entries for a list of keys: the change instances of the
    graph, marked backwards. *)
Definition backwards_entries g (ks : list ChangeKey) : Plan DB PS :=
  omap (λ k, (λ n, (change_unit n, true)) <$> g !! k) ks.

Lemma backwards_entries_Forall2 g ks :
  (∀ k, k ∈ ks → is_Some (g !! k)) →
  Forall2 (λ k m, nodes g !! k = Some m.1 ∧ m.2 = true)
          ks (backwards_entries g ks).
Proof.
  induction ks as [|k ks IH]; intros Hall; simpl; [constructor|].
  destruct (Hall k) as [n Hn]; [by left|].
  unfold backwards_entries. simpl. rewrite Hn. simpl. constructor.
  - simpl. unfold nodes. by rewrite lookup_fmap, Hn.
  - apply IH. intros k' Hk'. apply Hall. by right.
Qed.

Lemma elem_of_backwards_entries g ks (m : Change DB PS * bool) :
  m ∈ backwards_entries g ks →
  m.2 = true ∧ ∃ k n, k ∈ ks ∧ g !! k = Some n ∧ m.1 = change_unit n.
Proof.
  intros (k & Hk & Hm)%list_elem_of_omap.
  destruct (g !! k) as [n|] eqn:Hn; simpl in Hm; [|discriminate].
  injection Hm as <-. split; [done|]. by exists k, n.
Qed.

Lemma plan_backwards_spec g changes plan applied :
  (∀ c, c ∈ changes → c ∈ applied → is_Some (g !! c)) →
  plan_backwards g changes plan applied
  = Ok (plan ++ backwards_entries g (taken applied changes),
        applied ∖ list_to_set changes).
Proof.
  revert plan applied.
  induction changes as [|c rest IH]; intros plan applied Hall; simpl.
  { f_equal. f_equal; [by rewrite app_nil_r|set_solver]. }
  case_bool_decide as Hc.
  - destruct (Hall c) as [n Hn]; [by left|done|].
    rewrite (getitem_nodes g c n Hn). simpl.
    rewrite IH.
    + rewrite taken_cons_in by done. unfold backwards_entries at 2. simpl.
      rewrite Hn. simpl. rewrite <- app_assoc. simpl.
      do 2 f_equal. set_solver.
    + intros c' Hc' [Happ _]%elem_of_difference. apply Hall; [by right|done].
  - rewrite IH.
    + rewrite taken_cons_out by done. do 2 f_equal. set_solver.
    + intros c' Hc' Happ. apply Hall; [by right|done].
Qed.

Lemma plan_backwards_from_spec g starts plans plan applied :
  rmap (backwards_plan g) starts = Ok plans →
  (∀ c, c ∈ concat plans → is_Some (g !! c)) →
  plan_backwards_from g starts plan applied
  = Ok (plan ++ backwards_entries g (taken applied (concat plans)),
        applied ∖ list_to_set (concat plans)).
Proof.
  revert plans plan applied.
  induction starts as [|k rest IH]; intros plans plan applied; simpl.
  { intros [= <-] _. simpl. f_equal. f_equal; [by rewrite app_nil_r|set_solver]. }
  destruct (backwards_plan g k) as [p|] eqn:Hp; simpl; [|discriminate].
  destruct (rmap (backwards_plan g) rest) as [ps|] eqn:Hps; simpl;
    [|discriminate].
  intros [= <-] Hall. simpl in Hall.
  rewrite plan_backwards_spec
    by (intros c Hc _; apply Hall, elem_of_app; by left).
  simpl. rewrite (IH ps) by (try done; intros c Hc; apply Hall, elem_of_app; by right).
  simpl. rewrite taken_app. unfold backwards_entries.
  rewrite omap_app, <- app_assoc. do 2 f_equal.
  rewrite list_to_set_app_L. set_solver.
Qed.

Lemma next_in_app_leaf (n : Node (Change DB PS)) app :
  children n = ∅ → next_in_app n app = [].
Proof.
  intros Hn. unfold next_in_app. rewrite Hn, elements_empty. reflexivity.
Qed.

Lemma plan_targets_leaves g (ks : list ChangeKey) plan applied :
  (∀ k, k ∈ ks → k ∈ applied ∧ ∃ n, g !! k = Some n ∧ children n = ∅) →
  plan_targets g (target_of_key <$> ks) plan applied = Ok (plan, applied).
Proof.
  induction ks as [|[app nm] ks IH]; intros Hall; simpl; [done|].
  destruct (Hall (app, nm)) as (Happ & n & Hn & Hleaf); [by left|].
  unfold plan_target. simpl. rewrite bool_decide_eq_true_2 by done.
  unfold node_map, getitem. rewrite Hn. simpl.
  rewrite next_in_app_leaf by done. simpl.
  apply IH. intros k Hk. apply Hall. by right.
Qed.

(** C6: when every change of the graph is applied, the plan towards the
    leaf nodes, with [clean_start=False], is empty. *)
Theorem change_plan_applied_leaves self :
  dom (graph self) ⊆ applied_changes self →
  change_plan self (target_of_key <$> leaf_nodes (graph self) None) false
  = Ok [].
Proof.
  intros Hall. unfold change_plan.
  rewrite plan_targets_leaves; [done|].
  intros k (n & Hn & Hleaf & _)%elem_of_leaf_nodes. split; [|by exists n].
  apply Hall, elem_of_dom. eauto.
Qed.

(** C2: for a target that is a node of a consistent acyclic graph and is
    applied, the plan is made of backwards entries only, for the keys
    taken from the backwards plans of the children of the target in its
    own app, the children in ascending order: the applied keys, each once.
    These are the applied changes among those children and their
    descendants; the target is not one of them, while an applied child of
    the same app is.  With the changes stored under their own keys, no
    entry of the plan is for the target. *)
Theorem change_plan_applied_target self (app nm : string)
    (n : Node (Change DB PS)) :
  consistent (graph self) → acyclic (graph self) →
  graph self !! (app, nm) = Some n →
  (app, nm) ∈ applied_changes self →
  ∃ plans ks,
    rmap (backwards_plan (graph self)) (next_in_app n app) = Ok plans ∧
    ks = taken (applied_changes self) (concat plans) ∧
    change_plan self [(app, Some nm)] false
      = Ok (backwards_entries (graph self) ks) ∧
    Forall2 (λ k m, nodes (graph self) !! k = Some m.1 ∧ m.2 = true)
            ks (backwards_entries (graph self) ks) ∧
    Sorted key_le (next_in_app n app) ∧
    (∀ c, c ∈ next_in_app n app ↔ c ∈ children n ∧ c.1 = app) ∧
    NoDup ks ∧
    (∀ k, k ∈ ks ↔
          k ∈ applied_changes self ∧
          ∃ c, c ∈ children n ∧ c.1 = app ∧ rtc (edge (graph self)) c k) ∧
    ((app, nm) ∉ ks) ∧
    (∀ c, c ∈ children n → c.1 = app → c ∈ applied_changes self → c ∈ ks) ∧
    (∀ m, m ∈ backwards_entries (graph self) ks → m.2 = true) ∧
    (well_keyed (graph self) →
     ∀ m, m ∈ backwards_entries (graph self) ks →
          key_of m.1 ∈ ks ∧ key_of m.1 ≠ (app, nm)).
Proof.
  intros Hg Hacyc Hn Happlied.
  set (g := graph self) in *. set (applied := applied_changes self) in *.
  assert (∀ c, c ∈ next_in_app n app → edge g (app, nm) c) as Hedge.
  { intros c [Hc _]%next_in_app_children. unfold edge, has_child.
    by rewrite Hn. }
  destruct (rmap_ok (backwards_plan g) (next_in_app n app)) as [plans Hplans].
  { intros c Hc. apply backwards_plan_total; [done..|].
    by apply (edge_is_Some g (app, nm)), Hedge. }
  pose proof (rmap_ok_inv _ _ _ Hplans) as Hall2.
  assert (∀ k, k ∈ concat plans ↔
               ∃ c, c ∈ children n ∧ c.1 = app ∧ rtc (edge g) c k) as Hconcat.
  { intros k. rewrite elem_of_concat. split.
    - intros (p & Hk & Hp).
      destruct (Forall2_elem_of_r _ _ _ _ Hall2 Hp) as (c & Hc & Hcp).
      exists c. apply next_in_app_children in Hc as [Hc Hcapp].
      split; [done|]. split; [done|].
      by apply (elem_of_backwards_plan g c p).
    - intros (c & Hc & Hcapp & Hreach).
      destruct (Forall2_elem_of_l _ _ _ c Hall2) as (p & Hp & Hcp).
      { by apply next_in_app_children. }
      exists p. split; [|done]. by apply (elem_of_backwards_plan g c p). }
  assert (∀ k, k ∈ concat plans → is_Some (g !! k)) as Hnodes.
  { intros k (c & Hc & Hcapp & Hreach)%Hconcat.
    apply (rtc_edge_is_Some g c); [done| |done].
    apply (edge_is_Some g (app, nm)); [done|].
    unfold edge, has_child. by rewrite Hn. }
  exists plans, (taken applied (concat plans)).
  split; [done|]. split; [done|]. split.
  { unfold change_plan. simpl. unfold plan_target. simpl.
    fold applied. rewrite bool_decide_eq_true_2 by done.
    unfold node_map, getitem. fold g. rewrite Hn. simpl.
    by rewrite (plan_backwards_from_spec g _ plans). }
  split.
  { apply backwards_entries_Forall2.
    intros k [_ Hk]%elem_of_taken. by apply Hnodes. }
  split; [apply sorted_ascending|].
  split; [apply next_in_app_children|].
  split; [apply NoDup_taken|].
  split; [intros k; by rewrite elem_of_taken, Hconcat|].
  assert ((app, nm) ∉ taken applied (concat plans)) as Hnot.
  { intros [_ (c & Hc & _ & Hreach)%Hconcat]%elem_of_taken.
    apply (Hacyc (app, nm)). eapply tc_rtc_r; [|exact Hreach].
    apply tc_once. unfold edge, has_child. by rewrite Hn. }
  split; [done|]. split; [|split].
  - intros c Hc Hcapp Hcin. apply elem_of_taken. split; [done|].
    apply Hconcat. exists c. split; [done|]. split; [done|]. apply rtc_refl.
  - by intros m [? _]%elem_of_backwards_entries.
  - intros Hkeyed m (_ & k & n' & Hk & Hn' & Hm)%elem_of_backwards_entries.
    rewrite Hm, (Hkeyed k n' Hn'). split; [done|]. by intros ->.
Qed.

End applied_targets.

End ChangePlanFacts.

(** * A worked example: one app with three changes in a chain *)

Module Examples.
Import Graph Operations Executor Loader.
Import PyFacts GraphFacts LoaderFacts PlanFacts ExecutorFacts ChangePlanFacts.

(** A backend stub that counts the calls it receives: the database is the
    number of statements and callables run so far. *)
Global Instance counting_backend : Backend nat := {|
  execute := λ _ _, modify S;
  prepare_sql_script := λ script, [script];
|}.

(** A project state that records whether its models were rendered. *)
Record StubState : Type := {
  stub_real_apps : list string;
  stub_rendered : bool;
}.

Global Instance stub_state_ops : ProjectStateOps StubState := {|
  new_project_state := λ apps,
    {| stub_real_apps := apps; stub_rendered := false |};
  clone := λ st, st;
  has_apps := stub_rendered;
  render_apps := λ st,
    {| stub_real_apps := stub_real_apps st; stub_rendered := true |};
|}.

Definition touch : RunPython nat :=
  {| code := modify S; reverse_code := Some (modify S);
     Operations.atomic := None |}.

Definition add_index : RunSQL StubState :=
  {| sql := PStr "CREATE INDEX i ON blog_post (title)";
     reverse_sql := Some (PStr "DROP INDEX i");
     state_operations := [] |}.

Definition make_change (app nm : string) (ops : list (Operation nat StubState))
    (deps : list ChangeKey) : Change nat StubState :=
  {| name := nm; app_label := app; description := "";
     operations := ops; dependencies := deps; run_before := [];
     initial := None; atomic := None; unapply := None |}.

Definition k1 : ChangeKey := ("blog", "0001_initial").
Definition k2 : ChangeKey := ("blog", "0002_index").
Definition k3 : ChangeKey := ("blog", "0003_slug").

Definition c1 := make_change "blog" "0001_initial" [OpRunPython touch] [].
Definition c2 := make_change "blog" "0002_index" [OpRunSQL add_index] [k1].
Definition c3 := make_change "blog" "0003_slug" [OpRunPython touch] [k2].

Definition blog_graph : gmap ChangeKey (Node (Change nat StubState)) :=
  {[ k1 := {| change_unit := c1; parents := ∅; children := {[k2]} |};
     k2 := {| change_unit := c2; parents := {[k1]}; children := {[k3]} |};
     k3 := {| change_unit := c3; parents := {[k2]}; children := ∅ |} ]}.

Definition blog_rank (k : ChangeKey) : nat :=
  if bool_decide (k = k1) then 0 else if bool_decide (k = k2) then 1 else 2.

(** The executor of a database on which the three changes are applied. *)
Definition blog_executor : ChangeExecutor nat StubState :=
  {| graph := blog_graph;
     applied_changes := {[k1; k2; k3]};
     unchanged_apps := ["auth"];
     progress_callback := true |}.

Definition blog_store (rs : list ChangeKey) : Recorder.Store :=
  {| Recorder.table_names := [Recorder.db_table];
     Recorder.rows := rs;
     Recorder.ddl_refused := false |}.

Definition blog_world : World nat :=
  {| store := blog_store [k1; k2; k3]; db := 0; progress := [] |}.

Definition n2 : Node (Change nat StubState) :=
  {| change_unit := c2; parents := {[k1]}; children := {[k3]} |}.

Lemma blog_graph_consistent : consistent blog_graph.
Proof. apply (bool_decide_unpack _). vm_compute. exact I. Defined.

Lemma blog_graph_acyclic : acyclic blog_graph.
Proof.
  apply (ranked_acyclic _ blog_rank), (bool_decide_unpack _).
  vm_compute. exact I.
Defined.

(** The chain of three changes: its leaf, its root and its plans. *)
Example blog_leaf_nodes : leaf_nodes blog_graph None = [k3].
Proof. by vm_compute. Qed.

Example blog_root_nodes : root_nodes blog_graph None = [k1].
Proof. by vm_compute. Qed.

Example blog_forwards_plan : forwards_plan blog_graph k3 = Ok [k1; k2; k3].
Proof. by vm_compute. Qed.

Example blog_backwards_plan : backwards_plan blog_graph k1 = Ok [k3; k2; k1].
Proof. by vm_compute. Qed.

(** The plan that rolls the app back to just after [k2]. *)
Example change_plan_to_k2 :
  change_plan blog_executor [("blog", Some "0002_index")] false
  = Ok [(c3, true)].
Proof. by vm_compute. Qed.

Example full_plan_of_blog :
  full_plan_of blog_executor = Ok [(c1, false); (c2, false); (c3, false)].
Proof. by vm_compute. Qed.

(** C1 at a concrete input: rolling the app back to just after [k2]. *)
Lemma change_backwards_plan_raises_witness :
  plan_in_effect blog_executor [("blog", Some "0002_index")] None
    = Ok [(c3, true)] ∧
  change blog_executor [("blog", Some "0002_index")] None None false
         blog_world
    = (Raise AttributeError, blog_world).
Proof.
  assert (plan_in_effect blog_executor [("blog", Some "0002_index")] None
          = Ok [(c3, true)]) as Hplan by (vm_compute; reflexivity).
  split; [exact Hplan|].
  refine (proj1 (proj2 (change_backwards_plan_raises blog_executor _ None
                          [(c3, true)] None false blog_world Hplan _ _)) _).
  - discriminate.
  - intros m Hm. apply list_elem_of_singleton in Hm. by rewrite Hm.
  - vm_compute. reflexivity.
Defined.

(** What the method that is not reached would do with that plan, the
    backend calls faked: [k3] leaves the applied set. *)
Example _change_all_backwards_fake :
  _change_all_backwards blog_executor [(c3, true)]
    [(c1, false); (c2, false); (c3, false)] true blog_world
  = (Ok {| stub_real_apps := ["auth"]; stub_rendered := true |},
     {| store := blog_store [k1; k2]; db := 0;
        progress := [render_start; render_success;
                     unapply_start k3 true; unapply_success k3 true] |}).
Proof. by vm_compute. Qed.

Lemma change_plan_applied_target_witness :
  ∃ ks, change_plan blog_executor [("blog", Some "0002_index")] false
          = Ok (backwards_entries blog_graph ks) ∧
        (k2 ∉ ks) ∧ k3 ∈ ks.
Proof.
  assert (blog_graph !! k2 = Some n2) as Hn2 by (vm_compute; reflexivity).
  assert (k2 ∈ applied_changes blog_executor) as Hk2.
  { apply (bool_decide_unpack _). vm_compute. exact I. }
  destruct (change_plan_applied_target blog_executor "blog" "0002_index" n2
              blog_graph_consistent blog_graph_acyclic Hn2 Hk2)
    as (plans & ks & _ & _ & Hplan & _ & _ & _ & _ & _ & Hnot & Hchild & _).
  exists ks. split; [exact Hplan|]. split; [exact Hnot|].
  apply Hchild.
  - apply (bool_decide_unpack _). vm_compute. exact I.
  - reflexivity.
  - apply (bool_decide_unpack _). vm_compute. exact I.
Defined.

Definition start_state : StubState :=
  {| stub_real_apps := ["auth"]; stub_rendered := true |}.

(** [c2] holds a [RunSQL] operation, whose forward call raises. *)
Lemma applied_record_follows_backend_witness :
  apply c2 start_state 0 = (Raise TypeError, 0) ∧
  ∃ w1, apply_change blog_executor start_state c2 false blog_world
          = (Raise TypeError, w1) ∧
        store w1 = store blog_world ∧ db w1 = 0.
Proof.
  assert (apply c2 start_state (db blog_world) = (Raise TypeError, 0))
    as Happly by (vm_compute; reflexivity).
  split; [exact Happly|].
  exact (proj1 (proj2 (proj2
           (applied_record_follows_backend blog_executor start_state c2 false
              blog_world blog_world (Raise TypeError))))
           TypeError 0 Happly).
Defined.

Definition mixed_plan : Plan nat StubState := [(c3, true); (c1, false)].

Lemma change_rejects_mixed_plan_witness :
  change blog_executor [] (Some mixed_plan) None false blog_world
  = (Raise InvalidChangePlan, blog_world).
Proof.
  assert (plan_in_effect blog_executor [] (Some mixed_plan) = Ok mixed_plan)
    as Hplan by reflexivity.
  assert (mixed_plan ≠ []) as Hne by discriminate.
  destruct (change_rejects_mixed_plan blog_executor [] (Some mixed_plan)
              mixed_plan None false blog_world Hplan Hne) as [Hmixed _].
  apply Hmixed.
  - exists (c1, false). split; [|reflexivity]. right. left.
  - exists (c3, true). split; [|reflexivity]. left.
  - exact blog_graph_consistent.
  - exact blog_graph_acyclic.
Defined.


Example check_consistent_history_ok :
  check_consistent_history blog_graph (blog_store [k1; k2; k3])
  = (Ok tt, blog_store [k1; k2; k3]).
Proof. by vm_compute. Qed.

Lemma change_plan_applied_leaves_witness :
  dom (graph blog_executor) ⊆ applied_changes blog_executor ∧
  change_plan blog_executor
    (target_of_key <$> leaf_nodes (graph blog_executor) None) false
  = Ok [].
Proof.
  assert (dom (graph blog_executor) ⊆ applied_changes blog_executor)
    as Hall by (apply (bool_decide_unpack _); vm_compute; exact I).
  split; [exact Hall|].
  exact (change_plan_applied_leaves blog_executor Hall).
Defined.

(** The counting backend shows no call after a faked apply and a faked
    unapply of [c1], whose operation the real apply does call. *)
Definition empty_world : World nat :=
  {| store := blog_store []; db := 0; progress := [] |}.

Lemma fake_records_without_backend_witness :
  (Recorder.db_table ∈ Recorder.table_names (store empty_world)) ∧
  ∃ w1 w2,
    apply_change blog_executor start_state c1 true empty_world
      = (Ok start_state, w1) ∧
    db w1 = 0 ∧
    Recorder.applied_set (store w1) = {[k1]} ∪ ∅ ∧
    unapply_change blog_executor start_state c1 true blog_world
      = (Ok start_state, w2) ∧
    db w2 = 0.
Proof.
  assert (Recorder.db_table ∈ Recorder.table_names (store empty_world))
    as Htable by (apply (bool_decide_unpack _); vm_compute; exact I).
  split; [exact Htable|].
  destruct (fake_records_without_backend blog_executor start_state c1
              empty_world Htable) as (w1 & _ & Happly & Hdb & Hset & _).
  destruct (fake_records_without_backend blog_executor start_state c1
              blog_world Htable) as (_ & w2 & _ & _ & _ & _ & Hun & Hdb2 & _).
  exists w1, w2. split; [exact Happly|]. split; [exact Hdb|].
  split; [exact Hset|]. split; [exact Hun|exact Hdb2].
Defined.

Example apply_change_counts :
  apply_change blog_executor start_state c1 false empty_world
  = (Ok start_state,
     {| store := blog_store [k1]; db := 1;
        progress := [apply_start k1 false; apply_success k1 false] |}).
Proof. by vm_compute. Qed.

End Examples.

(** * Further properties of the package *)

(** ** recorder.py: recording and reading back *)

Module RecorderRoundTrips.
Import Recorder RecorderFacts.

Lemma applied_changes_present (s : Store) :
  db_table ∈ table_names s → applied_changes s = (Ok (applied_set s), s).
Proof.
  intros Htable. unfold applied_changes, bind, get, ret.
  by rewrite ensure_schema_present.
Qed.

(** With the table in place, [record_applied] appends one row, and
    [applied_changes] then returns the key together with what it returned
    before.  The table has no uniqueness constraint: for a key that is
    already recorded the set stays the same while a second row is
    stored. *)
Theorem record_applied_read_back (s : Store) (app name : string) :
  db_table ∈ table_names s →
  ∃ s1,
    record_applied app name s = (Ok tt, s1) ∧
    rows s1 = rows s ++ [(app, name)] ∧
    applied_changes s1 = (Ok ({[(app, name)]} ∪ applied_set s), s1) ∧
    ((app, name) ∈ applied_set s →
       applied_set s1 = applied_set s ∧
       length (rows s1) = S (length (rows s))).
Proof.
  intros Htable. eexists. split; [by apply record_applied_present|].
  split; [done|].
  assert (applied_set
            {| table_names := table_names s;
               rows := rows s ++ [(app, name)];
               ddl_refused := ddl_refused s |}
          = {[(app, name)]} ∪ applied_set s) as Hset.
  { unfold applied_set. simpl. rewrite list_to_set_app_L. set_solver. }
  split.
  - rewrite applied_changes_present by done. by rewrite Hset.
  - intros Hin. split; [rewrite Hset; set_solver|].
    simpl. rewrite length_app. simpl. lia.
Qed.

Lemma record_applied_read_back_witness :
  ∃ s1,
    record_applied "blog" "0002_index" (Examples.blog_store [Examples.k1]) = (Ok tt, s1) ∧
    rows s1 = [Examples.k1; Examples.k2].
Proof.
  assert (db_table ∈ table_names (Examples.blog_store [Examples.k1]))
    as Htable by (apply (bool_decide_unpack _); vm_compute; exact I).
  destruct (record_applied_read_back (Examples.blog_store [Examples.k1])
              "blog" "0002_index" Htable) as (s1 & Hrec & Hrows & _).
  exists s1. split; [exact Hrec|exact Hrows].
Defined.

(** With the table in place, [record_unapplied] deletes every row of the
    key, however often it was recorded, and keeps the other rows in their
    order; [applied_changes] then returns the former set without the key.
    After [record_applied] of a key that was not recorded it gives the
    rows back as they were. *)
Theorem record_unapplied_read_back (s : Store) (app name : string) :
  db_table ∈ table_names s →
  ∃ s1,
    record_unapplied app name s = (Ok tt, s1) ∧
    rows s1 = filter (λ r, r ≠ (app, name)) (rows s) ∧
    applied_changes s1 = (Ok (applied_set s ∖ {[(app, name)]}), s1) ∧
    ((app, name) ∉ applied_set s →
       ∀ s2, record_applied app name s = (Ok tt, s2) →
             ∃ s3, record_unapplied app name s2 = (Ok tt, s3) ∧
                   rows s3 = rows s).
Proof.
  intros Htable. eexists. split; [by apply record_unapplied_present|].
  split; [done|]. split.
  - rewrite applied_changes_present by done. f_equal. f_equal.
    unfold applied_set. simpl. apply set_eq. intros k.
    rewrite elem_of_list_to_set, list_elem_of_filter, elem_of_difference,
      elem_of_list_to_set, elem_of_singleton. naive_solver.
  - intros Hnot s2 Hs2.
    apply record_applied_ok in Hs2 as (_ & Hrows2 & Htab2).
    eexists. split.
    + apply record_unapplied_present. by rewrite Htab2.
    + simpl. rewrite Hrows2, filter_app, filter_cons_False, filter_nil,
        app_nil_r by naive_solver.
      clear Hrows2. unfold applied_set in Hnot.
      rewrite elem_of_list_to_set in Hnot.
      induction (rows s) as [|r rs IH]; [done|].
      rewrite filter_cons_True.
      * f_equal. apply IH. intros Hin. apply Hnot. by right.
      * intros ->. apply Hnot. by left.
Qed.

Lemma record_unapplied_read_back_witness :
  ∃ s1,
    record_unapplied "blog" "0002_index"
      (Examples.blog_store [Examples.k2; Examples.k1; Examples.k2])
      = (Ok tt, s1) ∧
    rows s1 = [Examples.k1].
Proof.
  assert (db_table ∈ table_names
            (Examples.blog_store [Examples.k2; Examples.k1; Examples.k2]))
    as Htable by (apply (bool_decide_unpack _); vm_compute; exact I).
  destruct (record_unapplied_read_back
              (Examples.blog_store [Examples.k2; Examples.k1; Examples.k2])
              "blog" "0002_index" Htable) as (s1 & Hrec & Hrows & _).
  exists s1. split; [exact Hrec|]. rewrite Hrows. vm_compute. reflexivity.
Defined.

End RecorderRoundTrips.

(** ** operations.py: the body of [_run_sql], and [deconstruct] *)

Module OperationsBodies.
Import Operations.

Section run_sql_body.
Context {DB PS : Type} `{!Backend DB}.



End run_sql_body.


Section deconstruct.
Context {DB PS : Type}.

(** An instance of [RunSQL] with every attribute that [__init__] sets
    ([connection] apart): the fields that the operation runs on, [hints]
    and [elidable]. *)
Record RunSQLObject : Type := {
  sql_fields : RunSQL PS;
  sql_hints : gmap string string;
  sql_elidable : bool;
}.

(** [RunSQL.__init__(sql, reverse_sql=None, state_operations=None,
    hints=None, elidable=False)] *)
Definition RunSQL_init (a_sql : pyval) (a_reverse_sql : option pyval)
    (a_state_operations : option (list (StateOperation PS)))
    (a_hints : option (gmap string string)) (a_elidable : bool)
    : RunSQLObject :=
  {| sql_fields := {| sql := a_sql;
                      reverse_sql := a_reverse_sql;
                      state_operations := default [] a_state_operations |};
     sql_hints := default ∅ a_hints;
     sql_elidable := a_elidable |}.

(** The keyword arguments that [RunSQL.deconstruct] returns: ['sql']
    always, the other keys when present. *)
Record RunSQLKwargs : Type := {
  kw_sql : pyval;
  kw_reverse_sql : option pyval;
  kw_state_operations : option (list (StateOperation PS));
  kw_sql_hints : option (gmap string string);
}.

(** [RunSQL.deconstruct()]: the class name, no positional arguments, and
    the keyword arguments. *)
Definition RunSQL_deconstruct (self : RunSQLObject)
    : string * list pyval * RunSQLKwargs :=
  ("RunSQL", [],
   {| kw_sql := sql (sql_fields self);
      kw_reverse_sql := reverse_sql (sql_fields self);
      kw_state_operations :=
        match state_operations (sql_fields self) with
        | [] => None
        | ops => Some ops
        end;
      kw_sql_hints :=
        if bool_decide (sql_hints self = ∅) then None
        else Some (sql_hints self) |}).

(** The constructor called with the positional and keyword arguments that
    [deconstruct] returned. *)
Definition RunSQL_reconstruct (d : string * list pyval * RunSQLKwargs)
    : RunSQLObject :=
  RunSQL_init (kw_sql d.2) (kw_reverse_sql d.2) (kw_state_operations d.2)
              (kw_sql_hints d.2) false.

(** An instance of [RunPython] with every attribute that [__init__]
    sets. *)
Record RunPythonObject : Type := {
  py_fields : RunPython DB;
  py_hints : gmap string string;
  py_elidable : bool;
}.

(** [RunPython.__init__(code, reverse_code=None, atomic=None, hints=None,
    elidable=False)], for arguments that are callable. *)
Definition RunPython_init (a_code : Callable DB)
    (a_reverse_code : option (Callable DB)) (a_atomic : option bool)
    (a_hints : option (gmap string string)) (a_elidable : bool)
    : RunPythonObject :=
  {| py_fields := {| code := a_code;
                     reverse_code := a_reverse_code;
                     atomic := a_atomic |};
     py_hints := default ∅ a_hints;
     py_elidable := a_elidable |}.

Record RunPythonKwargs : Type := {
  kw_code : Callable DB;
  kw_reverse_code : option (Callable DB);
  kw_atomic : option bool;
  kw_py_hints : option (gmap string string);
}.

(** [RunPython.deconstruct()] *)
Definition RunPython_deconstruct (self : RunPythonObject)
    : string * list pyval * RunPythonKwargs :=
  ("RunPython", [],
   {| kw_code := code (py_fields self);
      kw_reverse_code := reverse_code (py_fields self);
      kw_atomic := atomic (py_fields self);
      kw_py_hints :=
        if bool_decide (py_hints self = ∅) then None
        else Some (py_hints self) |}).

Definition RunPython_reconstruct (d : string * list pyval * RunPythonKwargs)
    : RunPythonObject :=
  RunPython_init (kw_code d.2) (kw_reverse_code d.2) (kw_atomic d.2)
                 (kw_py_hints d.2) false.

(** An operation built from what [RunSQL.deconstruct] returned has the
    SQL, the reverse SQL, the state operations and the hints of the
    original, and [elidable] false whatever the original had: the flag is
    not among the keyword arguments.  Deconstructing again gives the same
    result. *)
Theorem RunSQL_deconstruct_round_trip (o : RunSQLObject) :
  RunSQL_reconstruct (RunSQL_deconstruct o)
    = {| sql_fields := sql_fields o; sql_hints := sql_hints o;
         sql_elidable := false |} ∧
  RunSQL_deconstruct (RunSQL_reconstruct (RunSQL_deconstruct o))
    = RunSQL_deconstruct o.
Proof.
  destruct o as [[s r ops] h e].
  assert (RunSQL_reconstruct
            (RunSQL_deconstruct
               {| sql_fields := {| sql := s; reverse_sql := r;
                                   state_operations := ops |};
                  sql_hints := h; sql_elidable := e |})
          = {| sql_fields := {| sql := s; reverse_sql := r;
                                state_operations := ops |};
               sql_hints := h; sql_elidable := false |}) as Hround.
  { unfold RunSQL_reconstruct, RunSQL_deconstruct, RunSQL_init. simpl.
    f_equal.
    - f_equal. by destruct ops.
    - by case_bool_decide. }
  split; [exact Hround|]. by rewrite Hround.
Qed.

(** The same for [RunPython]: code, reverse code, [atomic] and hints come
    back, [elidable] does not. *)
Theorem RunPython_deconstruct_round_trip (o : RunPythonObject) :
  RunPython_reconstruct (RunPython_deconstruct o)
    = {| py_fields := py_fields o; py_hints := py_hints o;
         py_elidable := false |} ∧
  RunPython_deconstruct (RunPython_reconstruct (RunPython_deconstruct o))
    = RunPython_deconstruct o.
Proof.
  destruct o as [[c r a] h e].
  assert (RunPython_reconstruct
            (RunPython_deconstruct
               {| py_fields := {| code := c; reverse_code := r; atomic := a |};
                  py_hints := h; py_elidable := e |})
          = {| py_fields := {| code := c; reverse_code := r; atomic := a |};
               py_hints := h; py_elidable := false |}) as Hround.
  { unfold RunPython_reconstruct, RunPython_deconstruct, RunPython_init.
    simpl. f_equal. by case_bool_decide. }
  split; [exact Hround|]. by rewrite Hround.
Qed.

End deconstruct.

End OperationsBodies.

(** ** change.py *)

Module ChangeFacts.
Import Operations Executor ExecutorFacts.

(** [value.split('.', 1)[0]]: the part of [value] before its first dot,
    all of it when it has none. *)
Fixpoint before_dot (value : string) : string :=
  match value with
  | EmptyString => EmptyString
  | String c rest =>
      if Ascii.eqb c "."%char then EmptyString
      else String c (before_dot rest)
  end.

Fixpoint has_dot (s : string) : bool :=
  match s with
  | EmptyString => false
  | String c rest => Ascii.eqb c "."%char || has_dot rest
  end.

(** [swappable_dependency(value)]: a [SwappableTuple], that is the tuple
    and its attribute [setting]. *)
Definition swappable_dependency (value : string) : ChangeKey * string :=
  ((before_dot value, "__first__"), value).

(** [swappable_dependency] of a setting value "label.Model" depends on
    the first change of the app [label]; a value without a dot is taken
    as the label; in every case the label has no dot, the name is the
    sentinel [__first__] and the value is kept as [setting]. *)
Theorem swappable_dependency_label (value : string) :
  has_dot (swappable_dependency value).1.1 = false ∧
  (swappable_dependency value).1.2 = "__first__" ∧
  (swappable_dependency value).2 = value ∧
  (has_dot value = false → (swappable_dependency value).1.1 = value) ∧
  (∀ label model, has_dot label = false →
     value = String.append label (String "."%char model) →
     (swappable_dependency value).1.1 = label).
Proof.
  unfold swappable_dependency. simpl.
  split; [|split; [done|split; [done|split]]].
  - induction value as [|c rest IH]; simpl; [done|].
    destruct (Ascii.eqb c ".") eqn:Hc; simpl; [done|]. by rewrite Hc.
  - induction value as [|c rest IH]; simpl; [done|].
    destruct (Ascii.eqb c "."); simpl; [done|]. intros H. by rewrite IH.
  - intros label model Hlabel ->.
    induction label as [|c rest IH]; simpl in *; [done|].
    destruct (Ascii.eqb c "."); simpl in *; [done|]. by rewrite IH.
Qed.

Lemma swappable_dependency_label_witness :
  (swappable_dependency "auth.User").1.1 = "auth".
Proof.
  exact (proj2 (proj2 (proj2 (proj2
           (swappable_dependency_label "auth.User")))) "auth" "User"
           eq_refl eq_refl).
Defined.

Section change.
Context {DB PS : Type} `{!Backend DB} `{!ProjectStateOps PS}.
Implicit Types c : Change DB PS.

(** An operation without an effect on the project state: [RunPython], or
    [RunSQL] without state operations. *)
Definition stateless (op : Operation DB PS) : Prop :=
  match op with
  | OpRunPython _ => True
  | OpRunSQL o => state_operations o = []
  end.

(** A change whose operations carry no state operations leaves the
    project state as it is: [mutate_state] returns the state it was given
    or, with [preserve], a clone of it. *)
Theorem mutate_state_stateless c (state : PS) :
  Forall stateless (operations c) →
  mutate_state c state false = state ∧
  mutate_state c state true = clone state.
Proof.
  intros Hall. unfold mutate_state.
  assert (∀ st : PS,
            foldl (λ st op, state_forwards op (app_label c) st) st
                  (operations c) = st) as Hfold.
  { induction Hall as [|op ops Hop _ IH]; intros st; simpl; [done|].
    rewrite <- (IH st) at 2. f_equal.
    destruct op as [o|o]; simpl in *; [|done].
    unfold RunSQL_state_forwards. by rewrite Hop. }
  split; apply Hfold.
Qed.

Lemma for_each_raises {A} (l : list A) (f : A → M DB unit) (x : A) (d : DB) :
  x ∈ l → (∀ d0, ∃ e, f x d0 = (Raise e, d0)) →
  ∃ e d1, for_each l f d = (Raise e, d1).
Proof.
  intros Hx Hfx. revert d.
  induction l as [|y l IH]; intros d; [by apply elem_of_nil in Hx|].
  simpl. unfold bind.
  destruct (f y d) as [[[]|e] d1] eqn:Hy; [|by eexists _, _].
  apply elem_of_cons in Hx as [->|Hx]; [|by apply IH].
  destruct (Hfx d) as [e He]. congruence.
Qed.

(** A change with a [RunSQL] operation cannot be applied: [Change.apply]
    raises, at that operation or at one before it, and [apply_change],
    unless it is faked, raises too and records nothing. *)
Theorem apply_with_RunSQL_raises c (o : RunSQL PS) (state : PS) :
  OpRunSQL o ∈ operations c →
  (∀ d, ∃ e d1, apply c state d = (Raise e, d1)) ∧
  (∀ (self : ChangeExecutor DB PS) (w : World DB),
     ∃ e w1, apply_change self state c false w = (Raise e, w1) ∧
             store w1 = store w).
Proof.
  intros Hin.
  assert (∀ d, ∃ e d1, apply c state d = (Raise e, d1)) as Happly.
  { intros d. unfold apply, bind.
    destruct (for_each_raises (operations c)
                (λ op, database_forwards op (app_label c)) (OpRunSQL o) d Hin)
      as (e & d1 & ->); [|by eexists _, _].
    intros d0. by exists TypeError. }
  split; [exact Happly|]. intros self w.
  destruct (Happly (db w)) as (e & d1 & He).
  unfold apply_change, bind, on_db. rewrite notify_eq. simpl.
  rewrite He. simpl. by eexists _, _.
Qed.

End change.

Lemma mutate_state_stateless_witness :
  mutate_state Examples.c1 Examples.start_state false = Examples.start_state.
Proof.
  refine (proj1 (mutate_state_stateless Examples.c1 Examples.start_state _)).
  repeat constructor.
Defined.

Lemma apply_with_RunSQL_raises_witness :
  ∃ e d1, apply Examples.c2 Examples.start_state 0 = (Raise e, d1).
Proof.
  refine (proj1 (apply_with_RunSQL_raises Examples.c2 Examples.add_index
                   Examples.start_state _) 0).
  left.
Defined.

End ChangeFacts.

(** ** loader.py: looking changes up *)

Module LoaderLookup.
Import Graph PyFacts GraphFacts.

Section by_prefix.
Context {C : Type}.

(** [change_app_label == app_label and
    change_name.startswith(name_prefix)] *)
Definition prefix_match (app_label name_prefix : string) (k : ChangeKey)
    : Prop :=
  k.1 = app_label ∧ String.prefix name_prefix k.2 = true.

Global Instance prefix_match_dec app_label name_prefix k :
  Decision (prefix_match app_label name_prefix k).
Proof. unfold prefix_match. apply _. Defined.

(** [ChangeLoader.get_change_by_prefix(app_label, name_prefix)] over the
    dict [disk_changes]. *)
Definition get_change_by_prefix (disk_changes : gmap ChangeKey C)
    (app_label name_prefix : string) : result C :=
  let results :=
    filter (prefix_match app_label name_prefix)
           (elements (dom disk_changes)) in
  if bool_decide (1 < length results) then Raise AmbiguityError
  else if bool_decide (length results = 0) then Raise KeyError
  else match results with
       | k :: _ => getitem disk_changes k
       | [] => Raise IndexError
       end.

(** [get_change_by_prefix] returns a change exactly when one key of the
    app has the prefix, then the change stored under it; it raises
    [KeyError] exactly when none has, and [AmbiguityError] exactly when
    two different keys have.  So a change whose name is the beginning of
    another name of its app is not found by its own full name, and the
    empty prefix finds a change only in an app that has a single one. *)
Theorem get_change_by_prefix_spec (disk_changes : gmap ChangeKey C)
    (app_label name_prefix : string) :
  (∀ c, get_change_by_prefix disk_changes app_label name_prefix = Ok c ↔
        ∃ k, disk_changes !! k = Some c ∧
             prefix_match app_label name_prefix k ∧
             ∀ k', k' ∈ dom disk_changes →
                   prefix_match app_label name_prefix k' → k' = k) ∧
  (get_change_by_prefix disk_changes app_label name_prefix = Raise KeyError ↔
     ∀ k, k ∈ dom disk_changes → ¬ prefix_match app_label name_prefix k) ∧
  (get_change_by_prefix disk_changes app_label name_prefix
     = Raise AmbiguityError ↔
     ∃ k1 k2, k1 ≠ k2 ∧ k1 ∈ dom disk_changes ∧ k2 ∈ dom disk_changes ∧
              prefix_match app_label name_prefix k1 ∧
              prefix_match app_label name_prefix k2).
Proof.
  unfold get_change_by_prefix.
  set (results := filter (prefix_match app_label name_prefix)
                         (elements (dom disk_changes))).
  assert (∀ k, k ∈ results ↔
               k ∈ dom disk_changes ∧ prefix_match app_label name_prefix k)
    as Hres.
  { intros k. unfold results.
    rewrite list_elem_of_filter, elem_of_elements. naive_solver. }
  assert (NoDup results) as Hnd by apply NoDup_filter, NoDup_elements.
  pose proof (LoaderFacts.NoDup_length_two results Hnd) as Htwo.
  case_bool_decide as Hlen.
  - (* two or more *)
    assert (∃ k1 k2, k1 ≠ k2 ∧ k1 ∈ dom disk_changes ∧ k2 ∈ dom disk_changes ∧
              prefix_match app_label name_prefix k1 ∧
              prefix_match app_label name_prefix k2) as Hex.
    { destruct (proj1 Htwo) as (k1 & k2 & Hne & H1 & H2); [lia|].
      apply Hres in H1, H2. exists k1, k2. naive_solver. }
    split; [|split].
    + intros c. split; [discriminate|].
      intros (k & _ & _ & Huniq).
      destruct Hex as (k1 & k2 & Hne & H1 & H2 & M1 & M2).
      destruct Hne. by rewrite (Huniq k1), (Huniq k2).
    + split; [discriminate|]. intros Hnone.
      destruct Hex as (k1 & _ & _ & H1 & _ & M1 & _). by destruct (Hnone k1).
    + done.
  - assert (¬ ∃ k1 k2, k1 ≠ k2 ∧ k1 ∈ dom disk_changes ∧
                       k2 ∈ dom disk_changes ∧
                       prefix_match app_label name_prefix k1 ∧
                       prefix_match app_label name_prefix k2) as Hnot2.
    { intros (k1 & k2 & Hne & H1 & H2 & M1 & M2). apply Hlen.
      assert (2 ≤ length results); [|lia].
      apply Htwo. exists k1, k2. rewrite !Hres. done. }
    destruct results as [|k [|k' rest]] eqn:Hr; simpl in *; [| |lia].
    + (* none *)
      split; [|split].
      * intros c. split; [discriminate|]. intros (k & Hk & Hm & _).
        assert (k ∈ []) as Hin; [|by apply elem_of_nil in Hin].
        apply Hres. split; [|done]. apply elem_of_dom. eauto.
      * split; [|done]. intros _ k Hk Hm.
        assert (k ∈ []) as Hin; [|by apply elem_of_nil in Hin].
        by apply Hres.
      * split; [discriminate|]. by intros ?.
    + (* one *)
      assert (k ∈ dom disk_changes ∧ prefix_match app_label name_prefix k)
        as [Hk Hm] by (apply Hres; by left).
      assert (∀ k', k' ∈ dom disk_changes →
                    prefix_match app_label name_prefix k' → k' = k) as Huniq.
      { intros k' Hk' Hm'. assert (k' ∈ [k]) as Hin by (by apply Hres).
        by apply list_elem_of_singleton in Hin. }
      apply elem_of_dom in Hk as [c0 Hc0]. unfold getitem. rewrite Hc0.
      split; [|split].
      * intros c. split.
        -- intros [= <-]. by exists k.
        -- intros (k2 & Hk2 & Hm2 & _). f_equal.
           assert (k2 = k) as ->; [|congruence].
           apply Huniq; [|done]. apply elem_of_dom. eauto.
      * split; [discriminate|]. intros Hnone. destruct (Hnone k); [|done].
        apply elem_of_dom. eauto.
      * split; [discriminate|]. by intros ?.
Qed.

End by_prefix.

Section check_key.

(** What [check_key] reads: whether a key is in the graph, the root and
    the leaf nodes of an app that graph.py returns, the labels of the apps
    without and with changes, and the flag [ignore_no_changes]. *)
Record LoaderView : Type := {
  in_graph : ChangeKey → bool;
  app_root_nodes : string → list ChangeKey;
  app_leaf_nodes : string → list ChangeKey;
  unchanged_apps : gset string;
  changed_apps : gset string;
  ignore_no_changes : bool;
}.

(** [ChangeLoader.check_key(key, current_app)]; [None] is returned for a
    dependency that is dropped. *)
Definition check_key (self : LoaderView) (key : ChangeKey)
    (current_app : string) : result (option ChangeKey) :=
  if bool_decide ((key.2 ≠ "__first__" ∧ key.2 ≠ "__latest__")
                  ∨ in_graph self key = true)
  then Ok (Some key)
  else if bool_decide (key.1 = current_app) then Ok None
  else if bool_decide (key.1 ∈ unchanged_apps self) then Ok None
  else if bool_decide (key.1 ∈ changed_apps self) then
    match (if bool_decide (key.2 = "__first__")
           then app_root_nodes self key.1
           else app_leaf_nodes self key.1) with
    | k :: _ => Ok (Some k)
    | [] => if ignore_no_changes self then Ok None else Raise ValueError
    end
  else Raise ValueError.

(** The view of a loader on a graph. *)
Definition view_of {U} (g : gmap ChangeKey (Node U))
    (unchanged changed : gset string) (ignore : bool) : LoaderView :=
  {| in_graph := λ k, bool_decide (k ∈ dom (nodes g));
     app_root_nodes := λ app, root_nodes g (Some app);
     app_leaf_nodes := λ app, leaf_nodes g (Some app);
     unchanged_apps := unchanged;
     changed_apps := changed;
     ignore_no_changes := ignore |}.

(** When the roots and leaves that the graph returns for an app are keys
    of the graph in that app, a key that [check_key] returns is the given
    key, if that is a name or a key of the graph, or else a key of the
    graph in the app of the given sentinel: no sentinel outside the graph
    comes back.  A sentinel of the current app or of an app without
    changes is dropped, and the only exception raised is [ValueError],
    for a sentinel of another app. *)
Theorem check_key_resolves (self : LoaderView) (key : ChangeKey)
    (current_app : string) :
  (∀ app k, k ∈ app_root_nodes self app ∨ k ∈ app_leaf_nodes self app →
            in_graph self k = true ∧ k.1 = app) →
  (∀ k, check_key self key current_app = Ok (Some k) →
        in_graph self k = true ∧ k.1 = key.1 ∨
        k = key ∧ key.2 ≠ "__first__" ∧ key.2 ≠ "__latest__") ∧
  (in_graph self key = false →
   key.2 = "__first__" ∨ key.2 = "__latest__" →
   key.1 = current_app ∨ key.1 ∈ unchanged_apps self →
   check_key self key current_app = Ok None) ∧
  (∀ e, check_key self key current_app = Raise e →
        e = ValueError ∧ key.1 ≠ current_app ∧
        (key.2 = "__first__" ∨ key.2 = "__latest__")).
Proof.
  intros Hgraph. unfold check_key.
  set (candidates := if bool_decide (key.2 = "__first__")
                     then app_root_nodes self key.1
                     else app_leaf_nodes self key.1).
  assert (∀ k rest, candidates = k :: rest →
                    in_graph self k = true ∧ k.1 = key.1) as Hhead.
  { intros k rest Hk. apply (Hgraph key.1 k). unfold candidates in Hk.
    destruct (bool_decide (key.2 = "__first__")); [left|right];
      rewrite Hk; by left. }
  clearbody candidates.
  destruct (decide ((key.2 ≠ "__first__" ∧ key.2 ≠ "__latest__")
                    ∨ in_graph self key = true)) as [Hplain|Hplain];
    [rewrite bool_decide_eq_true_2 by done
    |rewrite bool_decide_eq_false_2 by done].
  { split; [|split; [|discriminate]].
    - intros k [= <-]. destruct Hplain as [[? ?]|Hin]; [by right|by left].
    - intros Hout Hsent _. destruct Hplain as [[? ?]|?]; [|congruence].
      by destruct Hsent. }
  assert (key.2 = "__first__" ∨ key.2 = "__latest__") as Hsent.
  { destruct (decide (key.2 = "__first__")); [by left|].
    destruct (decide (key.2 = "__latest__")); [by right|].
    destruct Hplain. by left. }
  destruct (decide (key.1 = current_app)) as [Hcur|Hcur];
    [rewrite bool_decide_eq_true_2 by done
    |rewrite bool_decide_eq_false_2 by done].
  { by repeat split. }
  destruct (decide (key.1 ∈ unchanged_apps self)) as [Hun|Hun];
    [rewrite bool_decide_eq_true_2 by done
    |rewrite bool_decide_eq_false_2 by done].
  { by repeat split. }
  destruct (decide (key.1 ∈ changed_apps self)) as [Hch|Hch];
    [rewrite bool_decide_eq_true_2 by done
    |rewrite bool_decide_eq_false_2 by done].
  - destruct candidates as [|k0 rest].
    + destruct (ignore_no_changes self).
      * split; [discriminate|]. split; [by intros _ _ [?|?]|discriminate].
      * split; [discriminate|]. split; [by intros _ _ [?|?]|].
        by intros e [= <-].
    + split; [|split; [by intros _ _ [?|?]|discriminate]].
      intros k [= <-]. left. by apply (Hhead k0 rest).
  - split; [discriminate|]. split; [by intros _ _ [?|?]|].
    by intros e [= <-].
Qed.

End check_key.

(** The roots and leaves that the graph model returns for an app are keys
    of the graph in that app. *)
Lemma view_of_graph {U} (g : gmap ChangeKey (Node U)) unchanged changed ignore :
  ∀ app k,
    k ∈ app_root_nodes (view_of g unchanged changed ignore) app ∨
    k ∈ app_leaf_nodes (view_of g unchanged changed ignore) app →
    in_graph (view_of g unchanged changed ignore) k = true ∧ k.1 = app.
Proof.
  intros app k. simpl. unfold nodes. rewrite dom_fmap_L.
  intros [(n & Hn & _ & Happ)%elem_of_root_nodes
         |(n & Hn & _ & Happ)%elem_of_leaf_nodes];
    simpl in Happ; apply bool_decide_eq_true in Happ;
    (split; [|done]); apply bool_decide_eq_true, elem_of_dom; eauto.
Qed.

Lemma get_change_by_prefix_spec_witness :
  get_change_by_prefix
    (change_unit <$> Examples.blog_graph) "blog" "0002"
  = Ok Examples.c2.
Proof.
  apply (proj1 (get_change_by_prefix_spec
                  (change_unit <$> Examples.blog_graph) "blog" "0002")).
  exists Examples.k2. split; [vm_compute; reflexivity|]. split.
  - split; reflexivity.
  - intros k' Hk' [Happ Hpre].
    rewrite dom_fmap_L in Hk'. apply elem_of_dom in Hk' as [n Hn].
    unfold Examples.blog_graph in Hn.
    apply lookup_insert_Some in Hn as [[<- _]|[_ Hn]]; [done|].
    apply lookup_insert_Some in Hn as [[<- _]|[_ Hn]]; [done|].
    apply lookup_singleton_Some in Hn as [<- _]. done.
Defined.

Lemma check_key_resolves_witness :
  check_key (view_of Examples.blog_graph ∅ {["blog"]} false)
            ("blog", "__latest__") "shop"
  = Ok (Some Examples.k3) ∧
  in_graph (view_of Examples.blog_graph ∅ {["blog"]} false) Examples.k3
  = true.
Proof.
  assert (check_key (view_of Examples.blog_graph ∅ {["blog"]} false)
                    ("blog", "__latest__") "shop" = Ok (Some Examples.k3))
    as Hcheck by (vm_compute; reflexivity).
  split; [exact Hcheck|].
  destruct (proj1 (check_key_resolves
                     (view_of Examples.blog_graph ∅ {["blog"]} false)
                     ("blog", "__latest__") "shop"
                     (view_of_graph Examples.blog_graph ∅ {["blog"]} false))
                  Examples.k3 Hcheck) as [[Hin _]|[_ [_ Hne]]].
  - exact Hin.
  - by destruct Hne.
Defined.

End LoaderLookup.

(** ** executor.py: what [change_plan] returns *)

Module PlanInvariants.
Import Graph Operations Executor PyFacts GraphFacts PlanFacts ChangePlanFacts.

Lemma ordered_set_NoDup (l : list ChangeKey) : NoDup l → ordered_set l = l.
Proof.
  induction 1 as [|x l Hx _ IH]; simpl; [done|].
  rewrite IH. f_equal. clear IH. induction l as [|y l IHl]; [done|].
  apply not_elem_of_cons in Hx as [Hxy Hx].
  rewrite filter_cons, decide_True by congruence. f_equal. by apply IHl.
Qed.

(** The keys that the forwards loop of [change_plan] takes from a list of
    changes: those that are not applied, each at its first occurrence. *)
Definition missing (applied : gset ChangeKey) (changes : list ChangeKey)
    : list ChangeKey :=
  ordered_set (filter (λ c, c ∉ applied) changes).

Lemma missing_cons_out applied c rest :
  c ∉ applied →
  missing applied (c :: rest) = c :: missing ({[c]} ∪ applied) rest.
Proof.
  intros Hc. unfold missing. rewrite filter_cons_True by done.
  simpl. f_equal. rewrite filter_ordered_set, list_filter_filter.
  f_equal. apply list_filter_iff. intros y.
  rewrite not_elem_of_union, elem_of_singleton. naive_solver.
Qed.

Lemma missing_cons_in applied c rest :
  c ∈ applied → missing applied (c :: rest) = missing applied rest.
Proof.
  intros Hc. unfold missing. by rewrite filter_cons_False by naive_solver.
Qed.

Lemma missing_app applied l1 l2 :
  missing applied (l1 ++ l2)
  = missing applied l1 ++ missing (applied ∪ list_to_set l1) l2.
Proof.
  unfold missing. rewrite filter_app, ordered_set_app. f_equal.
  rewrite filter_ordered_set, list_filter_filter. f_equal.
  apply list_filter_iff. intros y.
  rewrite list_elem_of_filter, not_elem_of_union, elem_of_list_to_set.
  naive_solver.
Qed.

Lemma elem_of_missing applied changes k :
  k ∈ missing applied changes ↔ (k ∉ applied) ∧ k ∈ changes.
Proof. unfold missing. by rewrite elem_of_ordered_set, list_elem_of_filter. Qed.

Section plans.
Context {DB PS : Type}.
Implicit Types g : gmap ChangeKey (Node (Change DB PS)).
Implicit Types self : ChangeExecutor DB PS.
Implicit Types plan : Plan DB PS.
Implicit Types applied : gset ChangeKey.

(** Carrying a plan out on an applied set: a forwards entry needs its
    change not to be applied and adds it, a backwards entry needs it to
    be applied and removes it. *)
Definition replay_entry applied (m : Change DB PS * bool)
    : option (gset ChangeKey) :=
  if m.2 then
    if bool_decide (key_of m.1 ∈ applied)
    then Some (applied ∖ {[key_of m.1]}) else None
  else
    if bool_decide (key_of m.1 ∉ applied)
    then Some ({[key_of m.1]} ∪ applied) else None.

Fixpoint replay applied plan : option (gset ChangeKey) :=
  match plan with
  | [] => Some applied
  | m :: rest =>
      match replay_entry applied m with
      | Some applied' => replay applied' rest
      | None => None
      end
  end.

Lemma replay_app applied plan1 plan2 mid final :
  replay applied plan1 = Some mid → replay mid plan2 = Some final →
  replay applied (plan1 ++ plan2) = Some final.
Proof.
  revert applied. induction plan1 as [|m plan1 IH]; intros applied; simpl.
  - by intros [= ->].
  - destruct (replay_entry applied m); [apply IH|discriminate].
Qed.

Lemma getitem_nodes_inv g k (ch : Change DB PS) :
  well_keyed g → getitem (nodes g) k = Ok ch → key_of ch = k.
Proof.
  intros Hkeyed. unfold getitem, nodes. rewrite lookup_fmap.
  destruct (g !! k) as [n|] eqn:Hn; simpl; [|discriminate].
  intros [= <-]. by apply Hkeyed.
Qed.

(** What a loop of [change_plan] adds to the plan can be carried out on
    the applied set it started with, and gives the applied set it ends
    with. *)
Definition extends_by (plan : Plan DB PS) applied
    (st : Plan DB PS * gset ChangeKey) : Prop :=
  ∃ delta, st.1 = plan ++ delta ∧ replay applied delta = Some st.2.

Lemma extends_by_refl plan applied : extends_by plan applied (plan, applied).
Proof. exists []. by rewrite app_nil_r. Qed.

Lemma extends_by_trans plan applied st1 st2 :
  extends_by plan applied st1 → extends_by st1.1 st1.2 st2 →
  extends_by plan applied st2.
Proof.
  intros (d1 & H1 & R1) (d2 & H2 & R2). exists (d1 ++ d2). split.
  - by rewrite H2, H1, app_assoc.
  - by apply (replay_app _ _ _ st1.2).
Qed.

Lemma plan_backwards_extends g changes plan applied st :
  well_keyed g → plan_backwards g changes plan applied = Ok st →
  extends_by plan applied st.
Proof.
  intros Hkeyed. revert plan applied.
  induction changes as [|c rest IH]; intros plan applied; simpl.
  { intros [= <-]. apply extends_by_refl. }
  case_bool_decide as Hc; [|apply IH].
  destruct (getitem (nodes g) c) as [ch|] eqn:Hch; simpl; [|discriminate].
  intros Hrest%IH.
  apply (extends_by_trans _ _ (plan ++ [(ch, true)], applied ∖ {[c]}));
    [|exact Hrest].
  exists [(ch, true)]. split; [done|]. simpl. unfold replay_entry. simpl.
  rewrite (getitem_nodes_inv g c ch) by done.
  by rewrite bool_decide_eq_true_2.
Qed.

Lemma plan_forwards_extends g changes plan applied st :
  well_keyed g → plan_forwards g changes plan applied = Ok st →
  extends_by plan applied st.
Proof.
  intros Hkeyed. revert plan applied.
  induction changes as [|c rest IH]; intros plan applied; simpl.
  { intros [= <-]. apply extends_by_refl. }
  case_bool_decide as Hc; [|apply IH].
  destruct (getitem (nodes g) c) as [ch|] eqn:Hch; simpl; [|discriminate].
  intros Hrest%IH.
  apply (extends_by_trans _ _ (plan ++ [(ch, false)], {[c]} ∪ applied));
    [|exact Hrest].
  exists [(ch, false)]. split; [done|]. simpl. unfold replay_entry. simpl.
  rewrite (getitem_nodes_inv g c ch) by done.
  by rewrite bool_decide_eq_true_2.
Qed.

Lemma plan_backwards_from_extends g starts plan applied st :
  well_keyed g → plan_backwards_from g starts plan applied = Ok st →
  extends_by plan applied st.
Proof.
  intros Hkeyed. revert plan applied.
  induction starts as [|k rest IH]; intros plan applied; simpl.
  { intros [= <-]. apply extends_by_refl. }
  destruct (backwards_plan g k) as [changes|]; simpl; [|discriminate].
  destruct (plan_backwards g changes plan applied) as [st1|] eqn:H1; simpl;
    [|discriminate].
  destruct st1 as [plan1 applied1].
  intros Hrest%IH.
  apply (extends_by_trans _ _ (plan1, applied1)); [|exact Hrest].
  by eapply plan_backwards_extends.
Qed.

Lemma plan_target_extends g (target : Target) plan applied st :
  well_keyed g → plan_target g target plan applied = Ok st →
  extends_by plan applied st.
Proof.
  intros Hkeyed. unfold plan_target.
  destruct target.2 as [nm|]; [|by apply plan_backwards_from_extends].
  case_bool_decide.
  - destruct (getitem (node_map g) (target.1, nm)) as [n|]; simpl;
      [|discriminate].
    by apply plan_backwards_from_extends.
  - destruct (forwards_plan g (target.1, nm)) as [changes|]; simpl;
      [|discriminate].
    by apply plan_forwards_extends.
Qed.

Lemma plan_targets_extends g (targets : list Target) plan applied st :
  well_keyed g → plan_targets g targets plan applied = Ok st →
  extends_by plan applied st.
Proof.
  intros Hkeyed. revert plan applied.
  induction targets as [|t rest IH]; intros plan applied; simpl.
  { intros [= <-]. apply extends_by_refl. }
  destruct (plan_target g t plan applied) as [st1|] eqn:H1; simpl;
    [|discriminate].
  destruct st1 as [plan1 applied1].
  intros Hrest%IH.
  apply (extends_by_trans _ _ (plan1, applied1)); [|exact Hrest].
  by eapply plan_target_extends.
Qed.

(** When the changes of the graph are stored under their own keys, a plan
    that [change_plan] returns, for any targets, can be carried out entry
    by entry from the applied set it started from (the empty set with
    [clean_start]): no forwards entry is for a change that is applied at
    that point of the plan, and no backwards entry for one that is
    not. *)
Theorem change_plan_replays self (targets : list Target) (clean_start : bool)
    plan :
  well_keyed (graph self) →
  change_plan self targets clean_start = Ok plan →
  ∃ final,
    replay (if clean_start then ∅ else applied_changes self) plan
      = Some final.
Proof.
  intros Hkeyed. unfold change_plan.
  destruct (plan_targets (graph self) targets []
              (if clean_start then ∅ else applied_changes self))
    as [st|] eqn:Hst; simpl; [|discriminate].
  intros [= <-].
  apply plan_targets_extends in Hst as (delta & Hdelta & Hreplay); [|done].
  simpl in Hdelta. rewrite Hdelta. by exists st.2.
Qed.

End plans.

Lemma blog_graph_well_keyed : well_keyed Examples.blog_graph.
Proof.
  intros k n Hn. unfold Examples.blog_graph in Hn.
  apply lookup_insert_Some in Hn as [[<- <-]|[_ Hn]]; [done|].
  apply lookup_insert_Some in Hn as [[<- <-]|[_ Hn]]; [done|].
  by apply lookup_singleton_Some in Hn as [<- <-].
Defined.

Lemma change_plan_replays_witness :
  ∃ final,
    replay (applied_changes Examples.blog_executor)
           [(Examples.c3, true)] = Some final.
Proof.
  refine (change_plan_replays Examples.blog_executor
            [("blog", Some "0002_index")] false [(Examples.c3, true)]
            blog_graph_well_keyed _).
  vm_compute. reflexivity.
Defined.

End PlanInvariants.

(** ** executor.py: the shape of the plans *)

Module PlanShapes.
Import Graph Operations Executor PyFacts GraphFacts PlanFacts ChangePlanFacts.
Import PlanInvariants.

(** A list in which every key comes after the keys it depends on, those
    that [seen] holds apart. *)
Fixpoint deps_first (deps : ChangeKey → ChangeKey → Prop)
    (seen : ChangeKey → Prop) (l : list ChangeKey) : Prop :=
  match l with
  | [] => True
  | x :: l' =>
      (∀ p, deps x p → seen p) ∧ deps_first deps (λ y, y = x ∨ seen y) l'
  end.

Lemma deps_first_mono deps (seen seen' : ChangeKey → Prop) l :
  (∀ p, seen p → seen' p) → deps_first deps seen l → deps_first deps seen' l.
Proof.
  revert seen seen'. induction l as [|x l IH]; intros seen seen' Hsub; simpl;
    [done|].
  intros [Hx Hl]. split; [auto|].
  apply (IH (λ y, y = x ∨ seen y)); [|done]. naive_solver.
Qed.

Lemma deps_first_app deps (seen : ChangeKey → Prop) l1 l2 :
  deps_first deps seen l1 →
  deps_first deps (λ y, y ∈ l1 ∨ seen y) l2 →
  deps_first deps seen (l1 ++ l2).
Proof.
  revert seen. induction l1 as [|x l1 IH]; intros seen; simpl.
  - intros _. apply deps_first_mono. intros p [Hp|Hp]; [|done].
    by apply elem_of_nil in Hp.
  - intros [Hx Hl1] Hl2. split; [done|]. apply IH; [done|].
    revert Hl2. apply deps_first_mono. intros p. rewrite elem_of_cons.
    naive_solver.
Qed.

Lemma deps_first_filter deps (seen : ChangeKey → Prop)
    (P : ChangeKey → Prop) `{!∀ x, Decision (P x)} l :
  deps_first deps seen l → (∀ y, y ∈ l → ¬ P y → seen y) →
  deps_first deps seen (filter P l).
Proof.
  revert seen. induction l as [|x l IH]; intros seen; simpl; [done|].
  intros [Hx Hl] Hdrop. rewrite filter_cons.
  destruct (decide (P x)) as [HP|HP]; simpl.
  - split; [done|]. apply IH; [done|].
    intros y Hy HPy. right. apply Hdrop; [by right|done].
  - apply IH.
    + revert Hl. apply deps_first_mono. intros p [->|Hp]; [|done].
      apply Hdrop; [by left|done].
    + intros y Hy HPy. apply Hdrop; [by right|done].
Qed.

Lemma deps_first_ordered_set deps (seen : ChangeKey → Prop) l :
  deps_first deps seen l → deps_first deps seen (ordered_set l).
Proof.
  revert seen. induction l as [|x l IH]; intros seen; simpl; [done|].
  intros [Hx Hl]. split; [done|]. apply deps_first_filter; [by apply IH|].
  intros y _ Hy. left. by destruct (decide (y = x)).
Qed.

Lemma deps_first_concat deps (ls : list (list ChangeKey)) :
  Forall (deps_first deps (λ _, False)) ls →
  deps_first deps (λ _, False) (concat ls).
Proof.
  induction 1 as [|l ls Hl _ IH]; simpl; [done|].
  apply deps_first_app; [done|]. revert IH. apply deps_first_mono. tauto.
Qed.

(** In such a list, what a key depends on stands before it. *)
Lemma deps_first_split deps (seen : ChangeKey → Prop) l1 x l2 p :
  deps_first deps seen (l1 ++ x :: l2) → deps x p → p ∈ l1 ∨ seen p.
Proof.
  revert seen. induction l1 as [|y l1 IH]; intros seen; simpl.
  - intros [Hx _] Hp. right. by apply Hx.
  - intros [_ Hl] Hp. destruct (IH _ Hl Hp) as [Hin|[->|Hseen]].
    + left. by right.
    + left. by left.
    + by right.
Qed.

Section traversal.
Context {U : Type}.
Variable next : Node U → gset ChangeKey.
Variable g : gmap ChangeKey (Node U).

(** The traversal lists every key after its neighbours. *)
Lemma dfs_deps_first fuel path k l :
  dfs next g fuel path k = Ok l →
  deps_first (step next g) (λ _, False) l.
Proof.
  revert path k l. induction fuel as [|fuel IH]; intros path k l Hdfs.
  { discriminate. }
  pose proof Hdfs as Hinv. apply dfs_ok_inv in Hinv
    as (fuel' & n & plans & [= <-] & Hk & Hn & Hplans & ->).
  apply rmap_ok_inv in Hplans.
  apply deps_first_ordered_set, deps_first_app.
  - apply deps_first_concat. apply Forall_forall. intros p Hp.
    destruct (Forall2_elem_of_r _ _ _ _ Hplans Hp) as (c & Hc & Hcp).
    by apply (IH _ _ _ Hcp).
  - simpl. split; [|done]. intros c (n' & Hn' & Hc). left.
    assert (n' = n) as -> by congruence.
    destruct (Forall2_elem_of_l _ _ _ c Hplans) as (p & Hp & Hcp).
    { by apply elem_of_sorted, elem_of_elements. }
    apply elem_of_concat. exists p. split; [|done].
    by apply (dfs_sound _ _ _ _ _ _ Hcp).
Qed.

(** The first key of a plan has no neighbour. *)
Lemma dfs_head fuel path k l :
  dfs next g fuel path k = Ok l →
  ∃ x n rest, l = x :: rest ∧ g !! x = Some n ∧ next n = ∅.
Proof.
  revert path k l. induction fuel as [|fuel IH]; intros path k l Hdfs.
  { discriminate. }
  apply dfs_ok_inv in Hdfs
    as (fuel' & n & plans & [= <-] & Hk & Hn & Hplans & ->).
  destruct (sorted (elements (next n))) as [|c cs] eqn:Hsorted.
  - simpl in Hplans. injection Hplans as <-. exists k, n, []. simpl.
    split; [done|]. split; [done|].
    apply leibniz_equiv, elements_empty_inv.
    apply Permutation_nil_r. rewrite <- Hsorted. symmetry. apply sorted_perm.
  - simpl in Hplans.
    destruct (dfs next g fuel (k :: path) c) as [p|] eqn:Hp; simpl in Hplans;
      [|discriminate].
    destruct (rmap (dfs next g fuel (k :: path)) cs) as [ps|]; simpl in Hplans;
      [|discriminate].
    injection Hplans as <-.
    destruct (IH _ _ _ Hp) as (x & nx & rest & -> & Hx & Hnone).
    exists x, nx. simpl. eauto.
Qed.

End traversal.

Section shapes.
Context {DB PS : Type}.
Implicit Types g : gmap ChangeKey (Node (Change DB PS)).
Implicit Types self : ChangeExecutor DB PS.
Implicit Types plan : Plan DB PS.
Implicit Types applied : gset ChangeKey.

(** The keys of the changes of a plan, in its order. *)
Definition plan_keys plan : list ChangeKey := (λ m, key_of m.1) <$> plan.

(** The plan entries for a list of keys: the change instances of the
    graph, marked forwards. *)
Definition forwards_entries g (ks : list ChangeKey) : Plan DB PS :=
  omap (λ k, (λ n, (change_unit n, false)) <$> g !! k) ks.

Lemma plan_keys_forwards_entries g ks :
  well_keyed g → (∀ k, k ∈ ks → is_Some (g !! k)) →
  plan_keys (forwards_entries g ks) = ks.
Proof.
  intros Hkeyed. induction ks as [|k ks IH]; intros Hall; [done|].
  destruct (Hall k) as [n Hn]; [by left|].
  unfold forwards_entries, plan_keys. simpl. rewrite Hn. simpl.
  rewrite (Hkeyed k n Hn). f_equal. apply IH.
  intros k' Hk'. apply Hall. by right.
Qed.

Lemma plan_keys_backwards_entries g ks :
  well_keyed g → (∀ k, k ∈ ks → is_Some (g !! k)) →
  plan_keys (backwards_entries g ks) = ks.
Proof.
  intros Hkeyed. induction ks as [|k ks IH]; intros Hall; [done|].
  destruct (Hall k) as [n Hn]; [by left|].
  unfold backwards_entries, plan_keys. simpl. rewrite Hn. simpl.
  rewrite (Hkeyed k n Hn). f_equal. apply IH.
  intros k' Hk'. apply Hall. by right.
Qed.

Lemma forwards_entries_flags g ks :
  Forall (λ m, m.2 = false) (forwards_entries g ks).
Proof.
  apply Forall_forall. intros m (k & _ & Hm)%list_elem_of_omap.
  destruct (g !! k); simpl in Hm; [|discriminate]. by injection Hm as <-.
Qed.

Lemma backwards_entries_flags g ks :
  Forall (λ m, m.2 = true) (backwards_entries g ks).
Proof.
  apply Forall_forall. intros m Hm.
  by apply elem_of_backwards_entries in Hm as [Hm _].
Qed.

Lemma plan_forwards_spec g changes plan applied :
  (∀ c, c ∈ changes → c ∉ applied → is_Some (g !! c)) →
  plan_forwards g changes plan applied
  = Ok (plan ++ forwards_entries g (missing applied changes),
        applied ∪ list_to_set changes).
Proof.
  revert plan applied.
  induction changes as [|c rest IH]; intros plan applied Hall; simpl.
  { f_equal. f_equal; [by rewrite app_nil_r|set_solver]. }
  case_bool_decide as Hc.
  - destruct (Hall c) as [n Hn]; [by left|done|].
    rewrite (getitem_nodes g c n Hn). simpl.
    rewrite IH.
    + rewrite missing_cons_out by done. unfold forwards_entries at 2. simpl.
      rewrite Hn. simpl. rewrite <- app_assoc. simpl.
      do 2 f_equal. set_solver.
    + intros c' Hc' [_ Happ]%not_elem_of_union. apply Hall; [by right|done].
  - assert (c ∈ applied) as Hin by exact Hc.
    rewrite IH.
    + rewrite missing_cons_in by done. do 2 f_equal. set_solver.
    + intros c' Hc' Happ. apply Hall; [by right|done].
Qed.

(** Edges against the steps of the forwards traversal. *)
Lemma edge_step_parents g p c :
  consistent g → edge g p c → step parents g c p.
Proof.
  intros Hg Hpc. unfold edge, has_child in Hpc.
  destruct (g !! p) as [n|] eqn:Hn; [|done].
  destruct (Hg p n Hn) as [_ Hch]. specialize (Hch c Hpc).
  unfold has_parent in Hch. destruct (g !! c) as [n'|] eqn:Hn'; [|done].
  by exists n'.
Qed.

Lemma rtc_step_parents g a b :
  consistent g → rtc (step parents g) a b ↔ rtc (edge g) b a.
Proof.
  intros Hg. split.
  - induction 1 as [|x y z Hxy _ IH]; [apply rtc_refl|].
    eapply rtc_r; [exact IH|]. by apply step_parents_edge.
  - induction 1 as [|x y z Hxy _ IH]; [apply rtc_refl|].
    eapply rtc_r; [exact IH|]. by apply edge_step_parents.
Qed.

Lemma elem_of_forwards_plan g k l x :
  consistent g → forwards_plan g k = Ok l → x ∈ l ↔ rtc (edge g) x k.
Proof.
  intros Hg Hl. rewrite <- rtc_step_parents by done. split.
  - by apply (dfs_sound _ _ _ _ _ _ Hl).
  - by apply (dfs_complete _ _ _ _ _ _ _ Hl).
Qed.

(** The forwards branch.  For a target that is a node of a consistent
    acyclic graph, with the changes stored under their own keys, and is
    not applied, the plan is made of forwards entries only, one for the
    target and for each of its ancestors that is not applied, and in it
    every change comes after those of its parents that the plan holds:
    a parent of a change of the plan is applied already or stands before
    it. *)
Theorem change_plan_unapplied_target self (app nm : string) :
  consistent (graph self) → acyclic (graph self) → well_keyed (graph self) →
  is_Some (graph self !! (app, nm)) →
  (app, nm) ∉ applied_changes self →
  ∃ plan,
    change_plan self [(app, Some nm)] false = Ok plan ∧
    Forall (λ m, m.2 = false) plan ∧
    NoDup (plan_keys plan) ∧
    (∀ k, k ∈ plan_keys plan ↔
          (k ∉ applied_changes self) ∧ rtc (edge (graph self)) k (app, nm)) ∧
    (∀ l1 k l2 p,
       plan_keys plan = l1 ++ k :: l2 → edge (graph self) p k →
       p ∈ l1 ∨ p ∈ applied_changes self).
Proof.
  intros Hg Hacyc Hkeyed Hnode Hnot.
  destruct (forwards_plan_total (graph self) (app, nm) Hg Hacyc Hnode)
    as [fp Hfp].
  assert (∀ c, c ∈ fp → is_Some (graph self !! c)) as Hnodes.
  { intros c. by apply (forwards_plan_is_Some (graph self) (app, nm) fp). }
  exists (forwards_entries (graph self) (missing (applied_changes self) fp)).
  assert (plan_keys (forwards_entries (graph self)
                       (missing (applied_changes self) fp))
          = missing (applied_changes self) fp) as Hkeys.
  { apply plan_keys_forwards_entries; [done|].
    intros k [_ Hk]%elem_of_missing. by apply Hnodes. }
  rewrite Hkeys. split; [|split; [|split; [|split]]].
  - unfold change_plan. simpl. unfold plan_target. simpl.
    rewrite bool_decide_eq_false_2 by done. rewrite Hfp. simpl.
    rewrite plan_forwards_spec by (intros c Hc _; by apply Hnodes). done.
  - apply forwards_entries_flags.
  - apply NoDup_ordered_set.
  - intros k. rewrite elem_of_missing.
    by rewrite (elem_of_forwards_plan (graph self) (app, nm) fp).
  - intros l1 k l2 p Hsplit Hedge.
    apply (deps_first_split (step parents (graph self))
             (λ y, y ∈ applied_changes self) l1 k l2 p).
    + rewrite <- Hsplit. unfold missing.
      apply deps_first_ordered_set, deps_first_filter.
      * apply (deps_first_mono _ (λ _, False)); [done|].
        by apply (dfs_deps_first _ _ _ _ _ _ Hfp).
      * intros y _ Hy. destruct (decide (y ∈ applied_changes self)); [done|].
        by destruct Hy.
    + by apply edge_step_parents.
Qed.

(** The branch that unapplies an app.  For a target [(app, None)] on a
    consistent acyclic graph, with the changes stored under their own
    keys, the plan is made of backwards entries only, one for each
    applied change that is a root of the app or a descendant of one, and
    in it every change comes after those of its children that the plan
    holds: a child of a change of the plan is not applied or stands
    before it. *)
Theorem change_plan_unapply_app self (app : string) :
  consistent (graph self) → acyclic (graph self) → well_keyed (graph self) →
  ∃ plan,
    change_plan self [(app, None)] false = Ok plan ∧
    Forall (λ m, m.2 = true) plan ∧
    NoDup (plan_keys plan) ∧
    (∀ k, k ∈ plan_keys plan ↔
          k ∈ applied_changes self ∧
          ∃ r n, graph self !! r = Some n ∧ parents n = ∅ ∧ r.1 = app ∧
                 rtc (edge (graph self)) r k) ∧
    (∀ l1 k l2 c,
       plan_keys plan = l1 ++ k :: l2 → edge (graph self) k c →
       c ∈ l1 ∨ c ∉ applied_changes self).
Proof.
  intros Hg Hacyc Hkeyed.
  set (roots := filter (λ root : ChangeKey, root.1 = app)
                       (root_nodes (graph self) None)).
  assert (∀ r, r ∈ roots ↔
               ∃ n, graph self !! r = Some n ∧ parents n = ∅ ∧ r.1 = app)
    as Hroots.
  { intros r. unfold roots.
    rewrite list_elem_of_filter, elem_of_root_nodes. simpl. naive_solver. }
  destruct (rmap_ok (backwards_plan (graph self)) roots) as [plans Hplans].
  { intros r (n & Hn & _)%Hroots. apply backwards_plan_total; eauto. }
  pose proof (rmap_ok_inv _ _ _ Hplans) as Hall.
  assert (∀ c, c ∈ concat plans → is_Some (graph self !! c)) as Hnodes.
  { intros c (p & Hc & Hp)%elem_of_concat.
    destruct (Forall2_elem_of_r _ _ _ _ Hall Hp) as (r & Hr & Hrp).
    by apply (backwards_plan_is_Some (graph self) r p). }
  exists (backwards_entries (graph self)
            (taken (applied_changes self) (concat plans))).
  assert (plan_keys (backwards_entries (graph self)
                       (taken (applied_changes self) (concat plans)))
          = taken (applied_changes self) (concat plans)) as Hkeys.
  { apply plan_keys_backwards_entries; [done|].
    intros k [_ Hk]%elem_of_taken. by apply Hnodes. }
  rewrite Hkeys. split; [|split; [|split; [|split]]].
  - unfold change_plan. simpl. unfold plan_target. simpl. fold roots.
    by rewrite (plan_backwards_from_spec _ _ plans).
  - apply backwards_entries_flags.
  - apply NoDup_taken.
  - intros k. rewrite elem_of_taken, elem_of_concat.
    split; intros [Happlied Hk]; (split; [done|]).
    + destruct Hk as (p & Hkp & Hp).
      destruct (Forall2_elem_of_r _ _ _ _ Hall Hp) as (r & Hr & Hrp).
      apply Hroots in Hr as (n & Hn & Hroot & Happ).
      exists r, n. repeat split; try done.
      by apply (elem_of_backwards_plan (graph self) r p).
    + destruct Hk as (r & n & Hn & Hroot & Happ & Hreach).
      destruct (Forall2_elem_of_l _ _ _ r Hall) as (p & Hp & Hrp).
      { apply Hroots. eauto. }
      exists p. split; [|done].
      by apply (elem_of_backwards_plan (graph self) r p).
  - intros l1 k l2 c Hsplit Hedge.
    apply (deps_first_split (step children (graph self))
             (λ y, y ∉ applied_changes self) l1 k l2 c).
    + rewrite <- Hsplit. unfold taken.
      apply deps_first_ordered_set, deps_first_filter; [|done].
      apply (deps_first_mono _ (λ _, False)); [done|].
      apply deps_first_concat, Forall_forall. intros p Hp.
      destruct (Forall2_elem_of_r _ _ _ _ Hall Hp) as (r & Hr & Hrp).
      by apply (dfs_deps_first _ _ _ _ _ _ Hrp).
    + by apply step_children.
Qed.

(** The loop of [change_plan] over leaf targets, from an applied set that
    holds the ancestors of its members. *)
Lemma plan_targets_leaf_targets g (ks : list ChangeKey) fps plan applied :
  (∀ k, k ∈ ks → ∃ n, g !! k = Some n ∧ children n = ∅) →
  rmap (forwards_plan g) ks = Ok fps →
  (∀ c, c ∈ concat fps → is_Some (g !! c)) →
  (∀ x p, x ∈ applied → rtc (step parents g) x p → p ∈ applied) →
  plan_targets g (target_of_key <$> ks) plan applied
  = Ok (plan ++ forwards_entries g (missing applied (concat fps)),
        applied ∪ list_to_set (concat fps)).
Proof.
  revert fps plan applied.
  induction ks as [|[app nm] ks IH]; intros fps plan applied Hleaves; simpl.
  { intros [= <-] _ _. simpl. f_equal. f_equal; [by rewrite app_nil_r|].
    set_solver. }
  destruct (forwards_plan g (app, nm)) as [fp|] eqn:Hfp; simpl;
    [|discriminate].
  destruct (rmap (forwards_plan g) ks) as [fps'|] eqn:Hfps; simpl;
    [|discriminate].
  intros [= <-] Hnodes Hclosed. simpl in Hnodes.
  assert (∀ x, x ∈ fp ↔ rtc (step parents g) (app, nm) x) as Hfp_elem.
  { intros x. split.
    - by apply (dfs_sound _ _ _ _ _ _ Hfp).
    - by apply (dfs_complete _ _ _ _ _ _ _ Hfp). }
  assert (∀ k, k ∈ ks → ∃ n, g !! k = Some n ∧ children n = ∅) as Hleaves'.
  { intros k Hk. apply Hleaves. by right. }
  assert (∀ c, c ∈ concat fps' → is_Some (g !! c)) as Hnodes'.
  { intros c Hc. apply Hnodes, elem_of_app. by right. }
  unfold plan_target. simpl.
  destruct (decide ((app, nm) ∈ applied)) as [Hin|Hout].
  - rewrite bool_decide_eq_true_2 by done.
    destruct (Hleaves (app, nm)) as (n & Hn & Hleaf); [by left|].
    unfold node_map, getitem. rewrite Hn. simpl.
    rewrite next_in_app_leaf by done. simpl.
    assert (∀ x, x ∈ fp → x ∈ applied) as Hsub.
    { intros x Hx%Hfp_elem. by apply (Hclosed (app, nm)). }
    etrans; [exact (IH fps' plan applied Hleaves' eq_refl Hnodes' Hclosed)|].
    rewrite missing_app.
    assert (missing applied fp = []) as ->.
    { unfold missing.
      assert (filter (λ c, c ∉ applied) fp = []) as ->; [|done].
      clear -Hsub. induction fp as [|x fp IHfp]; [done|].
      rewrite filter_cons_False by (intros Hx; apply Hx, Hsub; by left).
      apply IHfp. intros y Hy. apply Hsub. by right. }
    assert (applied ∪ list_to_set fp = applied) as Heq.
    { apply set_eq. intros y. rewrite elem_of_union, elem_of_list_to_set.
      naive_solver. }
    rewrite Heq. simpl. do 2 f_equal.
    rewrite list_to_set_app_L. set_solver.
  - rewrite bool_decide_eq_false_2 by done. rewrite Hfp. simpl.
    rewrite plan_forwards_spec
      by (intros c Hc _; apply Hnodes, elem_of_app; by left).
    simpl.
    etrans; [apply (IH fps' _ _ Hleaves' eq_refl Hnodes')|].
    2:{ rewrite missing_app. unfold forwards_entries.
        rewrite omap_app, <- app_assoc. do 2 f_equal.
        rewrite list_to_set_app_L. set_solver. }
    intros x p [Hx|Hx%elem_of_list_to_set%Hfp_elem]%elem_of_union Hreach.
    + apply elem_of_union. left. by apply (Hclosed x).
    + apply elem_of_union. right. apply elem_of_list_to_set, Hfp_elem.
      by etrans.
Qed.

(** In a consistent acyclic graph every node reaches a leaf. *)
Lemma node_reaches_leaf g k :
  consistent g → acyclic g → is_Some (g !! k) →
  ∃ x n, rtc (edge g) k x ∧ g !! x = Some n ∧ children n = ∅.
Proof.
  intros Hg Hacyc Hk.
  destruct (backwards_plan_total g k Hg Hacyc Hk) as [l Hl].
  destruct (dfs_head _ _ _ _ _ _ Hl) as (x & n & rest & -> & Hx & Hleaf).
  exists x, n. split; [|done].
  apply (elem_of_backwards_plan g k (x :: rest)); [done|by left].
Qed.

(** The full plan in closed form: the forwards plans of the leaves, one
    after the other, each key at its first occurrence. *)
Lemma full_plan_of_closed_form self :
  consistent (graph self) → acyclic (graph self) →
  ∃ fps,
    rmap (forwards_plan (graph self)) (leaf_nodes (graph self) None) = Ok fps ∧
    (∀ c, c ∈ concat fps → is_Some (graph self !! c)) ∧
    full_plan_of self
      = Ok (forwards_entries (graph self) (ordered_set (concat fps))).
Proof.
  intros Hg Hacyc.
  destruct (rmap_ok (forwards_plan (graph self))
              (leaf_nodes (graph self) None)) as [fps Hfps].
  { intros k (n & Hn & _)%elem_of_leaf_nodes.
    apply forwards_plan_total; eauto. }
  pose proof (rmap_ok_inv _ _ _ Hfps) as Hall.
  assert (∀ c, c ∈ concat fps → is_Some (graph self !! c)) as Hnodes.
  { intros c (p & Hc & Hp)%elem_of_concat.
    destruct (Forall2_elem_of_r _ _ _ _ Hall Hp) as (r & Hr & Hrp).
    by apply (forwards_plan_is_Some (graph self) r p). }
  exists fps. split; [done|]. split; [done|].
  unfold full_plan_of, change_plan.
  rewrite (plan_targets_leaf_targets _ _ fps); try done.
  - simpl. unfold missing. by rewrite filter_all by set_solver.
  - intros k (n & Hn & Hleaf & _)%elem_of_leaf_nodes. eauto.
Qed.

(** The full plan.  On a consistent acyclic graph, with the changes
    stored under their own keys, the plan towards the leaf nodes from a
    clean start exists, is made of forwards entries only, holds every
    change of the graph, each once, and no other, and holds every change
    after all of its parents. *)
Theorem full_plan_of_covers_graph self :
  consistent (graph self) → acyclic (graph self) → well_keyed (graph self) →
  ∃ plan,
    full_plan_of self = Ok plan ∧
    Forall (λ m, m.2 = false) plan ∧
    NoDup (plan_keys plan) ∧
    (∀ k, k ∈ plan_keys plan ↔ k ∈ dom (graph self)) ∧
    (∀ l1 k l2 p,
       plan_keys plan = l1 ++ k :: l2 → edge (graph self) p k → p ∈ l1).
Proof.
  intros Hg Hacyc Hkeyed.
  destruct (full_plan_of_closed_form self Hg Hacyc)
    as (fps & Hfps & Hnodes & Hplan).
  pose proof (rmap_ok_inv _ _ _ Hfps) as Hall.
  exists (forwards_entries (graph self) (ordered_set (concat fps))).
  assert (plan_keys (forwards_entries (graph self)
                       (ordered_set (concat fps)))
          = ordered_set (concat fps)) as Hkeys.
  { apply plan_keys_forwards_entries; [done|].
    intros k Hk. rewrite elem_of_ordered_set in Hk. by apply Hnodes. }
  rewrite Hkeys. split; [exact Hplan|]. split; [|split; [|split]].
  - apply forwards_entries_flags.
  - apply NoDup_ordered_set.
  - intros k. rewrite elem_of_ordered_set, elem_of_dom. split.
    + apply Hnodes.
    + intros Hk.
      destruct (node_reaches_leaf (graph self) k Hg Hacyc Hk)
        as (x & n & Hreach & Hx & Hleaf).
      destruct (Forall2_elem_of_l _ _ _ x Hall) as (p & Hp & Hxp).
      { apply elem_of_leaf_nodes. by exists n. }
      apply elem_of_concat. exists p. split; [|done].
      by apply (elem_of_forwards_plan (graph self) x p).
  - intros l1 k l2 p Hsplit Hedge.
    destruct (deps_first_split (step parents (graph self))
                (λ _, False) l1 k l2 p) as [Hin|[]]; [| |done].
    + rewrite <- Hsplit.
      apply deps_first_ordered_set, deps_first_concat, Forall_forall.
      intros fp Hfp.
      destruct (Forall2_elem_of_r _ _ _ _ Hall Hfp) as (r & Hr & Hrp).
      by apply (dfs_deps_first _ _ _ _ _ _ Hrp).
    + by apply edge_step_parents.
Qed.

End shapes.

(** The executor of a database on which only the first change of the
    chain is applied. *)
Definition half_executor : ChangeExecutor nat Examples.StubState :=
  {| graph := Examples.blog_graph;
     applied_changes := {[Examples.k1]};
     unchanged_apps := ["auth"];
     progress_callback := true |}.

Lemma change_plan_unapplied_target_witness :
  ∃ plan,
    change_plan half_executor [("blog", Some "0003_slug")] false = Ok plan ∧
    Forall (λ m, m.2 = false) plan ∧
    NoDup (plan_keys plan) ∧
    (∀ k, k ∈ plan_keys plan ↔
          (k ∉ applied_changes half_executor) ∧
          rtc (edge (graph half_executor)) k ("blog", "0003_slug")) ∧
    (∀ l1 k l2 p,
       plan_keys plan = l1 ++ k :: l2 → edge (graph half_executor) p k →
       p ∈ l1 ∨ p ∈ applied_changes half_executor).
Proof.
  apply (change_plan_unapplied_target half_executor "blog" "0003_slug"
           Examples.blog_graph_consistent Examples.blog_graph_acyclic
           blog_graph_well_keyed).
  - apply (bool_decide_unpack _). vm_compute. exact I.
  - apply (bool_decide_unpack _). vm_compute. exact I.
Defined.

Example change_plan_half_executor :
  change_plan half_executor [("blog", Some "0003_slug")] false
  = Ok [(Examples.c2, false); (Examples.c3, false)].
Proof. by vm_compute. Qed.

Lemma change_plan_unapply_app_witness :
  ∃ plan,
    change_plan Examples.blog_executor [("blog", None)] false = Ok plan ∧
    Forall (λ m, m.2 = true) plan ∧
    NoDup (plan_keys plan) ∧
    (∀ k, k ∈ plan_keys plan ↔
          k ∈ applied_changes Examples.blog_executor ∧
          ∃ r n, graph Examples.blog_executor !! r = Some n ∧
                 parents n = ∅ ∧ r.1 = "blog" ∧
                 rtc (edge (graph Examples.blog_executor)) r k) ∧
    (∀ l1 k l2 c,
       plan_keys plan = l1 ++ k :: l2 →
       edge (graph Examples.blog_executor) k c →
       c ∈ l1 ∨ c ∉ applied_changes Examples.blog_executor).
Proof.
  exact (change_plan_unapply_app Examples.blog_executor "blog"
           Examples.blog_graph_consistent Examples.blog_graph_acyclic
           blog_graph_well_keyed).
Defined.

Example change_plan_unapply_blog :
  change_plan Examples.blog_executor [("blog", None)] false
  = Ok [(Examples.c3, true); (Examples.c2, true); (Examples.c1, true)].
Proof. by vm_compute. Qed.

Lemma full_plan_of_covers_graph_witness :
  ∃ plan,
    full_plan_of Examples.blog_executor = Ok plan ∧
    Forall (λ m, m.2 = false) plan ∧
    NoDup (plan_keys plan) ∧
    (∀ k, k ∈ plan_keys plan ↔ k ∈ dom (graph Examples.blog_executor)) ∧
    (∀ l1 k l2 p,
       plan_keys plan = l1 ++ k :: l2 →
       edge (graph Examples.blog_executor) p k → p ∈ l1).
Proof.
  exact (full_plan_of_covers_graph Examples.blog_executor
           Examples.blog_graph_consistent Examples.blog_graph_acyclic
           blog_graph_well_keyed).
Defined.

End PlanShapes.

(** ** executor.py: the runs *)

Module RunFacts.
Import Graph Operations Executor PyFacts GraphFacts PlanFacts ChangePlanFacts.
Import ExecutorFacts PlanInvariants PlanShapes.

Lemma taken_empty (changes : list ChangeKey) : taken ∅ changes = [].
Proof.
  apply elem_of_nil_inv. intros k [Hk _]%elem_of_taken. set_solver.
Qed.

Lemma taken_all (applied : gset ChangeKey) (changes : list ChangeKey) :
  NoDup changes → (∀ c, c ∈ changes → c ∈ applied) →
  taken applied changes = changes.
Proof.
  intros Hnd Hall. unfold taken.
  rewrite <- filter_ordered_set, ordered_set_NoDup by done.
  clear Hnd. induction changes as [|c changes IH]; [done|].
  rewrite filter_cons_True by (apply Hall; by left).
  f_equal. apply IH. intros c' Hc'. apply Hall. by right.
Qed.

Section runs.
Context {DB PS : Type} `{!Backend DB} `{!ProjectStateOps PS}.
Implicit Types self : ChangeExecutor DB PS.
Implicit Types c : Change DB PS.
Implicit Types w : World DB.
Implicit Types plan : Plan DB PS.

Ltac unfold_run :=
  unfold apply_change, unapply_change, bind, on_store, on_db, ret, lift,
    attr_of;
  rewrite ?notify_eq; simpl.

Lemma heard_app self evs1 evs2 :
  heard self evs1 ++ heard self evs2 = heard self (evs1 ++ evs2).
Proof. unfold heard. by destruct (progress_callback self). Qed.

(** What [apply_change] does to the record and to the database. *)
Lemma apply_change_effect self (state : PS) c (fake : bool) w :
  let run := apply_change self state c fake w in
  (fake = true → db run.2 = db w) ∧
  match run.1 with
  | Ok _ =>
      Recorder.rows (store run.2) = Recorder.rows (store w) ++ [key_of c]
  | Raise _ => Recorder.rows (store run.2) = Recorder.rows (store w)
  end.
Proof.
  unfold_run. destruct fake; simpl.
  - destruct (Recorder.record_applied (app_label c) (name c) (store w))
      as [[[]|e] s'] eqn:Hrec; simpl; rewrite ?notify_eq; simpl.
    + by apply RecorderFacts.record_applied_ok in Hrec as (_ & -> & _).
    + by apply RecorderFacts.record_applied_raise in Hrec as ->.
  - split; [discriminate|].
    destruct (apply c state (db w)) as [[st|e] d] eqn:Happ; simpl; [|done].
    destruct (Recorder.record_applied (app_label c) (name c) (store w))
      as [[[]|e] s'] eqn:Hrec; simpl; rewrite ?notify_eq; simpl.
    + by apply RecorderFacts.record_applied_ok in Hrec as (_ & -> & _).
    + by apply RecorderFacts.record_applied_raise in Hrec as ->.
Qed.

Lemma apply_change_fake self (state : PS) c w :
  Recorder.db_table ∈ Recorder.table_names (store w) →
  apply_change self state c true w =
  (Ok state,
   {| store := {| Recorder.table_names := Recorder.table_names (store w);
                  Recorder.rows := Recorder.rows (store w) ++ [key_of c];
                  Recorder.ddl_refused := Recorder.ddl_refused (store w) |};
      db := db w;
      progress := progress w ++
        heard self [apply_start (key_of c) true;
                    apply_success (key_of c) true] |}).
Proof.
  intros Htable. unfold_run.
  rewrite RecorderFacts.record_applied_present by done.
  simpl. rewrite ?notify_eq. simpl.
  by rewrite <- app_assoc, heard_app.
Qed.

Lemma unapply_change_fake self (state : PS) c w :
  Recorder.db_table ∈ Recorder.table_names (store w) →
  unapply_change self state c true w =
  (Ok state,
   {| store := {| Recorder.table_names := Recorder.table_names (store w);
                  Recorder.rows :=
                    filter (λ k, k ≠ key_of c) (Recorder.rows (store w));
                  Recorder.ddl_refused := Recorder.ddl_refused (store w) |};
      db := db w;
      progress := progress w ++
        heard self [unapply_start (key_of c) true;
                    unapply_success (key_of c) true] |}).
Proof.
  intros Htable. unfold_run.
  rewrite RecorderFacts.record_unapplied_present by done.
  simpl. rewrite ?notify_eq. simpl.
  by rewrite <- app_assoc, heard_app.
Qed.

(** [if 'apps' not in state.__dict__: ...; state.apps; ...] of the
    forwards loop: it renders, and tells the callback. *)
Definition render_step self (state : PS) : M (World DB) PS :=
  if has_apps state then ret state
  else (notify self render_start ;;
        notify self render_success ;;
        ret (render_apps state))%py.

Lemma render_step_eq self (state : PS) w :
  render_step self state w =
  (Ok (if has_apps state then state else render_apps state),
   {| store := store w; db := db w;
      progress := progress w ++
        (if has_apps state then []
         else heard self [render_start; render_success]) |}).
Proof.
  unfold render_step. destruct (has_apps state).
  - unfold ret. rewrite app_nil_r. by destruct w.
  - unfold bind, ret. rewrite !notify_eq. simpl.
    by rewrite <- app_assoc, heard_app.
Qed.

Lemma forwards_loop_cons_in self c (b : bool) (rest : Plan DB PS)
    (fake : bool)
    (state : PS) (todo : gset ChangeKey) :
  key_of c ∈ todo →
  forwards_loop self ((c, b) :: rest) fake state todo =
  (state1 <- render_step self state ;;
   state2 <- apply_change self state1 c fake ;;
   forwards_loop self rest fake state2 (todo ∖ {[key_of c]}))%py.
Proof.
  intros Hin. simpl.
  rewrite bool_decide_eq_false_2 by set_solver.
  by rewrite bool_decide_eq_true_2 by done.
Qed.

(** The rows that the forwards loop appends. *)
Lemma forwards_loop_rows self (full_plan : Plan DB PS) (fake : bool)
    (state : PS) (todo : gset ChangeKey) w (r : result PS) w' :
  forwards_loop self full_plan fake state todo w = (r, w') →
  ∃ recorded,
    Recorder.rows (store w') = Recorder.rows (store w) ++ recorded ∧
    recorded `prefix_of` taken todo (plan_keys full_plan) ∧
    (is_ok r = true → recorded = taken todo (plan_keys full_plan)) ∧
    (fake = true → db w' = db w).
Proof.
  revert state todo w.
  induction full_plan as [|[c b] rest IH]; intros state todo w.
  { intros [= <- <-]. exists []. simpl. by rewrite app_nil_r. }
  destruct (decide (todo = ∅)) as [->|Hne].
  { simpl. rewrite bool_decide_eq_true_2 by done. intros [= <- <-].
    exists []. rewrite app_nil_r. repeat split; try done.
    - apply prefix_nil.
    - intros _. symmetry. apply (taken_empty (key_of c :: plan_keys rest)). }
  change (plan_keys ((c, b) :: rest)) with (key_of c :: plan_keys rest).
  destruct (decide (key_of c ∈ todo)) as [Hin|Hout].
  - rewrite forwards_loop_cons_in by done.
    unfold bind at 1. rewrite render_step_eq.
    set (w1 := {| store := store w |}).
    set (state1 := if has_apps state then state else render_apps state).
    unfold bind at 1.
    pose proof (apply_change_effect self state1 c fake w1) as Heff.
    destruct (apply_change self state1 c fake w1) as [[state2|e] w2];
      simpl in Heff; destruct Heff as [Hdb Hrows].
    + intros Hrest.
      destruct (IH state2 (todo ∖ {[key_of c]}) w2 Hrest)
        as (recorded & Hrec & Hpre & Hall & Hdb').
      exists (key_of c :: recorded).
      rewrite taken_cons_in by done. repeat split.
      * rewrite Hrec, Hrows. simpl. by rewrite <- app_assoc.
      * by apply prefix_cons.
      * intros Hok. f_equal. by apply Hall.
      * intros Hfake. rewrite Hdb' by done. by apply Hdb.
    + intros [= <- <-]. exists []. rewrite app_nil_r.
      repeat split; try done. apply prefix_nil.
  - simpl. rewrite bool_decide_eq_false_2 by done.
    rewrite bool_decide_eq_false_2 by done.
    rewrite taken_cons_out by done. apply IH.
Qed.

(** A faked forwards loop returns when the changelog table exists. *)
Lemma forwards_loop_fake_ok self (full_plan : Plan DB PS) (state : PS)
    (todo : gset ChangeKey) w :
  Recorder.db_table ∈ Recorder.table_names (store w) →
  is_ok (forwards_loop self full_plan true state todo w).1 = true.
Proof.
  revert state todo w.
  induction full_plan as [|[c b] rest IH]; intros state todo w Htable;
    [done|].
  destruct (decide (todo = ∅)) as [->|Hne].
  { simpl. by rewrite bool_decide_eq_true_2 by done. }
  destruct (decide (key_of c ∈ todo)) as [Hin|Hout].
  - rewrite forwards_loop_cons_in by done.
    unfold bind at 1. rewrite render_step_eq.
    unfold bind at 1. rewrite apply_change_fake by done.
    by apply IH.
  - simpl. rewrite bool_decide_eq_false_2 by done.
    rewrite bool_decide_eq_false_2 by done. by apply IH.
Qed.

(** What a forwards run does to the record and to the database. *)
Lemma _change_all_forwards_rows self (state : PS)
    (plan full_plan : Plan DB PS) (fake : bool) w :
  let run := _change_all_forwards self state plan full_plan fake w in
  let todo := taken (list_to_set (plan_keys plan)) (plan_keys full_plan) in
  ∃ recorded,
    Recorder.rows (store run.2) = Recorder.rows (store w) ++ recorded ∧
    recorded `prefix_of` todo ∧
    (is_ok run.1 = true → recorded = todo) ∧
    (fake = true → db run.2 = db w) ∧
    (fake = true → Recorder.db_table ∈ Recorder.table_names (store w) →
     is_ok run.1 = true).
Proof.
  intros run todo.
  assert (fake = true → Recorder.db_table ∈ Recorder.table_names (store w) →
          is_ok run.1 = true) as Hfake.
  { intros -> Htable. by apply forwards_loop_fake_ok. }
  subst run.
  destruct (_change_all_forwards self state plan full_plan fake w)
    as [r w'] eqn:Hrun.
  destruct (forwards_loop_rows _ _ _ _ _ _ _ _ Hrun)
    as (recorded & Hrows & Hpre & Hall & Hdb).
  by exists recorded.
Qed.

(** A forwards run records the changes in the order of the full plan,
    not of the plan that it was given, and only those that both hold:
    whatever its outcome, the rows of the record are those before the run
    followed by a prefix of the planned changes that the full plan holds,
    in the order of the full plan and each once, and by all of them when
    the run returns.  Nothing is taken away again after a failure.  A
    faked run leaves the database as it was, and returns when the
    changelog table exists. *)
Theorem _change_all_forwards_records self (state : PS)
    (plan full_plan : Plan DB PS) (fake : bool) w :
  let run := _change_all_forwards self state plan full_plan fake w in
  let todo := taken (list_to_set (plan_keys plan)) (plan_keys full_plan) in
  ∃ recorded,
    Recorder.rows (store run.2) = Recorder.rows (store w) ++ recorded ∧
    recorded `prefix_of` todo ∧
    (is_ok run.1 = true → recorded = todo) ∧
    (fake = true → db run.2 = db w) ∧
    (fake = true → Recorder.db_table ∈ Recorder.table_names (store w) →
     is_ok run.1 = true).
Proof. apply _change_all_forwards_rows. Qed.

(** *** Backwards *)

Lemma states_before_None (full_plan : Plan DB PS) (state : PS)
    (todo applied : gset ChangeKey) (states : gmap ChangeKey PS) k :
  k ∉ plan_keys full_plan → states !! k = None →
  states_before full_plan state todo applied states !! k = None.
Proof.
  revert state todo states.
  induction full_plan as [|[c b] rest IH]; intros state todo states;
    simpl; [done|].
  intros [Hne Hrest]%not_elem_of_cons Hnone.
  repeat case_bool_decide; try done; apply IH; try done.
  by rewrite lookup_insert_ne.
Qed.

Lemma states_before_is_Some (full_plan : Plan DB PS) (state : PS)
    (todo applied : gset ChangeKey) (states : gmap ChangeKey PS) k :
  is_Some (states !! k) ∨ (k ∈ todo ∧ k ∈ plan_keys full_plan) →
  is_Some (states_before full_plan state todo applied states !! k).
Proof.
  revert state todo states.
  induction full_plan as [|[c b] rest IH]; intros state todo states; simpl.
  { intros [Hk|[_ Hk%elem_of_nil]]; done. }
  intros Hk. case_bool_decide as Hempty.
  { destruct Hk as [Hk|[Hk _]]; [done|]. set_solver. }
  case_bool_decide as Hc.
  - apply IH. destruct (decide (k = key_of c)) as [->|Hne].
    + left. by rewrite lookup_insert_eq.
    + rewrite lookup_insert_ne by done.
      destruct Hk as [Hk|[Hk [Heq|Hin]%elem_of_cons]]; [by left|done|].
      right. split; [set_solver|done].
  - assert (is_Some (states !! k) ∨ k ∈ todo ∧ k ∈ plan_keys rest) as Hk'.
    { destruct Hk as [Hk|[Hk [Heq|Hin]%elem_of_cons]]; [by left| |by right].
      subst k. done. }
    case_bool_decide; by apply IH.
Qed.

(** The second loop fails at an entry that has no state. *)
Lemma unapply_loop_missing self (plan : Plan DB PS) (fake : bool)
    (states : gmap ChangeKey PS) (applied : gset ChangeKey) w m :
  m ∈ plan → states !! key_of m.1 = None →
  is_ok (unapply_loop self plan fake states applied w).1 = false.
Proof.
  revert applied w.
  induction plan as [|[c b] rest IH]; intros applied w; [by intros ?%elem_of_nil|].
  intros Hm Hnone. simpl. unfold bind at 1. unfold lift, getitem.
  destruct (states !! key_of c) as [st|] eqn:Hst; [|done].
  apply elem_of_cons in Hm as [->|Hm]; [simpl in Hnone; congruence|].
  unfold bind at 1.
  destruct (unapply_change self st c fake w) as [[st'|e] w1]; [|done].
  case_bool_decide; [by apply IH|done].
Qed.

(** The events of a faked backwards loop. *)
Definition unapply_events (ks : list ChangeKey) : list Progress :=
  ks ≫= λ k, [unapply_start k true; unapply_success k true].

Lemma unapply_loop_fake self (plan : Plan DB PS)
    (states : gmap ChangeKey PS) (applied : gset ChangeKey) w :
  Recorder.db_table ∈ Recorder.table_names (store w) →
  NoDup (plan_keys plan) →
  (∀ k, k ∈ plan_keys plan → is_Some (states !! k) ∧ k ∈ applied) →
  unapply_loop self plan true states applied w =
  (Ok (applied ∖ list_to_set (plan_keys plan)),
   {| store := {| Recorder.table_names := Recorder.table_names (store w);
                  Recorder.rows :=
                    filter (λ k, k ∉ plan_keys plan)
                           (Recorder.rows (store w));
                  Recorder.ddl_refused := Recorder.ddl_refused (store w) |};
      db := db w;
      progress := progress w ++ heard self (unapply_events (plan_keys plan))
   |}).
Proof.
  revert applied w.
  induction plan as [|[c b] rest IH]; intros applied w Htable Hnd Hall.
  { simpl. unfold ret. f_equal.
    - f_equal. set_solver.
    - destruct w as [[tn rs ddl] d p]. simpl. f_equal.
      + f_equal. symmetry. apply filter_all. intros k. apply not_elem_of_nil.
      + unfold heard. destruct (progress_callback self); by rewrite app_nil_r. }
  change (plan_keys ((c, b) :: rest)) with (key_of c :: plan_keys rest) in *.
  apply NoDup_cons in Hnd as [Hc Hnd].
  destruct (Hall (key_of c)) as [[st Hst] Hin]; [by left|].
  simpl. unfold bind at 1. unfold lift, getitem. rewrite Hst.
  unfold bind at 1. rewrite unapply_change_fake by done.
  rewrite bool_decide_eq_true_2 by done.
  rewrite IH; simpl; try done.
  - f_equal.
    + f_equal. set_solver.
    + f_equal.
      * f_equal. rewrite list_filter_filter. apply list_filter_iff.
        intros k. rewrite not_elem_of_cons. naive_solver.
      * rewrite <- app_assoc, heard_app. done.
  - intros k Hk. destruct (Hall k) as [Hs Hk']; [by right|].
    split; [done|]. apply elem_of_difference. split; [done|].
    apply not_elem_of_singleton. by intros ->.
Qed.

(** The backwards run of a plan without entries: [plan[-1]] fails after
    the states were rendered, and nothing else has happened. *)
Theorem _change_all_backwards_empty_plan self (full_plan : Plan DB PS)
    (fake : bool) w :
  _change_all_backwards self [] full_plan fake w =
  (Raise IndexError,
   {| store := store w; db := db w;
      progress := progress w ++ heard self [render_start; render_success] |}).
Proof.
  unfold _change_all_backwards.
  unfold bind at 1. unfold lift at 1. simpl.
  unfold bind at 1. rewrite notify_eq.
  unfold bind at 1. rewrite notify_eq.
  unfold bind, ret, raise. simpl.
  by rewrite <- app_assoc, heard_app.
Qed.

(** A backwards run whose plan holds a change that the full plan does not
    hold never returns: no state was computed for that change, and
    [states[change]] fails. *)
Theorem _change_all_backwards_outside_full_plan self
    (plan full_plan : Plan DB PS) (fake : bool) w m :
  m ∈ plan → key_of m.1 ∉ plan_keys full_plan →
  is_ok (_change_all_backwards self plan full_plan fake w).1 = false.
Proof.
  intros Hm Hout. unfold _change_all_backwards.
  unfold bind at 1. unfold lift at 1. simpl.
  unfold bind at 1. rewrite notify_eq.
  unfold bind at 1. rewrite notify_eq.
  unfold bind at 1.
  match goal with
  | |- context [unapply_loop self plan fake ?states ?applied ?w1] =>
      pose proof (unapply_loop_missing self plan fake states applied w1 m Hm)
        as Hloop;
      destruct (unapply_loop self plan fake states applied w1)
        as [[applied'|e] w2]
  end; [|done].
  simpl in Hloop. exfalso.
  assert (true = false) as Hfalse; [|discriminate].
  apply Hloop. by apply states_before_None.
Qed.

(** A faked backwards run.  When the changelog table exists and the plan
    has entries, for distinct changes that the full plan holds and that
    are applied, the run returns, has removed the rows of exactly the
    changes of the plan, has left the database as it was, and the
    callback has heard the rendering and then, in the order of the plan,
    the start and the success of each change. *)
Theorem _change_all_backwards_fake_run self (plan full_plan : Plan DB PS) w :
  Recorder.db_table ∈ Recorder.table_names (store w) →
  plan ≠ [] →
  NoDup (plan_keys plan) →
  (∀ k, k ∈ plan_keys plan →
        k ∈ plan_keys full_plan ∧ k ∈ applied_in_graph self) →
  ∃ st w',
    _change_all_backwards self plan full_plan true w = (Ok st, w') ∧
    db w' = db w ∧
    Recorder.rows (store w')
      = filter (λ k, k ∉ plan_keys plan) (Recorder.rows (store w)) ∧
    progress w' = progress w ++
      heard self ([render_start; render_success]
                  ++ unapply_events (plan_keys plan)).
Proof.
  intros Htable Hne Hnd Hall. unfold _change_all_backwards.
  unfold bind at 1. unfold lift at 1. simpl.
  unfold bind at 1. rewrite notify_eq.
  unfold bind at 1. rewrite notify_eq.
  unfold bind at 1.
  set (states := states_before _ _ _ _ _).
  assert (∀ k, k ∈ plan_keys plan → is_Some (states !! k)) as Hstates.
  { intros k Hk. apply states_before_is_Some. right.
    split; [by apply elem_of_list_to_set|by apply Hall]. }
  rewrite unapply_loop_fake; simpl; try done.
  2:{ intros k Hk. split; [by apply Hstates|by apply Hall]. }
  destruct (last plan) as [m|] eqn:Hlast.
  2:{ apply last_None in Hlast. done. }
  assert (key_of m.1 ∈ plan_keys plan) as Hm.
  { apply last_Some in Hlast as [l' ->]. unfold plan_keys.
    rewrite fmap_app. apply elem_of_app. right. by left. }
  destruct (Hstates _ Hm) as [st Hst].
  unfold bind, lift, getitem, ret. rewrite Hst.
  eexists _, _. split; [done|]. simpl. split; [done|]. split; [done|].
  by rewrite <- !app_assoc, !heard_app.
Qed.

(** *** [change] *)

(** Nothing to do.  On a consistent acyclic graph, a run of [change]
    whose targets are all leaf nodes that are applied returns and leaves
    the world as it was: no operation ran, no row was written or removed,
    and the callback heard nothing.  It returns the state that it was
    given, if it was given one. *)
Theorem change_nothing_to_do self (ks : list ChangeKey) (state : option PS)
    (fake : bool) w :
  consistent (graph self) → acyclic (graph self) →
  (∀ k, k ∈ ks →
        k ∈ applied_changes self ∧
        ∃ n, graph self !! k = Some n ∧ children n = ∅) →
  ∃ st,
    change self (target_of_key <$> ks) None state fake w = (Ok st, w) ∧
    (∀ st0, state = Some st0 → st = st0).
Proof.
  intros Hg Hacyc Hall.
  destruct (full_plan_of_closed_form self Hg Hacyc)
    as (fps & _ & _ & Hfull).
  unfold change. unfold bind at 1. unfold lift at 1.
  unfold change_plan at 1. rewrite plan_targets_leaves by done.
  cbn [rbind fst].
  unfold bind at 1. unfold lift at 1. rewrite Hfull.
  destruct state as [st0|].
  - exists st0. split; [done|]. by intros ? [= <-].
  - unfold lift, _create_project_state. rewrite Hfull. simpl.
    eexists. split; [done|]. discriminate.
Qed.

(** A first run.  With no change applied yet, on a consistent acyclic
    graph with the changes stored under their own keys, [change] towards
    the leaf nodes records the changes in the order of the full plan:
    whatever its outcome, the rows of the record are those before the run
    followed by a prefix of the keys of the full plan, and by all of them
    when the run returns.  A faked run leaves the database as it was, and
    returns when the changelog table exists. *)
Theorem change_first_run self (st : PS) (fake : bool) w :
  consistent (graph self) → acyclic (graph self) → well_keyed (graph self) →
  applied_changes self = ∅ →
  let run := change self (target_of_key <$> leaf_nodes (graph self) None)
                    None (Some st) fake w in
  ∃ full_plan recorded,
    full_plan_of self = Ok full_plan ∧
    Recorder.rows (store run.2) = Recorder.rows (store w) ++ recorded ∧
    recorded `prefix_of` plan_keys full_plan ∧
    (is_ok run.1 = true → recorded = plan_keys full_plan) ∧
    (fake = true → db run.2 = db w) ∧
    (fake = true → Recorder.db_table ∈ Recorder.table_names (store w) →
     is_ok run.1 = true).
Proof.
  intros Hg Hacyc Hkeyed Happlied run.
  destruct (full_plan_of_closed_form self Hg Hacyc)
    as (fps & _ & Hnodes & Hfull).
  set (full_plan := forwards_entries (graph self) (ordered_set (concat fps)))
    in *.
  assert (plan_keys full_plan = ordered_set (concat fps)) as Hkeys.
  { apply plan_keys_forwards_entries; [done|].
    intros k Hk. rewrite elem_of_ordered_set in Hk. by apply Hnodes. }
  assert (plan_in_effect self
            (target_of_key <$> leaf_nodes (graph self) None) None
          = Ok full_plan) as Hplan.
  { rewrite <- Hfull. unfold plan_in_effect, full_plan_of, change_plan.
    by rewrite Happlied. }
  exists full_plan. subst run.
  destruct (decide (full_plan = [])) as [Hnil|Hne].
  { exists []. split; [done|].
    unfold change. unfold bind at 1. unfold lift at 1.
    unfold plan_in_effect in Hplan. rewrite Hplan.
    unfold bind at 1. unfold lift at 1. rewrite Hfull, Hnil. simpl.
    rewrite app_nil_r. done. }
  rewrite (change_unfold self _ None full_plan full_plan) by done.
  destruct (forwards_plan_flags full_plan Hne) as [-> ->].
  { intros m Hm. pose proof (forwards_entries_flags (graph self)
                               (ordered_set (concat fps))) as Hflags.
    rewrite Forall_forall in Hflags. by apply Hflags. }
  rewrite bool_decide_eq_false_2 by done.
  unfold bind at 1. unfold ret at 1.
  pose proof (_change_all_forwards_rows self st full_plan full_plan fake w)
    as Hrun.
  rewrite taken_all in Hrun.
  - destruct Hrun as (recorded & Hrun). exists recorded.
    split; [done|]. exact Hrun.
  - rewrite Hkeys. apply NoDup_ordered_set.
  - intros c Hc. by apply elem_of_list_to_set.
Qed.

End runs.

(** The plan that applies the three changes of the chain. *)
Definition blog_full_plan : Plan nat Examples.StubState :=
  [(Examples.c1, false); (Examples.c2, false); (Examples.c3, false)].

(** A change that the graph does not hold. *)
Definition stray : Change nat Examples.StubState :=
  Examples.make_change "blog" "0009_stray" [] [].

Lemma _change_all_backwards_outside_full_plan_witness :
  is_ok (_change_all_backwards Examples.blog_executor [(stray, true)]
           blog_full_plan true Examples.blog_world).1 = false.
Proof.
  apply (_change_all_backwards_outside_full_plan Examples.blog_executor
           [(stray, true)] blog_full_plan true Examples.blog_world
           (stray, true)).
  - by left.
  - apply (bool_decide_unpack _). vm_compute. exact I.
Defined.

Lemma _change_all_backwards_fake_run_witness :
  ∃ st w',
    _change_all_backwards Examples.blog_executor [(Examples.c3, true)]
      blog_full_plan true Examples.blog_world = (Ok st, w') ∧
    db w' = db Examples.blog_world ∧
    Recorder.rows (store w')
      = filter (λ k, k ∉ plan_keys [(Examples.c3, true)])
               (Recorder.rows (store Examples.blog_world)) ∧
    progress w' = progress Examples.blog_world ++
      heard Examples.blog_executor
        ([render_start; render_success]
         ++ unapply_events (plan_keys [(Examples.c3, true)])).
Proof.
  apply (_change_all_backwards_fake_run Examples.blog_executor
           [(Examples.c3, true)] blog_full_plan Examples.blog_world).
  - apply (bool_decide_unpack _). vm_compute. exact I.
  - discriminate.
  - apply (bool_decide_unpack _). vm_compute. exact I.
  - intros k ->%list_elem_of_singleton.
    split; apply (bool_decide_unpack _); vm_compute; exact I.
Defined.

Example _change_all_backwards_fake_rows :
  Recorder.rows
    (store (_change_all_backwards Examples.blog_executor
              [(Examples.c3, true)] blog_full_plan true
              Examples.blog_world).2)
  = [Examples.k1; Examples.k2].
Proof. by vm_compute. Qed.

Lemma change_nothing_to_do_witness :
  ∃ st,
    change Examples.blog_executor (target_of_key <$> [Examples.k3]) None
           (Some Examples.start_state) false Examples.blog_world
      = (Ok st, Examples.blog_world) ∧
    (∀ st0, Some Examples.start_state = Some st0 → st = st0).
Proof.
  apply (change_nothing_to_do Examples.blog_executor [Examples.k3]
           (Some Examples.start_state) false Examples.blog_world
           Examples.blog_graph_consistent Examples.blog_graph_acyclic).
  intros k ->%list_elem_of_singleton. split.
  - apply (bool_decide_unpack _). vm_compute. exact I.
  - eexists. split; reflexivity.
Defined.

(** The executor of a database on which no change is applied. *)
Definition fresh_executor : ChangeExecutor nat Examples.StubState :=
  {| graph := Examples.blog_graph;
     applied_changes := ∅;
     unchanged_apps := ["auth"];
     progress_callback := true |}.

Lemma change_first_run_witness :
  let run := change fresh_executor
               (target_of_key <$> leaf_nodes (graph fresh_executor) None)
               None (Some Examples.start_state) true Examples.empty_world in
  ∃ full_plan recorded,
    full_plan_of fresh_executor = Ok full_plan ∧
    Recorder.rows (store run.2)
      = Recorder.rows (store Examples.empty_world) ++ recorded ∧
    recorded `prefix_of` plan_keys full_plan ∧
    (is_ok run.1 = true → recorded = plan_keys full_plan) ∧
    (true = true → db run.2 = db Examples.empty_world) ∧
    (true = true →
     Recorder.db_table ∈ Recorder.table_names (store Examples.empty_world) →
     is_ok run.1 = true).
Proof.
  exact (change_first_run fresh_executor Examples.start_state true
           Examples.empty_world
           Examples.blog_graph_consistent Examples.blog_graph_acyclic
           blog_graph_well_keyed eq_refl).
Defined.

Example change_first_run_rows :
  Recorder.rows
    (store (change fresh_executor
              (target_of_key <$> leaf_nodes (graph fresh_executor) None)
              None (Some Examples.start_state) true Examples.empty_world).2)
  = [Examples.k1; Examples.k2; Examples.k3].
Proof. by vm_compute. Qed.

End RunFacts.

(** ** executor.py: unapplying without [--fake] *)

Module UnapplyFacts.
Import Operations Executor ExecutorFacts.

Section unapply.
Context {DB PS : Type} `{!Backend DB} `{!ProjectStateOps PS}.
Implicit Types self : ChangeExecutor DB PS.
Implicit Types c : Change DB PS.
Implicit Types w : World DB.

(** [unapply_change] without [fake] reads [change.atomic] and calls
    [change.unapply]; the class [Change] of change.py defines neither.  For
    a change that lacks one of the two, the call raises [AttributeError]
    after the callback has heard the start, and nothing else has happened:
    no row is removed, the database is as it was, and no success is
    announced. *)
Theorem unapply_change_missing_attribute self (state : PS) c w :
  atomic c = None ∨ unapply c = None →
  unapply_change self state c false w =
  (Raise AttributeError,
   {| store := store w; db := db w;
      progress := progress w ++ heard self [unapply_start (key_of c) false]
   |}).
Proof.
  intros Hmissing.
  unfold unapply_change, bind, on_store, on_db, ret, lift, attr_of.
  rewrite notify_eq. simpl.
  destruct (atomic c) as [a|]; [|done].
  destruct Hmissing as [Ha|Hu]; [done|]. by rewrite Hu.
Qed.

End unapply.

Lemma unapply_change_missing_attribute_witness :
  unapply_change Examples.blog_executor Examples.start_state Examples.c3
                 false Examples.blog_world =
  (Raise AttributeError,
   {| store := store Examples.blog_world; db := db Examples.blog_world;
      progress := progress Examples.blog_world ++
        heard Examples.blog_executor
          [unapply_start (key_of Examples.c3) false] |}).
Proof.
  apply (unapply_change_missing_attribute Examples.blog_executor
           Examples.start_state Examples.c3 Examples.blog_world).
  left. reflexivity.
Defined.

End UnapplyFacts.

(** ** autodetector.py *)

Module Autodetector.
Import Graph Operations Executor.

(** A character that [\d] matches, in a name of ASCII characters. *)
Definition is_digit (c : ascii) : bool :=
  match uint_of_char c (Some Nil) with
  | Some _ => true
  | None => false
  end.

(** [re.match(r'^\d+', name).group()], empty when there is no match: the
    digits that [name] begins with. *)
Fixpoint leading_digits (name : string) : string :=
  match name with
  | EmptyString => EmptyString
  | String c rest =>
      if is_digit c then String c (leading_digits rest) else EmptyString
  end.

(** [ChangeAutodetector.parse_number(name)]; [int] reads the digits as a
    decimal number. *)
Definition parse_number (name : string) : option nat :=
  match leading_digits name with
  | EmptyString => None
  | digits => Nat.of_uint <$> NilEmpty.uint_of_string digits
  end.

(** ['%04i' % number]: the decimal digits of [number], with zeros in
    front up to a width of four. *)
Definition format_04i (number : nat) : string :=
  let d := Nat.to_uint number in
  NilEmpty.string_of_uint (Nat.iter (4 - nb_digits d) D0 d).

Section arrange.
Context {DB PS : Type}.

(** [self.questioner.ask_initial(app_label)] *)
Variable ask_initial : string → bool.

(** [get_migration_name_timestamp()], by the number of the call. *)
Variable timestamps : nat → string.

(** [if change_name] for an argument that is [None] or a string. *)
Definition truthy (change_name : option string) : bool :=
  match change_name with
  | Some (String _ _) => true
  | _ => false
  end.

(** [cls.suggest_name(ops)]: ['auto_%s' % get_migration_name_timestamp()];
    the operations are not looked at. *)
Definition suggest_name (tick : nat) : string := "auto_" +:+ timestamps tick.

(** The change with [change.name] and [change.dependencies] set. *)
Definition renamed (change : Change DB PS) (new_name : string)
    (deps : list ChangeKey) : Change DB PS :=
  {| name := new_name;
     app_label := app_label change;
     description := description change;
     operations := operations change;
     dependencies := deps;
     run_before := run_before change;
     initial := initial change;
     atomic := atomic change;
     unapply := unapply change |}.

(** What the first loop of [arrange_for_graph] carries along: [name_map],
    and how often the clock was read. *)
Record Names : Type := {
  name_map : gmap ChangeKey ChangeKey;
  tick : nat;
}.

(** The name that the loop gives to the change at index [i], and the
    number of clock readings after it. *)
Definition new_name (app_leaf : option ChangeKey)
    (change_name : option string) (i next_number : nat) (tick : nat)
    : string * nat :=
  if bool_decide (i = 0) && bool_decide (app_leaf = None) then
    (if truthy change_name then "0001_" +:+ default "" change_name
     else "0001_initial", tick)
  else if truthy change_name then
    (format_04i next_number +:+ "_" +:+ default "" change_name, tick)
  else
    (format_04i next_number +:+ "_" +:+ substring 0 100 (suggest_name tick),
     S tick).

(** [for i, change in enumerate(changelogs): ...] *)
Fixpoint name_changes (app : string) (app_leaf : option ChangeKey)
    (change_name : option string) (i next_number : nat)
    (changelogs : list (Change DB PS)) (st : Names)
    : list (Change DB PS) * Names :=
  match changelogs with
  | [] => ([], st)
  | change :: rest =>
      let deps :=
        match app_leaf with
        | Some leaf =>
            if bool_decide (i = 0) then dependencies change ++ [leaf]
            else dependencies change
        | None => dependencies change
        end in
      let nn := new_name app_leaf change_name i next_number (tick st) in
      let st1 :=
        {| name_map :=
             <[(app, name change) := (app, nn.1)]> (name_map st);
           tick := nn.2 |} in
      let r := name_changes app app_leaf change_name (S i) (S next_number)
                            rest st1 in
      (renamed change nn.1 deps :: r.1, r.2)
  end.

(** [for change in changelogs:
       name_map[(app_label, change.name)] = (app_label, '__first__')] *)
Definition declined (app : string) (changelogs : list (Change DB PS))
    (m : gmap ChangeKey ChangeKey) : gmap ChangeKey ChangeKey :=
  foldl (λ m change, <[(app, name change) := (app, "__first__")]> m)
        m changelogs.

(** [app_leaf]: the first of [leaves] with the label of the app. *)
Definition app_leaf_of (leaves : list ChangeKey) (app : string)
    : option ChangeKey :=
  head (filter (λ leaf, leaf.1 = app) leaves).

(** [(self.parse_number(app_leaf[1]) or 0) + 1], and [1] without a
    leaf. *)
Definition first_number (app_leaf : option ChangeKey) : nat :=
  match app_leaf with
  | None => 1
  | Some leaf => default 0 (parse_number leaf.2) + 1
  end.

(** The first loop of [arrange_for_graph], over the items of the dict
    [changes]; it returns the items that are left, the lists with their
    changes renamed. *)
Fixpoint arrange_apps (leaves : list ChangeKey) (change_name : option string)
    (items : list (string * list (Change DB PS))) (st : Names)
    : list (string * list (Change DB PS)) * Names :=
  match items with
  | [] => ([], st)
  | (app, changelogs) :: rest =>
      match changelogs with
      | [] =>
          let r := arrange_apps leaves change_name rest st in
          ((app, []) :: r.1, r.2)
      | _ :: _ =>
          let app_leaf := app_leaf_of leaves app in
          if bool_decide (app_leaf = None) && negb (ask_initial app) then
            arrange_apps leaves change_name rest
              {| name_map := declined app changelogs (name_map st);
                 tick := tick st |}
          else
            let named := name_changes app app_leaf change_name 0
                           (first_number app_leaf) changelogs st in
            let r := arrange_apps leaves change_name rest named.2 in
            ((app, named.1) :: r.1, r.2)
      end
  end.

(** [change.dependencies =
       [name_map.get(d, d) for d in change.dependencies]] *)
Definition fix_dependencies (m : gmap ChangeKey ChangeKey)
    (change : Change DB PS) : Change DB PS :=
  renamed change (name change)
          ((λ d, default d (m !! d)) <$> dependencies change).

(** [ChangeAutodetector.arrange_for_graph(changes, graph, change_name)];
    the dict [changes] as the list of its items. *)
Definition arrange_for_graph {U}
    (changes : list (string * list (Change DB PS)))
    (graph : gmap ChangeKey (Node U)) (change_name : option string)
    : list (string * list (Change DB PS)) :=
  let leaves := leaf_nodes graph None in
  let r := arrange_apps leaves change_name changes
                        {| name_map := ∅; tick := 0 |} in
  (λ item : string * list (Change DB PS),
     (item.1, fix_dependencies (name_map r.2) <$> item.2)) <$> r.1.

End arrange.
End Autodetector.

Module AutodetectorFacts.
Import Graph Operations Executor Autodetector.

Lemma is_digit_string_of_uint (d : uint) (rest : string) :
  (∀ c rest', rest = String c rest' → is_digit c = false) →
  leading_digits (NilEmpty.string_of_uint d +:+ rest)
  = NilEmpty.string_of_uint d.
Proof.
  intros Hrest. induction d; simpl; try (by f_equal).
  destruct rest as [|c rest']; [done|].
  simpl. by rewrite (Hrest c rest').
Qed.

Lemma of_uint_zeros (k : nat) (d : uint) :
  Nat.of_uint (Nat.iter k D0 d) = Nat.of_uint d.
Proof.
  induction k as [|k IH]; [done|].
  rewrite <- IH. reflexivity.
Qed.

Lemma string_of_uint_nonempty (d : uint) :
  d ≠ Nil → NilEmpty.string_of_uint d ≠ EmptyString.
Proof. by destruct d. Qed.

Lemma format_04i_nonempty (n : nat) : format_04i n ≠ EmptyString.
Proof.
  unfold format_04i. apply string_of_uint_nonempty.
  destruct (Nat.to_uint n); [done|..];
    match goal with |- Nat.iter ?k _ _ ≠ _ => by destruct k end.
Qed.

(** [int] of the digits that ['%04i'] writes. *)
Lemma uint_of_format_04i (n : nat) :
  Nat.of_uint <$> NilEmpty.uint_of_string (format_04i n) = Some n.
Proof.
  unfold format_04i. rewrite NilEmpty.usu. simpl.
  by rewrite of_uint_zeros, Unsigned.of_to.
Qed.

(** The number of a name is that of the digits it begins with, up to the
    underscore. *)
Lemma parse_number_format (n : nat) (rest : string) :
  parse_number (format_04i n +:+ "_" +:+ rest) = Some n.
Proof.
  unfold parse_number, format_04i.
  rewrite is_digit_string_of_uint.
  - pose proof (format_04i_nonempty n) as Hne. unfold format_04i in Hne.
    destruct (NilEmpty.string_of_uint _) eqn:Hs; [done|].
    rewrite <- Hs. apply uint_of_format_04i.
  - by intros c rest' [= <- _].
Qed.

Example format_04i_7 : format_04i 7 = "0007".
Proof. reflexivity. Qed.

Example format_04i_12345 : format_04i (123 * 100 + 45) = "12345".
Proof. reflexivity. Qed.

Example parse_number_0012 : parse_number "0012_add_slug" = Some 12.
Proof. reflexivity. Qed.

Example parse_number_custom : parse_number "custom" = None.
Proof. reflexivity. Qed.


(** [parse_number] reads back the number that ['%04i_%s'] wrote, whatever
    follows the underscore and however many digits the number has; a name
    that does not begin with a digit, as the empty name, has no
    number. *)
Theorem parse_number_round_trip (n : nat) (rest : string) :
  parse_number (format_04i n +:+ "_" +:+ rest) = Some n ∧
  parse_number EmptyString = None ∧
  (∀ c name, is_digit c = false → parse_number (String c name) = None).
Proof.
  split; [apply parse_number_format|]. split; [done|].
  intros c name Hc. unfold parse_number. simpl. by rewrite Hc.
Qed.

Section arrange.
Context {DB PS : Type}.
Variable ask_initial : string → bool.
Variable timestamps : nat → string.
Implicit Types changelogs : list (Change DB PS).
Implicit Types changes items : list (string * list (Change DB PS)).

Lemma parse_new_name (app_leaf : option ChangeKey)
    (change_name : option string) (i n t : nat) :
  (i = 0 → app_leaf = None → n = 1) →
  parse_number (new_name timestamps app_leaf change_name i n t).1 = Some n.
Proof.
  intros Hfirst. unfold new_name.
  destruct (bool_decide (i = 0)) eqn:Hi; simpl;
    [destruct (bool_decide (app_leaf = None)) eqn:Hleaf; simpl|].
  - apply bool_decide_eq_true in Hi, Hleaf. rewrite (Hfirst Hi Hleaf).
    by destruct (truthy change_name).
  - destruct (truthy change_name); simpl; apply parse_number_format.
  - destruct (truthy change_name); simpl; apply parse_number_format.
Qed.

Lemma name_changes_spec (app : string) (app_leaf : option ChangeKey)
    (change_name : option string) changelogs (i next_number : nat)
    (st : Names) :
  let r := name_changes timestamps app app_leaf change_name i next_number
                        changelogs st in
  length r.1 = length changelogs ∧
  ∀ j c, r.1 !! j = Some c →
    ∃ c0 t, changelogs !! j = Some c0 ∧
            app_label c = app_label c0 ∧ operations c = operations c0 ∧
            name c = (new_name timestamps app_leaf change_name (i + j)
                               (next_number + j) t).1.
Proof.
  revert i next_number st.
  induction changelogs as [|change rest IH]; intros i next_number st; simpl.
  { split; [done|]. by intros j c ?. }
  destruct (IH (S i) (S next_number)
              {| name_map :=
                   <[(app, name change) :=
                       (app, (new_name timestamps app_leaf change_name i
                                       next_number (tick st)).1)]>
                     (name_map st);
                 tick := (new_name timestamps app_leaf change_name i
                                   next_number (tick st)).2 |})
    as [Hlen Hnames].
  split; [by rewrite Hlen|].
  intros [|j] c; simpl.
  - intros [= <-]. exists change, (tick st). rewrite !Nat.add_0_r. done.
  - intros Hc. destruct (Hnames j c Hc) as (c0 & t & Hc0 & Ha & Ho & Hn).
    exists c0, t. rewrite <- !Nat.add_succ_comm. done.
Qed.

(** The condition under which the changes of an app are left out. *)
Definition left_out (leaves : list ChangeKey) (app : string) : bool :=
  bool_decide (app_leaf_of leaves app = None) && negb (ask_initial app).

Lemma arrange_apps_spec (leaves : list ChangeKey)
    (change_name : option string) items (st : Names) :
  NoDup items.*1 →
  let r := arrange_apps ask_initial timestamps leaves change_name items st in
  r.1.*1 `sublist_of` items.*1 ∧
  ∀ app changelogs, (app, changelogs) ∈ items → changelogs ≠ [] →
    if left_out leaves app then app ∉ r.1.*1
    else ∃ st',
      (app, (name_changes timestamps app (app_leaf_of leaves app)
               change_name 0 (first_number (app_leaf_of leaves app))
               changelogs st').1) ∈ r.1.
Proof.
  revert st. induction items as [|[a cl0] rest IH]; intros st; simpl.
  { intros _. split; [done|]. by intros app changelogs ?%elem_of_nil. }
  intros [Ha Hnd]%NoDup_cons.
  assert (∀ app changelogs, (app, changelogs) ∈ rest → app ≠ a) as Hother.
  { intros app changelogs Hin ->. apply Ha.
    apply list_elem_of_fmap. by exists (a, changelogs). }
  destruct cl0 as [|change cl0].
  { destruct (IH st Hnd) as [Hsub Hrest]. simpl. split.
    - by apply sublist_skip.
    - intros app changelogs [[= -> ->]|Hin]%elem_of_cons Hne; [done|].
      specialize (Hrest app changelogs Hin Hne).
      destruct (left_out leaves app).
      + apply not_elem_of_cons. split; [by apply (Hother app changelogs)|done].
      + destruct Hrest as [st' Hst']. exists st'. by right. }
  fold (left_out leaves a).
  destruct (left_out leaves a) eqn:Hleft.
  - match goal with
    | |- context [arrange_apps _ _ _ _ rest ?st1] =>
        destruct (IH st1 Hnd) as [Hsub Hrest]
    end.
    split; [by apply sublist_cons|].
    intros app changelogs [[= -> ->]|Hin]%elem_of_cons Hne.
    + rewrite Hleft. intros Hin. apply Ha.
      by apply (elem_of_sublist _ _ _ Hin).
    + by apply Hrest.
  - match goal with
    | |- context [arrange_apps _ _ _ _ rest ?st1] =>
        destruct (IH st1 Hnd) as [Hsub Hrest]
    end.
    simpl. split; [by apply sublist_skip|].
    intros app changelogs [[= -> ->]|Hin]%elem_of_cons Hne.
    + rewrite Hleft. exists st. by left.
    + specialize (Hrest app changelogs Hin Hne).
      destruct (left_out leaves app).
      * apply not_elem_of_cons. split; [by apply (Hother app changelogs)|done].
      * destruct Hrest as [st' Hst']. exists st'. by right.
Qed.

(** The numbering.  [changes] being a dict, with one item for an app: the
    result is a dict again.  The changes of an app that has no leaf node
    and for which no initial change is wanted are left out of it.  The
    changes of another app (with at least one change) are all kept, in
    their order and with their label and operations, and are numbered on
    from the leaf: the names begin with consecutive numbers, the first
    one with the number after that of the leaf node of the app, or with 1
    when the app has no leaf node or its name has no number. *)
Theorem arrange_for_graph_numbering {U} changes
    (graph : gmap ChangeKey (Node U)) (change_name : option string)
    (app : string) changelogs :
  NoDup changes.*1 → (app, changelogs) ∈ changes → changelogs ≠ [] →
  let app_leaf := app_leaf_of (leaf_nodes graph None) app in
  let out := arrange_for_graph ask_initial timestamps changes graph
                               change_name in
  NoDup out.*1 ∧
  if bool_decide (app_leaf = None) && negb (ask_initial app)
  then app ∉ out.*1
  else ∃ arranged,
    (app, arranged) ∈ out ∧
    length arranged = length changelogs ∧
    ∀ i c, arranged !! i = Some c →
      parse_number (name c) = Some (first_number app_leaf + i) ∧
      ∃ c0, changelogs !! i = Some c0 ∧
            app_label c = app_label c0 ∧ operations c = operations c0.
Proof.
  intros Hnd Hin Hne app_leaf out.
  destruct (arrange_apps_spec (leaf_nodes graph None) change_name changes
              {| name_map := ∅; tick := 0 |} Hnd) as [Hsub Hitems].
  specialize (Hitems app changelogs Hin Hne).
  set (r := arrange_apps ask_initial timestamps (leaf_nodes graph None)
              change_name changes {| name_map := ∅; tick := 0 |}) in *.
  assert (out.*1 = r.1.*1) as Hkeys.
  { unfold out, arrange_for_graph. fold r.
    rewrite <- list_fmap_compose. by apply list_fmap_ext. }
  rewrite Hkeys. split; [by apply (sublist_NoDup _ _ Hnd)|].
  change (bool_decide (app_leaf = None) && negb (ask_initial app))
    with (left_out (leaf_nodes graph None) app).
  destruct (left_out (leaf_nodes graph None) app); [done|].
  destruct Hitems as [st' Hnamed].
  pose proof (name_changes_spec app app_leaf change_name changelogs 0
                (first_number app_leaf) st') as [Hlen Hnames].
  fold app_leaf in Hnamed.
  set (named := (name_changes timestamps app app_leaf change_name 0
                   (first_number app_leaf) changelogs st').1) in *.
  exists (fix_dependencies (name_map r.2) <$> named).
  split; [|split].
  - unfold out, arrange_for_graph. fold r.
    apply list_elem_of_fmap. by exists (app, named).
  - by rewrite length_fmap.
  - intros i c Hc. rewrite list_lookup_fmap in Hc.
    destruct (named !! i) as [c1|] eqn:Hc1; simpl in Hc; [|done].
    injection Hc as <-.
    destruct (Hnames i c1 Hc1) as (c0 & t & Hc0 & Ha & Ho & Hn).
    split; [|by exists c0].
    simpl. rewrite Hn. apply parse_new_name.
    intros Hi Hleaf. simpl in Hi. subst i. by rewrite Hleaf.
Qed.


(** *** [name_map] *)

Lemma declined_lookup (app : string) changelogs
    (m : gmap ChangeKey ChangeKey) (k : ChangeKey) :
  declined app changelogs m !! k =
  if bool_decide (k.1 = app ∧ k.2 ∈ name <$> changelogs)
  then Some (app, "__first__") else m !! k.
Proof.
  unfold declined. revert m.
  induction changelogs as [|c rest IH]; intros m; simpl.
  { rewrite bool_decide_eq_false_2; [done|]. intros [_ ?%elem_of_nil]. done. }
  rewrite IH. destruct (decide (k.1 = app ∧ k.2 ∈ name <$> rest)) as [Hk|Hk].
  - rewrite !bool_decide_eq_true_2; [done| |done].
    destruct Hk. split; [done|]. by right.
  - rewrite (bool_decide_eq_false_2 _ Hk).
    destruct (decide (k = (app, name c))) as [->|Hne].
    + rewrite lookup_insert_eq. rewrite bool_decide_eq_true_2; [done|].
      split; [done|]. by left.
    + rewrite lookup_insert_ne by done.
      rewrite bool_decide_eq_false_2; [done|].
      intros [Happ [Hname|Hin]%elem_of_cons]; [|by apply Hk].
      apply Hne. destruct k. simpl in *. by subst.
Qed.

Lemma name_changes_name_map (app : string) (app_leaf : option ChangeKey)
    (change_name : option string) changelogs (i next_number : nat)
    (st : Names) (k v : ChangeKey) :
  name_map (name_changes timestamps app app_leaf change_name i next_number
                         changelogs st).2 !! k = Some v →
  name_map st !! k = Some v ∨
  (k.1 = app ∧ k.2 ∈ name <$> changelogs ∧ v.1 = app).
Proof.
  revert i next_number st.
  induction changelogs as [|c rest IH]; intros i next_number st; simpl.
  { by left. }
  intros [Hst|(Hk & Hin & Hv)]%IH.
  - simpl in Hst. apply lookup_insert_Some in Hst as [[<- <-]|[_ Hst]].
    + right. split; [done|]. split; [by left|done].
    + by left.
  - right. split; [done|]. split; [by right|done].
Qed.

Lemma name_changes_other (app : string) (app_leaf : option ChangeKey)
    (change_name : option string) changelogs (i next_number : nat)
    (st : Names) (k : ChangeKey) :
  k.1 ≠ app →
  name_map (name_changes timestamps app app_leaf change_name i next_number
                         changelogs st).2 !! k = name_map st !! k.
Proof.
  intros Hk. revert i next_number st.
  induction changelogs as [|c rest IH]; intros i next_number st; simpl;
    [done|].
  rewrite IH. simpl. apply lookup_insert_ne. by intros <-.
Qed.

(** A key of [name_map]: the label of an item and the former name of one
    of its changes. *)
Definition former_key items (k : ChangeKey) : Prop :=
  ∃ changelogs, (k.1, changelogs) ∈ items ∧ k.2 ∈ name <$> changelogs.

Lemma arrange_apps_name_map (leaves : list ChangeKey)
    (change_name : option string) items (st : Names) (k v : ChangeKey) :
  name_map (arrange_apps ask_initial timestamps leaves change_name
                         items st).2 !! k = Some v →
  name_map st !! k = Some v ∨ (former_key items k ∧ v.1 = k.1).
Proof.
  revert st. induction items as [|[a cl] rest IH]; intros st; simpl.
  { by left. }
  assert (∀ st', name_map st' !! k = Some v ∨
                 former_key rest k ∧ v.1 = k.1 →
                 (name_map st' !! k = Some v →
                  name_map st !! k = Some v ∨
                  k.1 = a ∧ k.2 ∈ name <$> cl ∧ v.1 = a) →
                 name_map st !! k = Some v ∨
                 former_key ((a, cl) :: rest) k ∧ v.1 = k.1) as Hstep.
  { intros st' [Hst'|[(cl' & Hin & Hname) Hv]] Hhere.
    - destruct (Hhere Hst') as [Hst|(Hk & Hname & Hv)]; [by left|].
      right. split; [|congruence]. exists cl. split; [|done].
      rewrite Hk. by left.
    - right. split; [|done]. exists cl'. split; [by right|done]. }
  destruct cl as [|c cl].
  { simpl. intros Hr%IH. apply (Hstep st); [done|]. by left. }
  destruct (bool_decide (app_leaf_of leaves a = None) && negb (ask_initial a)).
  - intros Hr%IH. eapply Hstep; [exact Hr|]. cbn [name_map].
    rewrite declined_lookup. case_bool_decide as Hk; [|by intros; left].
    intros [= <-]. right. by destruct Hk.
  - cbn [snd]. intros Hr%IH. eapply Hstep; [exact Hr|].
    apply name_changes_name_map.
Qed.

Lemma arrange_apps_other (leaves : list ChangeKey)
    (change_name : option string) items (st : Names) (k : ChangeKey) :
  k.1 ∉ items.*1 →
  name_map (arrange_apps ask_initial timestamps leaves change_name
                         items st).2 !! k = name_map st !! k.
Proof.
  revert st. induction items as [|[a cl] rest IH]; intros st; simpl; [done|].
  intros [Hne Hrest]%not_elem_of_cons.
  destruct cl as [|c cl]; [by apply IH|].
  destruct (bool_decide (app_leaf_of leaves a = None) && negb (ask_initial a)).
  - rewrite IH by done. cbn [name_map]. rewrite declined_lookup.
    rewrite bool_decide_eq_false_2; [done|]. by intros [? _].
  - cbn [snd]. rewrite IH by done. by apply name_changes_other.
Qed.

Lemma arrange_apps_left_out (leaves : list ChangeKey)
    (change_name : option string) items (st : Names) (app : string)
    changelogs (c : Change DB PS) :
  NoDup items.*1 → (app, changelogs) ∈ items → c ∈ changelogs →
  left_out leaves app = true →
  name_map (arrange_apps ask_initial timestamps leaves change_name
                         items st).2 !! (app, name c)
  = Some (app, "__first__").
Proof.
  revert st. induction items as [|[a cl] rest IH]; intros st; simpl.
  { by intros _ ?%elem_of_nil. }
  intros [Ha Hnd]%NoDup_cons [[= -> ->]|Hin]%elem_of_cons Hc Hleft.
  - destruct cl as [|c0 cl]; [by apply elem_of_nil in Hc|].
    unfold left_out in Hleft. rewrite Hleft.
    rewrite arrange_apps_other by done. cbn [name_map].
    rewrite declined_lookup. rewrite bool_decide_eq_true_2; [done|].
    split; [done|]. cbn [snd]. apply list_elem_of_fmap. by exists c.
  - destruct cl as [|c0 cl]; [by apply IH|].
    destruct (bool_decide (app_leaf_of leaves a = None)
              && negb (ask_initial a)); simpl; by apply IH.
Qed.

Lemma NoDup_fst_agree {A B} (l : list (A * B)) (x : A) (y1 y2 : B) :
  NoDup l.*1 → (x, y1) ∈ l → (x, y2) ∈ l → y1 = y2.
Proof.
  induction l as [|[a b] l IH]; simpl; [by intros _ ?%elem_of_nil|].
  intros [Ha Hnd]%NoDup_cons [[= -> ->]|H1]%elem_of_cons
         [[= <-]|H2]%elem_of_cons.
  - done.
  - destruct Ha. apply list_elem_of_fmap. by exists (a, y2).
  - subst. destruct Ha. apply list_elem_of_fmap. by exists (x, y1).
  - by apply IH.
Qed.

Lemma app_leaf_of_label (leaves : list ChangeKey) (app : string)
    (leaf : ChangeKey) :
  app_leaf_of leaves app = Some leaf → leaf.1 = app ∧ leaf ∈ leaves.
Proof.
  unfold app_leaf_of. intros Hhead%head_Some_elem_of.
  by apply list_elem_of_filter in Hhead.
Qed.

(** The new changes extend the graph from its leaf nodes: the first change
    of an app that has a leaf node comes back with that node, a leaf of
    the graph in the app, as its last dependency (provided that no change
    of the app came in under the name of the leaf node, which
    [name_map] would replace). *)
Theorem arrange_for_graph_leaf_dependency {U} changes
    (graph : gmap ChangeKey (Node U)) (change_name : option string)
    (app : string) (c0 : Change DB PS) changelogs (leaf : ChangeKey) :
  NoDup changes.*1 → (app, c0 :: changelogs) ∈ changes →
  app_leaf_of (leaf_nodes graph None) app = Some leaf →
  (∀ c, c ∈ c0 :: changelogs → name c ≠ leaf.2) →
  leaf.1 = app ∧ leaf ∈ leaf_nodes graph None ∧
  ∃ first others,
    (app, first :: others)
      ∈ arrange_for_graph ask_initial timestamps changes graph change_name ∧
    last (dependencies first) = Some leaf.
Proof.
  intros Hnd Hin Hleaf Hnames.
  destruct (app_leaf_of_label _ _ _ Hleaf) as [Hlabel Hleaves].
  split; [done|]. split; [done|].
  destruct (arrange_apps_spec (leaf_nodes graph None) change_name changes
              {| name_map := ∅; tick := 0 |} Hnd) as [_ Hitems].
  specialize (Hitems app (c0 :: changelogs) Hin ltac:(done)).
  unfold left_out in Hitems. rewrite Hleaf in Hitems. simpl in Hitems.
  destruct Hitems as [st' Hnamed].
  set (r := arrange_apps ask_initial timestamps (leaf_nodes graph None)
              change_name changes {| name_map := ∅; tick := 0 |}) in *.
  assert (name_map r.2 !! leaf = None) as Hnone.
  { destruct (name_map r.2 !! leaf) as [v|] eqn:Hv; [|done].
    apply arrange_apps_name_map in Hv
      as [Hv|[(cl & Hcl & (c & Hc & Hcin)%list_elem_of_fmap) _]];
      [done|].
    rewrite Hlabel in Hcl.
    assert (cl = c0 :: changelogs) as ->.
    { by apply (NoDup_fst_agree changes app). }
    by destruct (Hnames c Hcin). }
  eexists _, _. split.
  - unfold arrange_for_graph. fold r. apply list_elem_of_fmap.
    eexists. split; [|exact Hnamed]. simpl. reflexivity.
  - simpl. rewrite fmap_app. simpl. rewrite last_snoc. by rewrite Hnone.
Qed.

(** No change of the result depends on a change that was left out: a
    dependency on a change of an app without leaf node for which no
    initial change is wanted has become one on [__first__] of that
    app. *)
Theorem arrange_for_graph_left_out {U} changes
    (graph : gmap ChangeKey (Node U)) (change_name : option string)
    (app : string) changelogs (c : Change DB PS) :
  NoDup changes.*1 → (app, changelogs) ∈ changes → c ∈ changelogs →
  app_leaf_of (leaf_nodes graph None) app = None →
  ask_initial app = false →
  name c ≠ "__first__" →
  ∀ app' arranged c',
    (app', arranged)
      ∈ arrange_for_graph ask_initial timestamps changes graph change_name →
    c' ∈ arranged →
    (app, name c) ∉ dependencies c'.
Proof.
  intros Hnd Hin Hc Hleaf Hask Hname app' arranged c'.
  unfold arrange_for_graph.
  set (r := arrange_apps ask_initial timestamps (leaf_nodes graph None)
              change_name changes {| name_map := ∅; tick := 0 |}).
  intros ([a cl] & [= -> ->] & _)%list_elem_of_fmap.
  intros (c1 & -> & _)%list_elem_of_fmap. simpl.
  intros (d & Hd & _)%list_elem_of_fmap.
  assert (left_out (leaf_nodes graph None) app = true) as Hleft.
  { unfold left_out. by rewrite Hleaf, Hask. }
  assert (∀ c2, c2 ∈ changelogs →
            name_map r.2 !! (app, name c2) = Some (app, "__first__"))
    as Hfirst.
  { intros c2 Hc2. by apply (arrange_apps_left_out _ _ _ _ _ changelogs). }
  destruct (name_map r.2 !! d) as [v|] eqn:Hv; simpl in Hd.
  - subst v. pose proof Hv as Hkey.
    apply arrange_apps_name_map in Hkey
      as [Hkey|[(cl' & Hcl' & (c2 & Hc2 & Hc2in)%list_elem_of_fmap) Hlabel]];
      [done|].
    simpl in Hlabel. rewrite <- Hlabel in Hcl'.
    assert (cl' = changelogs) as ->.
    { by apply (NoDup_fst_agree changes app). }
    assert (name_map r.2 !! d = Some (app, "__first__")) as Hd'.
    { destruct d as [d1 d2]. simpl in Hlabel, Hc2. subst d1 d2.
      by apply Hfirst. }
    rewrite Hv in Hd'. by injection Hd'.
  - subst d. rewrite Hfirst in Hv by done. discriminate.
Qed.

End arrange.

(** The call of makechange.py on the chain of three changes: one new
    change for [blog], which has a leaf node, and one for [shop], which
    has none and gets no initial change. *)
Definition custom_blog : Change nat Examples.StubState :=
  Examples.make_change "blog" "custom" [] [("shop", "custom")].

Definition custom_shop : Change nat Examples.StubState :=
  Examples.make_change "shop" "custom" [] [].

Definition new_changes : list (string * list (Change nat Examples.StubState)) :=
  [("blog", [custom_blog]); ("shop", [custom_shop])].

Definition no_initial (app : string) : bool := false.

Definition clock (call : nat) : string := "20240101_0000".

Example arrange_for_graph_new_changes :
  arrange_for_graph no_initial clock new_changes Examples.blog_graph
                    (Some "add_tags")
  = [("blog",
      [Examples.make_change "blog" "0004_add_tags" []
         [("shop", "__first__"); Examples.k3]])].
Proof. by vm_compute. Qed.

Example arrange_for_graph_suggested_name :
  (λ item : string * list (Change nat Examples.StubState),
     (item.1, name <$> item.2))
    <$> arrange_for_graph (λ _, true) clock new_changes Examples.blog_graph
                          None
  = [("blog", ["0004_auto_20240101_0000"]); ("shop", ["0001_initial"])].
Proof. by vm_compute. Qed.

Lemma arrange_for_graph_numbering_witness :
  let app_leaf := app_leaf_of (leaf_nodes Examples.blog_graph None) "blog" in
  let out := arrange_for_graph no_initial clock new_changes
                               Examples.blog_graph (Some "add_tags") in
  NoDup out.*1 ∧
  if bool_decide (app_leaf = None) && negb (no_initial "blog")
  then "blog" ∉ out.*1
  else ∃ arranged,
    ("blog", arranged) ∈ out ∧
    length arranged = length [custom_blog] ∧
    ∀ i c, arranged !! i = Some c →
      parse_number (name c) = Some (first_number app_leaf + i) ∧
      ∃ c0, [custom_blog] !! i = Some c0 ∧
            app_label c = app_label c0 ∧ operations c = operations c0.
Proof.
  apply (arrange_for_graph_numbering no_initial clock new_changes
           Examples.blog_graph (Some "add_tags") "blog" [custom_blog]).
  - apply (bool_decide_unpack _). vm_compute. exact I.
  - by left.
  - discriminate.
Defined.

Lemma arrange_for_graph_leaf_dependency_witness :
  Examples.k3.1 = "blog" ∧
  Examples.k3 ∈ leaf_nodes Examples.blog_graph None ∧
  ∃ first others,
    ("blog", first :: others)
      ∈ arrange_for_graph no_initial clock new_changes Examples.blog_graph
                          (Some "add_tags") ∧
    last (dependencies first) = Some Examples.k3.
Proof.
  apply (arrange_for_graph_leaf_dependency no_initial clock new_changes
           Examples.blog_graph (Some "add_tags") "blog" custom_blog []
           Examples.k3).
  - apply (bool_decide_unpack _). vm_compute. exact I.
  - by left.
  - vm_compute. reflexivity.
  - intros c ->%list_elem_of_singleton. vm_compute. discriminate.
Defined.

Lemma arrange_for_graph_left_out_witness :
  app_leaf_of (leaf_nodes Examples.blog_graph None) "shop" = None ∧
  ∀ app' arranged c',
    (app', arranged)
      ∈ arrange_for_graph no_initial clock new_changes Examples.blog_graph
                          (Some "add_tags") →
    c' ∈ arranged →
    ("shop", name custom_shop) ∉ dependencies c'.
Proof.
  split; [vm_compute; reflexivity|].
  apply (arrange_for_graph_left_out no_initial clock new_changes
           Examples.blog_graph (Some "add_tags") "shop" [custom_shop]
           custom_shop).
  - apply (bool_decide_unpack _). vm_compute. exact I.
  - right. by left.
  - by left.
  - vm_compute. reflexivity.
  - reflexivity.
  - vm_compute. discriminate.
Defined.

End AutodetectorFacts.

(** ** executor.py: [change] never unapplies *)

Module ChangeNeverUnapplies.
Import Graph Operations Executor PyFacts ExecutorFacts ChangePlanFacts.
Import PlanShapes RunFacts.

Section never.
Context {DB PS : Type} `{!Backend DB} `{!ProjectStateOps PS}.
Implicit Types self : ChangeExecutor DB PS.
Implicit Types w : World DB.

Lemma change_plan_raise self (targets : list Target)
    (plan_arg : option (Plan DB PS)) e (state : option PS) (fake : bool) w :
  plan_in_effect self targets plan_arg = Raise e →
  change self targets plan_arg state fake w = (Raise e, w).
Proof.
  unfold plan_in_effect, change. intros Hplan.
  unfold bind at 1. unfold lift at 1. by rewrite Hplan.
Qed.

Lemma change_empty_plan self (targets : list Target)
    (plan_arg : option (Plan DB PS)) full_plan (state : option PS)
    (fake : bool) w :
  plan_in_effect self targets plan_arg = Ok [] →
  full_plan_of self = Ok full_plan →
  change self targets plan_arg state fake w =
  (match state with
   | Some st => Ok st
   | None => _create_project_state self true
   end, w).
Proof.
  unfold plan_in_effect, change. intros Hplan Hfull.
  unfold bind at 1. unfold lift at 1. rewrite Hplan.
  unfold bind at 1. unfold lift at 1. rewrite Hfull.
  by destruct state.
Qed.

(** What [change] does to the record, whatever its arguments. *)
Lemma change_rows self (targets : list Target)
    (plan_arg : option (Plan DB PS)) (state : option PS) (fake : bool) w :
  let run := change self targets plan_arg state fake w in
  ∃ recorded,
    Recorder.rows (store run.2) = Recorder.rows (store w) ++ recorded ∧
    (fake = true → db run.2 = db w).
Proof.
  intros run. subst run.
  assert (∀ r : result PS,
            ∃ recorded,
              Recorder.rows (store (r, w).2)
                = Recorder.rows (store w) ++ recorded ∧
              (fake = true → db (r, w).2 = db w)) as Hsame.
  { intros r. exists []. simpl. by rewrite app_nil_r. }
  destruct (plan_in_effect self targets plan_arg) as [plan|e] eqn:Hplan;
    [|rewrite (change_plan_raise _ _ _ e) by done; apply Hsame].
  destruct (full_plan_of self) as [full_plan|e] eqn:Hfull;
    [|rewrite (change_full_plan_raise _ _ _ plan e) by done; apply Hsame].
  destruct (decide (plan = [])) as [->|Hne].
  { rewrite (change_empty_plan _ _ _ full_plan) by done. apply Hsame. }
  rewrite (change_unfold _ _ _ plan full_plan) by done.
  case_bool_decide; [apply Hsame|].
  destruct (all_forwards plan).
  - unfold bind at 1.
    assert (∀ st, ∃ recorded,
              Recorder.rows
                (store (_change_all_forwards self st plan full_plan fake w).2)
                = Recorder.rows (store w) ++ recorded ∧
              (fake = true →
               db (_change_all_forwards self st plan full_plan fake w).2
               = db w)) as Hrun.
    { intros st.
      destruct (_change_all_forwards_rows self st plan full_plan fake w)
        as (recorded & Hrows & _ & _ & Hdb & _).
      by exists recorded. }
    destruct state as [st|]; [apply Hrun|].
    unfold lift. destruct (_create_project_state self true); [apply Hrun|].
    apply Hsame.
  - unfold bind at 1. apply Hsame.
Qed.

(** [change] never unapplies: whatever the targets, the plan, the state
    and the flag it is called with, and whatever its outcome, the rows of
    the record after the call are those before it, in their order,
    followed by the rows of the changes that it applied; no row is
    removed.  With [fake] the database is as it was. *)
Theorem change_never_removes_a_row self (targets : list Target)
    (plan_arg : option (Plan DB PS)) (state : option PS) (fake : bool) w :
  let run := change self targets plan_arg state fake w in
  Recorder.rows (store w) `prefix_of` Recorder.rows (store run.2) ∧
  (∀ k, k ∈ Recorder.applied_set (store w) →
        k ∈ Recorder.applied_set (store run.2)) ∧
  (fake = true → db run.2 = db w).
Proof.
  intros run.
  destruct (change_rows self targets plan_arg state fake w)
    as (recorded & Hrows & Hdb).
  fold run in Hrows, Hdb. split; [|split; [|done]].
  - by exists recorded.
  - intros k. unfold Recorder.applied_set. rewrite Hrows.
    rewrite !elem_of_list_to_set, elem_of_app. by left.
Qed.

End never.
End ChangeNeverUnapplies.

(** ** management/commands/applychange.py *)

Module ApplyChange.
Import Graph Loader Operations Executor LoaderLookup.

(** What leaves [handle]: a [CommandError] of its own, or an exception
    that it does not catch. *)
Inductive outcome : Type :=
  | Done
  | CommandError
  | Uncaught (e : exn).

(** The options that the argument parser of the command builds, and the
    key [migration_name], which the parser does not define: only a caller
    of [call_command] can put it there (then with a string). *)
Record Options : Type := {
  opt_app_label : option string;
  opt_change_name : option string;
  opt_interactive : bool;
  opt_fake : bool;
  opt_verbosity : nat;
  opt_migration_name : option string;
}.

Section loader.
Context {U : Type}.

(** The [raise] of [check_consistent_history]: its message reads
    [connection.alias], which [None] does not have. *)
Definition history_error (connection : option string) : exn :=
  match connection with
  | Some alias => InconsistentChangeHistory
  | None => AttributeError
  end.

(** The loops of [ChangeLoader.check_consistent_history(connection)],
    with the connection that the caller passes. *)
Fixpoint check_parents_on (connection : option string)
    (applied : gset ChangeKey) (ps : list ChangeKey) : result unit :=
  match ps with
  | [] => Ok tt
  | parent :: ps' =>
      if bool_decide (parent ∉ applied) then Raise (history_error connection)
      else check_parents_on connection applied ps'
  end.

Fixpoint check_applied_on (connection : option string)
    (g : gmap ChangeKey (Node U)) (applied : gset ChangeKey)
    (todo : list ChangeKey) : result unit :=
  match todo with
  | [] => Ok tt
  | change :: todo' =>
      if bool_decide (change ∉ dom (nodes g))
      then check_applied_on connection g applied todo'
      else
        rbind (getitem (node_map g) change) (λ n,
        rbind (check_parents_on connection applied (elements (parents n)))
              (λ _, check_applied_on connection g applied todo'))
  end.

(** [ChangeLoader.check_consistent_history(connection)]; the recorder of
    [None] is that of the default connection. *)
Definition check_consistent_history_on (connection : option string)
    (g : gmap ChangeKey (Node U)) : M Recorder.Store unit :=
  (applied <- Recorder.applied_changes ;;
   lift (check_applied_on connection g applied (elements applied)))%py.

End loader.

Section handle.
Context {DB PS : Type} `{!Backend DB} `{!ProjectStateOps PS}.

(** A step of [handle] that raises what [handle] does not catch. *)
Definition run_step {A} (c : M (World DB) A)
    (k : A → World DB → outcome * World DB) : World DB → outcome * World DB :=
  λ w, match c w with
       | (Ok a, w') => k a w'
       | (Raise e, w') => (Uncaught e, w')
       end.

(** [if x] for an option that is [None] or a string. *)
Definition given (x : option string) : bool :=
  match x with
  | Some (String _ _) => true
  | _ => false
  end.

(** The targets that [handle] works out from the command line. *)
Definition targets_of (g : gmap ChangeKey (Node (Change DB PS)))
    (disk_changes : gmap ChangeKey (Change DB PS))
    (changed_apps : gset string) (options : Options)
    : outcome + list Target :=
  if given (opt_app_label options) && given (opt_change_name options) then
    let app_label := default "" (opt_app_label options) in
    match opt_migration_name options with
    | None => inl (Uncaught KeyError)
    | Some change_name =>
        if bool_decide (app_label ∉ changed_apps) then inl CommandError
        else if bool_decide (change_name = "zero")
        then inr [(app_label, None)]
        else
          match get_change_by_prefix disk_changes app_label change_name with
          | Ok change => inr [(app_label, Some (name change))]
          | Raise e =>
              if issubclass e AmbiguityError then inl CommandError
              else if issubclass e KeyError then inl CommandError
              else inl (Uncaught e)
          end
    end
  else if given (opt_app_label options) then
    let app_label := default "" (opt_app_label options) in
    if bool_decide (app_label ∉ changed_apps) then inl CommandError
    else inr (target_of_key
                <$> filter (λ key, key.1 = app_label) (leaf_nodes g None))
  else inr (target_of_key <$> leaf_nodes g None).

(** [Command.handle], called with [options], from the executor on.  [graph],
    [disk_changes], [unchanged_apps] and [changed_apps] are what the
    loader of the executor has read from disk; its [applied_changes] are
    read from the record when the executor is built.  The callback
    writes to [stdout], as [handle] does; the text written is not
    modelled, the calls of the callback are. *)
Definition handle (g : gmap ChangeKey (Node (Change DB PS)))
    (disk_changes : gmap ChangeKey (Change DB PS))
    (unchanged_apps : list string) (changed_apps : gset string)
    (options : Options) : World DB → outcome * World DB :=
  run_step (on_store Recorder.applied_changes) (λ applied,
  let executor :=
    {| graph := g; applied_changes := applied;
       Executor.unchanged_apps := unchanged_apps;
       progress_callback := true |} in
  run_step (on_store (check_consistent_history_on None g)) (λ _,
  run_step (lift (detect_conflicts g)) (λ conflicts,
  if bool_decide (conflicts ≠ ∅) then λ w, (CommandError, w)
  else
    match targets_of g disk_changes changed_apps options with
    | inl failure => λ w, (failure, w)
    | inr targets =>
        run_step (lift (change_plan executor targets false)) (λ plan,
        run_step (lift (_create_project_state executor true)) (λ pre_change_state,
        let fake := match plan with
                    | [] => false
                    | _ :: _ => opt_fake options
                    end in
        run_step (change executor targets (Some plan)
                     (Some (clone pre_change_state)) fake) (λ _,
        λ w, (Done, w))))
    end))).

End handle.
End ApplyChange.

Module ApplyChangeFacts.
Import Graph Loader Operations Executor LoaderLookup ApplyChange.
Import PyFacts RecorderFacts LoaderFacts ExecutorFacts.

Section loader.
Context {U : Type}.
Implicit Types g : gmap ChangeKey (Node U).

Lemma check_parents_on_eq (connection : option string)
    (applied : gset ChangeKey) (ps : list ChangeKey) :
  check_parents_on connection applied ps =
  match check_parents applied ps with
  | Ok _ => Ok tt
  | Raise _ => Raise (history_error connection)
  end.
Proof.
  induction ps as [|p ps IH]; simpl; [done|]. by case_bool_decide.
Qed.

Lemma check_applied_on_ok (connection : option string) g
    (applied : gset ChangeKey) (todo : list ChangeKey) :
  check_applied g applied todo = Ok tt →
  check_applied_on connection g applied todo = Ok tt.
Proof.
  induction todo as [|c todo IH]; simpl; [done|].
  case_bool_decide; [done|].
  destruct (getitem (node_map g) c) as [n|]; simpl; [|done].
  rewrite check_parents_on_eq.
  destruct (check_parents applied (elements (parents n))) as [[]|];
    simpl; [done|discriminate].
Qed.

Lemma check_applied_on_raise (connection : option string) g
    (applied : gset ChangeKey) (todo : list ChangeKey) :
  check_applied g applied todo = Raise InconsistentChangeHistory →
  check_applied_on connection g applied todo
  = Raise (history_error connection).
Proof.
  induction todo as [|c todo IH]; simpl; [done|].
  case_bool_decide as Hc; [done|].
  unfold node_map, getitem.
  destruct (g !! c) as [n|] eqn:Hn; simpl.
  - rewrite check_parents_on_eq.
    by destruct (check_parents applied (elements (parents n))) as [[]|].
  - discriminate.
Qed.

Lemma applied_changes_store (s : Recorder.Store) :
  (Recorder.applied_changes s).2 = s.
Proof.
  unfold Recorder.applied_changes, bind, get, ret.
  by destruct (ensure_schema_cases s) as [-> | ->].
Qed.

Lemma check_consistent_history_on_store (connection : option string) g
    (s : Recorder.Store) :
  (check_consistent_history_on connection g s).2 = s.
Proof.
  unfold check_consistent_history_on, bind, lift.
  pose proof (applied_changes_store s) as Hs.
  by destruct (Recorder.applied_changes s) as [[applied|e] s'];
    simpl in Hs; subst s'.
Qed.

(** The history check with the connection that the caller passes.  With
    the changelog table in place, a history in which a change is applied
    before one of its parents makes the check raise
    [InconsistentChangeHistory] for a connection, but [AttributeError]
    for [None], as applychange.py calls it; a sound history passes in
    both cases. *)
Lemma check_consistent_history_on_None g (s : Recorder.Store)
    (connection : option string) :
  Recorder.db_table ∈ Recorder.table_names s →
  ((∃ c p, unapplied_parent g (Recorder.applied_set s) c p) →
   check_consistent_history_on connection g s
   = (Raise (match connection with
             | Some _ => InconsistentChangeHistory
             | None => AttributeError
             end), s)) ∧
  ((¬ ∃ c p, unapplied_parent g (Recorder.applied_set s) c p) →
   check_consistent_history_on connection g s = (Ok tt, s)).
Proof.
  intros Htable.
  assert (check_consistent_history_on connection g s =
          (check_applied_on connection g (Recorder.applied_set s)
             (elements (Recorder.applied_set s)), s)) as ->.
  { unfold check_consistent_history_on, Recorder.applied_changes, bind, get,
      ret, lift. by rewrite ensure_schema_present. }
  set (applied := Recorder.applied_set s). split.
  - intros (c & p & Hc & n & Hn & Hp & Hnot).
    rewrite check_applied_on_raise; [by destruct connection|].
    apply (check_applied_raise g applied _ c n p); try done.
    by apply elem_of_elements.
  - intros Hnone. rewrite check_applied_on_ok; [done|].
    apply check_applied_ok.
    intros c n p Hc%elem_of_elements Hn Hp.
    destruct (decide (p ∈ applied)) as [|Hnot]; [done|].
    destruct Hnone. exists c, p. split; [done|]. by exists n.
Qed.

End loader.

Section handle.
Context {DB PS : Type} `{!Backend DB} `{!ProjectStateOps PS}.
Implicit Types g : gmap ChangeKey (Node (Change DB PS)).
Implicit Types w : World DB.

Lemma on_store_same {A} (c : M Recorder.Store A) w :
  (c (store w)).2 = store w → on_store c w = ((c (store w)).1, w).
Proof.
  intros Hsame. unfold on_store. simpl. rewrite Hsame. by destruct w.
Qed.

Lemma run_step_on_store {A} (c : M Recorder.Store A)
    (k : A → World DB → outcome * World DB) w :
  (c (store w)).2 = store w →
  run_step (on_store c) k w =
  match (c (store w)).1 with
  | Ok a => k a w
  | Raise e => (Uncaught e, w)
  end.
Proof.
  intros Hsame. unfold run_step. rewrite on_store_same by done.
  by destruct (c (store w)).1.
Qed.

Lemma run_step_lift {A} (r : result A)
    (k : A → World DB → outcome * World DB) w :
  run_step (lift r) k w =
  match r with
  | Ok a => k a w
  | Raise e => (Uncaught e, w)
  end.
Proof. unfold run_step, lift. by destruct r. Qed.

(** [handle] up to the targets. *)
Lemma handle_unfold g (disk_changes : gmap ChangeKey (Change DB PS))
    (unchanged_apps : list string) (changed_apps : gset string)
    (options : Options) w :
  Recorder.db_table ∈ Recorder.table_names (store w) →
  (¬ ∃ c p, unapplied_parent g (Recorder.applied_set (store w)) c p) →
  detect_conflicts g = Ok ∅ →
  handle g disk_changes unchanged_apps changed_apps options w =
  match targets_of g disk_changes changed_apps options with
  | inl failure => (failure, w)
  | inr targets =>
      let executor :=
        {| graph := g; applied_changes := Recorder.applied_set (store w);
           Executor.unchanged_apps := unchanged_apps;
           progress_callback := true |} in
      run_step (lift (change_plan executor targets false)) (λ plan,
      run_step (lift (_create_project_state executor true)) (λ pre_change_state,
      let fake := match plan with
                  | [] => false
                  | _ :: _ => opt_fake options
                  end in
      run_step (change executor targets (Some plan)
                   (Some (clone pre_change_state)) fake) (λ _,
      λ w, (Done, w)))) w
  end.
Proof.
  intros Htable Hsound Hconflicts. unfold handle.
  rewrite run_step_on_store by apply applied_changes_store.
  rewrite RecorderRoundTrips.applied_changes_present by done. simpl.
  rewrite run_step_on_store by apply check_consistent_history_on_store.
  destruct (check_consistent_history_on_None g (store w) None Htable)
    as [_ Hok].
  rewrite Hok by done. simpl.
  rewrite run_step_lift, Hconflicts.
  rewrite bool_decide_eq_false_2 by (by intros []).
  by destruct (targets_of g disk_changes changed_apps options).
Qed.

(** The command on an inconsistent history: with the changelog table in
    place, when a change is recorded as applied and one of its parents is
    not, [handle] ends with an uncaught [AttributeError], not with
    [InconsistentChangeHistory], and has changed nothing. *)
Theorem handle_inconsistent_history g
    (disk_changes : gmap ChangeKey (Change DB PS))
    (unchanged_apps : list string) (changed_apps : gset string)
    (options : Options) w :
  Recorder.db_table ∈ Recorder.table_names (store w) →
  (∃ c p, unapplied_parent g (Recorder.applied_set (store w)) c p) →
  handle g disk_changes unchanged_apps changed_apps options w
  = (Uncaught AttributeError, w).
Proof.
  intros Htable Hbad. unfold handle.
  rewrite run_step_on_store by apply applied_changes_store.
  rewrite RecorderRoundTrips.applied_changes_present by done. simpl.
  rewrite run_step_on_store by apply check_consistent_history_on_store.
  destruct (check_consistent_history_on_None g (store w) None Htable)
    as [Hraise _].
  by rewrite Hraise.
Qed.


(** The command with an app label and a change name.  [handle] reads the
    name under the key [migration_name], which the argument parser does
    not define: when the key is missing, the command never returns, and
    it changes nothing: no change is applied or unapplied, nothing is
    recorded, and the callback is not called.  With the changelog table in
    place, a sound history and no conflict, it ends with an uncaught
    [KeyError]. *)
Theorem handle_named_change g (disk_changes : gmap ChangeKey (Change DB PS))
    (unchanged_apps : list string) (changed_apps : gset string)
    (options : Options) w :
  given (opt_app_label options) = true →
  given (opt_change_name options) = true →
  opt_migration_name options = None →
  let run := handle g disk_changes unchanged_apps changed_apps options w in
  run.2 = w ∧ run.1 ≠ Done ∧
  (Recorder.db_table ∈ Recorder.table_names (store w) →
   (¬ ∃ c p, unapplied_parent g (Recorder.applied_set (store w)) c p) →
   detect_conflicts g = Ok ∅ →
   run.1 = Uncaught KeyError).
Proof.
  intros Happ Hname Hkey run.
  assert (targets_of g disk_changes changed_apps options
          = inl (Uncaught KeyError)) as Htargets.
  { unfold targets_of. by rewrite Happ, Hname, Hkey. }
  split; [|split].
  - subst run. unfold handle.
    rewrite run_step_on_store by apply applied_changes_store.
    destruct (Recorder.applied_changes (store w)).1 as [applied|e]; [|done].
    rewrite run_step_on_store by apply check_consistent_history_on_store.
    destruct (check_consistent_history_on None g (store w)).1; [|done].
    rewrite run_step_lift.
    destruct (detect_conflicts g) as [conflicts|e]; [|done].
    case_bool_decide; [done|]. by rewrite Htargets.
  - subst run. unfold handle.
    rewrite run_step_on_store by apply applied_changes_store.
    destruct (Recorder.applied_changes (store w)).1 as [applied|e]; [|done].
    rewrite run_step_on_store by apply check_consistent_history_on_store.
    destruct (check_consistent_history_on None g (store w)).1; [|done].
    rewrite run_step_lift.
    destruct (detect_conflicts g) as [conflicts|e]; [|done].
    case_bool_decide; [done|]. by rewrite Htargets.
  - intros Htable Hsound Hconflicts. subst run.
    rewrite handle_unfold by done. by rewrite Htargets.
Qed.

(** The command never unapplies.  Whatever its options and whatever its
    outcome, the rows of the record after [handle] are those before it,
    in their order, followed by the rows of the changes that it applied:
    no row is removed.  With [--fake] the database is as it was. *)
Theorem handle_never_removes_a_row g
    (disk_changes : gmap ChangeKey (Change DB PS))
    (unchanged_apps : list string) (changed_apps : gset string)
    (options : Options) w :
  let run := handle g disk_changes unchanged_apps changed_apps options w in
  Recorder.rows (store w) `prefix_of` Recorder.rows (store run.2) ∧
  (opt_fake options = true → db run.2 = db w).
Proof.
  intros run. subst run.
  assert (∀ o : outcome,
            Recorder.rows (store w) `prefix_of` Recorder.rows (store (o, w).2)
            ∧ (opt_fake options = true → db (o, w).2 = db w)) as Hsame.
  { done. }
  unfold handle.
  rewrite run_step_on_store by apply applied_changes_store.
  destruct (Recorder.applied_changes (store w)).1 as [applied|e];
    [|apply Hsame].
  rewrite run_step_on_store by apply check_consistent_history_on_store.
  destruct (check_consistent_history_on None g (store w)).1; [|apply Hsame].
  rewrite run_step_lift.
  destruct (detect_conflicts g) as [conflicts|e]; [|apply Hsame].
  case_bool_decide; [apply Hsame|].
  destruct (targets_of g disk_changes changed_apps options)
    as [failure|targets]; [apply Hsame|].
  rewrite run_step_lift.
  set (executor := {| graph := g; applied_changes := applied |}).
  destruct (change_plan executor targets false) as [plan|e]; [|apply Hsame].
  rewrite run_step_lift.
  destruct (_create_project_state executor true) as [pre|e]; [|apply Hsame].
  unfold run_step.
  set (fake := match plan with [] => false | _ :: _ => opt_fake options end).
  destruct (ChangeNeverUnapplies.change_rows executor targets (Some plan)
              (Some (clone pre)) fake w) as (recorded & Hrows & Hdb).
  assert (plan = [] →
          (change executor targets (Some plan) (Some (clone pre)) fake w).2
          = w) as Hnil.
  { intros ->.
    destruct (full_plan_of executor) as [full_plan|e] eqn:Hfull.
    - by rewrite (ChangeNeverUnapplies.change_empty_plan _ _ _ full_plan).
    - by rewrite (change_full_plan_raise _ _ _ [] e). }
  destruct (change executor targets (Some plan) (Some (clone pre)) fake w)
    as [[post|e] w'] eqn:Hrun; simpl in *.
  - split; [by exists recorded|]. intros Hfake.
    destruct plan; [by rewrite Hnil|]. by apply Hdb.
  - split; [by exists recorded|]. intros Hfake.
    destruct plan; [by rewrite Hnil|]. by apply Hdb.
Qed.

End handle.

Definition named_options : Options :=
  {| opt_app_label := Some "blog";
     opt_change_name := Some "0002";
     opt_interactive := true;
     opt_fake := false;
     opt_verbosity := 1;
     opt_migration_name := None |}.

Definition plain_options : Options :=
  {| opt_app_label := None;
     opt_change_name := None;
     opt_interactive := true;
     opt_fake := true;
     opt_verbosity := 1;
     opt_migration_name := None |}.

(** The chain of three changes as the loader has read it from disk. *)
Definition blog_disk_changes : gmap ChangeKey (Change nat Examples.StubState) :=
  nodes Examples.blog_graph.

Lemma handle_named_change_witness :
  let run := handle Examples.blog_graph blog_disk_changes ["auth"] {["blog"]}
                    named_options Examples.blog_world in
  run.2 = Examples.blog_world ∧ run.1 ≠ Done ∧
  (Recorder.db_table ∈ Recorder.table_names (store Examples.blog_world) →
   (¬ ∃ c p, unapplied_parent Examples.blog_graph
               (Recorder.applied_set (store Examples.blog_world)) c p) →
   detect_conflicts Examples.blog_graph = Ok ∅ →
   run.1 = Uncaught KeyError).
Proof.
  apply (handle_named_change Examples.blog_graph blog_disk_changes ["auth"]
           {["blog"]} named_options Examples.blog_world);
    reflexivity.
Defined.

Example handle_named_change_run :
  handle Examples.blog_graph blog_disk_changes ["auth"] {["blog"]}
         named_options Examples.blog_world
  = (Uncaught KeyError, Examples.blog_world).
Proof. by vm_compute. Qed.

(** A record on which the third change is applied and the second, its
    parent, is not. *)
Definition gap_world : World nat :=
  {| store := Examples.blog_store [Examples.k1; Examples.k3];
     db := 0; progress := [] |}.

Lemma handle_inconsistent_history_witness :
  handle Examples.blog_graph blog_disk_changes ["auth"] {["blog"]}
         plain_options gap_world
  = (Uncaught AttributeError, gap_world).
Proof.
  apply (handle_inconsistent_history Examples.blog_graph blog_disk_changes
           ["auth"] {["blog"]} plain_options gap_world).
  - apply (bool_decide_unpack _). vm_compute. exact I.
  - exists Examples.k3, Examples.k2. split.
    + apply (bool_decide_unpack _). vm_compute. exact I.
    + eexists. split; [reflexivity|]. split.
      * apply (bool_decide_unpack _). vm_compute. exact I.
      * apply (bool_decide_unpack _). vm_compute. exact I.
Defined.

(** The command without arguments and with [--fake], on an empty record:
    the three changes are recorded, the database is not touched. *)
Example handle_fake_run :
  let run := handle Examples.blog_graph blog_disk_changes ["auth"] {["blog"]}
                    plain_options Examples.empty_world in
  run.1 = Done ∧
  Recorder.rows (store run.2) = [Examples.k1; Examples.k2; Examples.k3] ∧
  db run.2 = 0.
Proof. by vm_compute. Qed.

End ApplyChangeFacts.
